(** * Generation request orchestration (backend/routers/generation.py)

    A shallow embedding of the generation router: the cache-key
    fingerprint, the in-memory result cache with its one hour TTL, the
    retry loop around the upstream generate call, the quality score, the
    lifecycle of the [Generation] row and the batch endpoint in its
    sequential and parallel modes.

    Conventions of the embedding.
    - A handler is a value of [prog]: a finite tree of the effects it
      performs (clock reads, cache and database accesses, awaited calls),
      with [Raise] for a Python exception and [try_catch] for try/except.
    - [run] executes a handler alone against a [World]; [gather] executes
      several of them as asyncio tasks, switching only at awaits.
    - [datetime] values are microseconds in [Z]; Python floats are exact
      rationals in [Q]; dictionaries keyed by strings are [gmap]s, except
      where the insertion order is observable (the JSON dump), where they
      are association lists. *)

From stdpp Require Import base option list gmap strings pretty sorting.
From Stdlib Require Import ZArith QArith Qminmax Lia Lqa.

Local Open Scope string_scope.
Local Open Scope Z_scope.
Local Open Scope list_scope.

(** ** Python values and exceptions *)

(** The values a JSON document or an [Any]-typed field can hold, as far as
    the router distinguishes them (it only asks [is not None]). *)
Inductive pyval : Type :=
| PyNone
| PyBool (b : bool)
| PyInt (z : Z)
| PyStr (s : string).

Definition of_optional_str (o : option string) : pyval :=
  match o with Some s => PyStr s | None => PyNone end.

(** Truthiness of an [Optional[str]]: [None] and the empty string are falsy. *)
Definition truthy_str (o : option string) : bool :=
  match o with
  | Some s => negb (bool_decide (s = ""))
  | None => false
  end.

Inductive Exception : Type :=
| PyError (msg : string)
| HTTPException (status_code : Z) (detail : string).

(** ** Records of the router *)

Record GenerationRequest : Type := mkGenerationRequest {
  prompt : string;
  mode : string;
  camera_angle : option string;
  fov : option string;
  lighting : option string;
  color_palette : option string;
  composition : option string;
  style : option string;
  project_id : option Z;
  user_id : Z;
  use_cache : bool;
  max_retries : Z
}.

Record BatchGenerationRequest : Type := mkBatchGenerationRequest {
  requests : list GenerationRequest;
  parallel : bool;
  continue_on_error : bool
}.

(** The [response_data] dictionary built on the success path; it is what
    the cache stores. *)
Record ResponseData : Type := mkResponseData {
  rd_id : Z;
  rd_status : string;
  rd_image_url : option string;
  rd_parameters : gmap string pyval;
  rd_quality_score : option Q;
  rd_generation_time : option Q;
  rd_reasoning : option (gmap string pyval);
  rd_retry_count : Z
}.

Record GenerationResponse : Type := mkGenerationResponse {
  resp_data : ResponseData;
  cached : bool
}.

Record BatchGenerationResponse : Type := mkBatchGenerationResponse {
  total : Z;
  successful : Z;
  failed : Z;
  results : list (option GenerationResponse);
  errors : list (option string)
}.

(** A row of the [generations] table (database.py). *)
Record Generation : Type := mkGeneration {
  g_user_id : Z;
  g_project_id : option Z;
  g_prompt : string;
  g_mode : string;
  g_parameters : option (gmap string pyval);
  g_result_url : option string;
  g_quality_score : option Q;
  g_generation_time : option Q;
  g_status : string;
  g_error_message : option string;
  g_created_at : option Z;
  g_completed_at : option Z
}.

(** An entry of [generation_cache]: [{'data': ..., 'timestamp': ...}]. *)
Record CacheEntry : Type := mkCacheEntry {
  data : ResponseData;
  timestamp : Z
}.

(** Keyword arguments of [fibo_integration.generate]. *)
Record GenerateArgs : Type := mkGenerateArgs {
  a_prompt : pyval;
  a_camera_angle : pyval;
  a_fov : pyval;
  a_lighting : pyval;
  a_color_palette : pyval;
  a_composition : pyval;
  a_style : pyval
}.

(** The dictionary [fibo_integration.generate] returns. *)
Record GenerateResult : Type := mkGenerateResult {
  r_image_url : option string;
  r_parameters : gmap string pyval
}.

(** The JSON object [fibo_agent.analyze_intent] returns; either key may be
    missing. *)
Record IntentAnalysis : Type := mkIntentAnalysis {
  ia_parameters : option (gmap string pyval);
  ia_reasoning : option (gmap string pyval)
}.

(** ** Effects *)

(** What a handler can do to its surroundings.  [AnalyzeIntent], [FiboApi]
    and [Sleep] are the awaited calls: the only points where the event loop
    may switch to another task. *)
Inductive event : Type :=
| UtcNow
| CacheLookup (key : string)
| CacheStore (key : string) (entry : CacheEntry)
| CacheDelete (key : string)
| DbInsert (g : Generation)
| DbCommit (id : Z) (g : Generation)
| AnalyzeIntent (user_input : string)
| FiboApi (args : GenerateArgs)
| Sleep (seconds : Z).

Definition reply (ev : event) : Type :=
  match ev with
  | UtcNow => Z
  | CacheLookup _ => option CacheEntry
  | CacheStore _ _ => unit
  | CacheDelete _ => unit
  | DbInsert _ => Z
  | DbCommit _ _ => unit
  | AnalyzeIntent _ => (Exception + IntentAnalysis)%type
  | FiboApi _ => (Exception + option string)%type
  | Sleep _ => unit
  end.

Definition is_await (ev : event) : bool :=
  match ev with
  | AnalyzeIntent _ | FiboApi _ | Sleep _ => true
  | _ => false
  end.

Inductive prog (A : Type) : Type :=
| Ret (a : A)
| Raise (e : Exception)
| Vis (ev : event) (k : reply ev → prog A).

Arguments Ret {A} a.
Arguments Raise {A} e.
Arguments Vis {A} ev k.

Fixpoint bind {A B : Type} (p : prog A) (f : A → prog B) : prog B :=
  match p with
  | Ret a => f a
  | Raise e => Raise e
  | Vis ev k => Vis ev (λ x, bind (k x) f)
  end.

(** [try: p  except Exception as e: h e] *)
Fixpoint try_catch {A : Type} (p : prog A) (h : Exception → prog A) : prog A :=
  match p with
  | Ret a => Ret a
  | Raise e => h e
  | Vis ev k => Vis ev (λ x, try_catch (k x) h)
  end.

Definition trigger (ev : event) : prog (reply ev) := Vis ev Ret.

Global Instance prog_ret : MRet prog := @Ret.
Global Instance prog_bind : MBind prog := λ A B f p, bind p f.

(** ** The world a handler runs in *)

(** The collaborators outside the process: the clock, the intent resolver
    and the rendering service.  The n-th call of each kind gets the n-th
    answer, so that an upstream can fail twice and then succeed. *)
Record Env : Type := mkEnv {
  utcnow_at : nat → Z;
  analyze_intent_at : nat → string → Exception + IntentAnalysis;
  fibo_api_at : nat → GenerateArgs → Exception + option string
}.

Record World : Type := mkWorld {
  generation_cache : gmap string CacheEntry;
  generations : list Generation;
  clock_reads : nat;
  intent_calls : nat;
  api_calls : nat;
  trace : list event
}.

Definition log (ev : event) (w : World) : World :=
  mkWorld (generation_cache w) (generations w) (clock_reads w)
          (intent_calls w) (api_calls w) (trace w ++ [ev]).

Definition set_cache (c : gmap string CacheEntry) (w : World) : World :=
  mkWorld c (generations w) (clock_reads w) (intent_calls w) (api_calls w)
          (trace w).

Definition set_generations (gs : list Generation) (w : World) : World :=
  mkWorld (generation_cache w) gs (clock_reads w) (intent_calls w)
          (api_calls w) (trace w).

Definition tick_clock (w : World) : World :=
  mkWorld (generation_cache w) (generations w) (S (clock_reads w))
          (intent_calls w) (api_calls w) (trace w).

Definition tick_intent (w : World) : World :=
  mkWorld (generation_cache w) (generations w) (clock_reads w)
          (S (intent_calls w)) (api_calls w) (trace w).

Definition tick_api (w : World) : World :=
  mkWorld (generation_cache w) (generations w) (clock_reads w)
          (intent_calls w) (S (api_calls w)) (trace w).

(** Primary keys are assigned in insertion order, starting at 1. *)
Definition next_id (w : World) : Z := Z.of_nat (length (generations w)) + 1.
Definition row_of_id (id : Z) : nat := Z.to_nat (id - 1).

Definition handle (env : Env) (ev : event) (w : World) : reply ev * World :=
  match ev return reply ev * World with
  | UtcNow => (utcnow_at env (clock_reads w), tick_clock (log UtcNow w))
  | CacheLookup key =>
      (generation_cache w !! key, log (CacheLookup key) w)
  | CacheStore key entry =>
      (tt, set_cache (<[key := entry]> (generation_cache w))
                     (log (CacheStore key entry) w))
  | CacheDelete key =>
      (tt, set_cache (delete key (generation_cache w))
                     (log (CacheDelete key) w))
  | DbInsert g =>
      (next_id w, set_generations (generations w ++ [g]) (log (DbInsert g) w))
  | DbCommit id g =>
      (tt, set_generations (<[row_of_id id := g]> (generations w))
                           (log (DbCommit id g) w))
  | AnalyzeIntent user_input =>
      (analyze_intent_at env (intent_calls w) user_input,
       tick_intent (log (AnalyzeIntent user_input) w))
  | FiboApi args =>
      (fibo_api_at env (api_calls w) args, tick_api (log (FiboApi args) w))
  | Sleep seconds => (tt, log (Sleep seconds) w)
  end.

(** A handler run on its own: every await is answered at once. *)
Fixpoint run {A : Type} (env : Env) (p : prog A) (w : World)
  : (Exception + A) * World :=
  match p with
  | Ret a => (inr a, w)
  | Raise e => (inl e, w)
  | Vis ev k => let '(x, w') := handle env ev w in run env (k x) w'
  end.

(** ** Tasks: several handlers on one event loop *)

Inductive task_state (A : Type) : Type :=
| Pending (p : prog A)
| Finished (r : Exception + A).

Arguments Pending {A} p.
Arguments Finished {A} r.

(** One turn of a task on the event loop: its code runs without
    interruption up to and including its next awaited call, whose answer it
    will see when it is scheduled again. *)
Fixpoint resume {A : Type} (env : Env) (p : prog A) (w : World)
  : task_state A * World :=
  match p with
  | Ret a => (Finished (inr a), w)
  | Raise e => (Finished (inl e), w)
  | Vis ev k =>
      let '(x, w') := handle env ev w in
      if is_await ev then (Pending (k x), w') else resume env (k x) w'
  end.

Definition is_pending {A : Type} (t : task_state A) : bool :=
  match t with Pending _ => true | Finished _ => false end.

(** Positions of the tasks that have not finished yet. *)
Fixpoint pending_from {A : Type} (i : nat) (ts : list (task_state A))
  : list nat :=
  match ts with
  | [] => []
  | t :: ts' =>
      if is_pending t then i :: pending_from (S i) ts'
      else pending_from (S i) ts'
  end.

Definition resume_at {A : Type} (env : Env) (i : nat)
    (ts : list (task_state A)) (w : World) : list (task_state A) * World :=
  match ts !! i with
  | Some (Pending p) =>
      let '(t', w') := resume env p w in (<[i := t']> ts, w')
  | _ => (ts, w)
  end.

(** The event loop follows the schedule: each entry picks which of the
    unfinished tasks gets the next turn. *)
Fixpoint interleave {A : Type} (env : Env) (sched : list nat)
    (ts : list (task_state A)) (w : World) : list (task_state A) * World :=
  match sched with
  | [] => (ts, w)
  | choice :: sched' =>
      match pending_from 0 ts with
      | [] => (ts, w)
      | (i0 :: _) as ps =>
          let i := nth (choice mod length ps)%nat ps i0 in
          let '(ts', w') := resume_at env i ts w in
          interleave env sched' ts' w'
      end
  end.

(** When the schedule is used up, the tasks still unfinished run to their
    end in task order. *)
Fixpoint drain {A : Type} (env : Env) (ts : list (task_state A)) (w : World)
  : list (Exception + A) * World :=
  match ts with
  | [] => ([], w)
  | Finished r :: ts' =>
      let '(rs, w') := drain env ts' w in (r :: rs, w')
  | Pending p :: ts' =>
      let '(r, w1) := run env p w in
      let '(rs, w') := drain env ts' w1 in (r :: rs, w')
  end.

(** [asyncio.gather] with [return_exceptions=True]: every task is
    run to its end, an exception becomes that task's outcome, and the
    outcomes come back in task order. *)
Definition gather {A : Type} (env : Env) (sched : list nat)
    (tasks : list (prog A)) (w : World) : list (Exception + A) * World :=
  let '(ts, w1) := interleave env sched (Pending <$> tasks) w in
  drain env ts w1.

(** ** The router *)

Definition CACHE_TTL : Z := 3600 * 1000000.

(** [timedelta.total_seconds()] of a difference in microseconds. *)
Definition total_seconds (d : Z) : Q := inject_Z d / inject_Z 1000000.

Global Instance pyval_eq_dec : EqDecision pyval.
Proof. solve_decision. Defined.

(** [sum(1 for v in parameters.values() if v is not None)] *)
Definition param_count (parameters : gmap string pyval) : nat :=
  length (filter (λ v, v ≠ PyNone) (map_to_list parameters).*2).

Definition _calculate_quality_score
    (parameters : gmap string pyval) (result : GenerateResult) : Q :=
  let score := 0.5%Q in
  let score :=
    (score + Qmin (inject_Z (Z.of_nat (param_count parameters)) * 0.05) 0.3)%Q in
  let score :=
    if truthy_str (r_image_url result) then (score + 0.2)%Q else score in
  Qmin score 1.


(** Field validators of [GenerationRequest]: [if v and v not in [...]]. *)
Definition valid_choice (allowed : list string) (v : option string) : bool :=
  negb (truthy_str v && negb (bool_decide (default "" v ∈ allowed))).

Definition validate_mode (v : string) : bool :=
  bool_decide (v ∈ ["ai"; "manual"]).
Definition validate_camera_angle : option string → bool :=
  valid_choice ["eye-level"; "low-angle"; "high-angle"; "dutch-tilt";
                "bird's-eye"].
Definition validate_fov : option string → bool :=
  valid_choice ["wide"; "standard"; "telephoto"].
Definition validate_lighting : option string → bool :=
  valid_choice ["natural"; "studio"; "dramatic"; "golden-hour"; "soft"; "hard"].
Definition validate_color_palette : option string → bool :=
  valid_choice ["vibrant"; "pastel"; "monochrome"; "warm"; "cool"; "neon"].
Definition validate_composition : option string → bool :=
  valid_choice ["rule-of-thirds"; "centered"; "dynamic"; "minimal"].
Definition validate_style : option string → bool :=
  valid_choice ["photorealistic"; "cinematic"; "editorial"; "commercial"].

(** Whether pydantic accepts the body as a [GenerationRequest]. *)
Definition accepts_GenerationRequest (r : GenerationRequest) : bool :=
  bool_decide (3 ≤ String.length (prompt r) ≤ 2000)%nat
  && validate_mode (mode r)
  && validate_camera_angle (camera_angle r)
  && validate_fov (fov r)
  && validate_lighting (lighting r)
  && validate_color_palette (color_palette r)
  && validate_composition (composition r)
  && validate_style (style r)
  && bool_decide (0 ≤ max_retries r ≤ 5)%Z.

(** Whether pydantic accepts the body as a [BatchGenerationRequest]:
    [min_items=1], [max_items=50], every item a valid request. *)
Definition accepts_BatchGenerationRequest (b : BatchGenerationRequest) : bool :=
  bool_decide (1 ≤ length (requests b) ≤ 50)%nat
  && forallb accepts_GenerationRequest (requests b).

Section Router.

(** Library functions the router calls. *)
Variable md5_hexdigest : string → string.
Variable json_encode_str : string → string.
Variable str_HTTPException : Z → string → string.
Variable env : Env.

(** [str(e)] *)
Definition exc_str (e : Exception) : string :=
  match e with
  | PyError msg => msg
  | HTTPException status_code detail => str_HTTPException status_code detail
  end.

(** *** Fingerprint *)

Definition key_data (request : GenerationRequest)
  : list (string * option string) :=
  [ ("prompt", Some (prompt request));
    ("mode", Some (mode request));
    ("camera_angle", camera_angle request);
    ("fov", fov request);
    ("lighting", lighting request);
    ("color_palette", color_palette request);
    ("composition", composition request);
    ("style", style request) ].

Definition key_le (p q : string * option string) : Prop :=
  String.le p.1 q.1.

Global Instance key_le_dec : RelDecision key_le.
Proof. intros p q. unfold key_le. apply _. Defined.

Definition json_value (v : option string) : string :=
  match v with
  | Some s => json_encode_str s
  | None => "null"
  end.

Definition json_item (kv : string * option string) : string :=
  json_encode_str kv.1 +:+ ": " +:+ json_value kv.2.

(** [json.dumps(d, sort_keys=True)] of a dictionary given by its items in
    insertion order. *)
Definition json_dumps_sort_keys (d : list (string * option string))
  : string :=
  "{" +:+ String.concat ", " (json_item <$> merge_sort key_le d) +:+ "}".

Definition cache_key_of_items (d : list (string * option string)) : string :=
  md5_hexdigest (json_dumps_sort_keys d).

Definition _generate_cache_key (request : GenerationRequest) : string :=
  cache_key_of_items (key_data request).

(** *** Result cache *)

Definition _get_cached_result (cache_key : string)
  : prog (option ResponseData) :=
  hit ← trigger (CacheLookup cache_key);
  match hit with
  | Some cached =>
      now ← trigger UtcNow;
      if bool_decide (now - timestamp cached < CACHE_TTL)%Z
      then mret (Some (data cached))
      else trigger (CacheDelete cache_key);; mret None
  | None => mret None
  end.

Definition _cache_result (cache_key : string) (d : ResponseData)
  : prog unit :=
  now ← trigger UtcNow;
  trigger (CacheStore cache_key (mkCacheEntry d now)).

(** *** Collaborators *)

(** [fibo_agent.analyze_intent]: the parsed JSON answer, or the error of
    the call re-raised. *)
Definition analyze_intent (user_input : string) : prog IntentAnalysis :=
  r ← trigger (AnalyzeIntent user_input);
  match r with
  | inr analysis => mret analysis
  | inl e => Raise e
  end.

Definition parameters_of_args (args : GenerateArgs) : gmap string pyval :=
  list_to_map
    [ ("prompt", a_prompt args);
      ("camera_angle", a_camera_angle args);
      ("fov", a_fov args);
      ("lighting", a_lighting args);
      ("color_palette", a_color_palette args);
      ("composition", a_composition args);
      ("style", a_style args) ].

(** [fibo_integration.generate]: one upstream call; on success the image
    reference found in the answer and the parameters it was called with. *)
Definition fibo_generate (args : GenerateArgs) : prog GenerateResult :=
  r ← trigger (FiboApi args);
  match r with
  | inr image_url => mret (mkGenerateResult image_url (parameters_of_args args))
  | inl e => Raise e
  end.

(** *** Single generation *)

(** The retry loop of [generate_image], the same in both modes:
    [for attempt in range(max_retries + 1)] with the [break] on success.
    It yields [result] and [retry_count] as they stand after the loop. *)
Fixpoint generate_with_retry (args : GenerateArgs) (max_retries : Z)
    (attempts : list Z) (retry_count : Z)
  : prog (option GenerateResult * Z) :=
  match attempts with
  | [] => mret (None, retry_count)
  | attempt :: rest =>
      r ← try_catch (result ← fibo_generate args; mret (inr result))
                    (λ e, mret (inl e));
      match r with
      | inr result => mret (Some result, retry_count)
      | inl last_error =>
          let retry_count := attempt + 1 in
          if bool_decide (attempt < max_retries)%Z
          then
            let wait_time := 2 ^ attempt in
            trigger (Sleep wait_time);;
            generate_with_retry args max_retries rest retry_count
          else Raise last_error
      end
  end.

Definition new_generation (request : GenerationRequest) : Generation :=
  mkGeneration (user_id request) (project_id request) (prompt request)
               (mode request) None None None None "processing" None
               None None.

Definition with_created_at (g : Generation) (t : Z) : Generation :=
  mkGeneration (g_user_id g) (g_project_id g) (g_prompt g) (g_mode g)
               (g_parameters g) (g_result_url g) (g_quality_score g)
               (g_generation_time g) (g_status g) (g_error_message g)
               (Some t) (g_completed_at g).

Definition mark_completed (g : Generation) (result : GenerateResult)
    (generation_time quality_score : Q) (end_time : Z) : Generation :=
  mkGeneration (g_user_id g) (g_project_id g) (g_prompt g) (g_mode g)
               (Some (r_parameters result)) (r_image_url result)
               (Some quality_score) (Some generation_time) "completed"
               (g_error_message g) (g_created_at g) (Some end_time).

Definition mark_failed (g : Generation) (msg : string) : Generation :=
  mkGeneration (g_user_id g) (g_project_id g) (g_prompt g) (g_mode g)
               (g_parameters g) (g_result_url g) (g_quality_score g)
               (g_generation_time g) "failed" (Some msg)
               (g_created_at g) (g_completed_at g).

(** [db.add(generation); db.commit(); db.refresh(generation)]: the row is
    inserted, [created_at] taking its column default, and the object now
    carries its primary key. *)
Definition db_add_commit_refresh (g : Generation) : prog (Z * Generation) :=
  created_at ← trigger UtcNow;
  let g := with_created_at g created_at in
  id ← trigger (DbInsert g);
  mret (id, g).

Definition default_params (request : GenerationRequest)
  : gmap string pyval :=
  list_to_map
    [ ("prompt", PyStr (prompt request));
      ("camera_angle", PyStr "eye-level");
      ("fov", PyStr "standard");
      ("lighting", PyStr "studio");
      ("color_palette", PyStr "vibrant");
      ("composition", PyStr "rule-of-thirds");
      ("style", PyStr "photorealistic") ].

Definition default_reasoning : gmap string pyval :=
  {[ "note" := PyStr "Using optimized defaults (AI unavailable)" ]}.

Definition get_or_None (d : gmap string pyval) (k : string) : pyval :=
  default PyNone (d !! k).

Definition args_of_params (request : GenerationRequest)
    (params : gmap string pyval) : GenerateArgs :=
  mkGenerateArgs (default (PyStr (prompt request)) (params !! "prompt"))
                 (get_or_None params "camera_angle")
                 (get_or_None params "fov")
                 (get_or_None params "lighting")
                 (get_or_None params "color_palette")
                 (get_or_None params "composition")
                 (get_or_None params "style").

Definition args_of_request (request : GenerationRequest) : GenerateArgs :=
  mkGenerateArgs (PyStr (prompt request))
                 (of_optional_str (camera_angle request))
                 (of_optional_str (fov request))
                 (of_optional_str (lighting request))
                 (of_optional_str (color_palette request))
                 (of_optional_str (composition request))
                 (of_optional_str (style request)).

(** The mode-dependent middle of [generate_image]: parameters, then the
    upstream call under the retry loop. *)
Definition resolve_and_generate (request : GenerationRequest)
  : prog (option GenerateResult * Z * option (gmap string pyval)) :=
  if bool_decide (mode request = "ai") then
    '(params, reasoning) ←
      try_catch
        (intent_analysis ← analyze_intent (prompt request);
         mret (default ∅ (ia_parameters intent_analysis),
               default ∅ (ia_reasoning intent_analysis)))
        (λ _, mret (default_params request, default_reasoning));
    '(result, retry_count) ←
      generate_with_retry (args_of_params request params)
        (max_retries request) (seqZ 0 (max_retries request + 1)) 0;
    mret (result, retry_count, Some reasoning)
  else
    '(result, retry_count) ←
      generate_with_retry (args_of_request request)
        (max_retries request) (seqZ 0 (max_retries request + 1)) 0;
    mret (result, retry_count, None).

Definition http_500 (prefix : string) (e : Exception) : Exception :=
  HTTPException 500 (prefix +:+ exc_str e).

(** The part of the [try] block after the row exists. *)
Definition generate_image_body (request : GenerationRequest)
    (start_time : Z) (cache_key : string) (id : Z) (generation : Generation)
  : prog GenerationResponse :=
  '(result, retry_count, reasoning) ← resolve_and_generate request;
  end_time ← trigger UtcNow;
  let generation_time := total_seconds (end_time - start_time) in
  match result with
  | None => Raise (PyError "'NoneType' object has no attribute 'get'")
  | Some result =>
      let quality_score :=
        _calculate_quality_score (r_parameters result) result in
      trigger (DbCommit id (mark_completed generation result generation_time
                                           quality_score end_time));;
      let response_data :=
        mkResponseData id "completed" (r_image_url result)
                       (r_parameters result) (Some quality_score)
                       (Some generation_time) reasoning retry_count in
      (if use_cache request then _cache_result cache_key response_data
       else mret tt);;
      mret (mkGenerationResponse response_data false)
  end.

(** The part of the [try] block up to the point where [generation] is
    in scope: the cached response on a hit, else the locals the rest of
    the handler works with. *)
Definition begin_generation (request : GenerationRequest)
  : prog (GenerationResponse + Z * string * Z * Generation) :=
  start_time ← trigger UtcNow;
  let cache_key := _generate_cache_key request in
  cached_result ←
    (if use_cache request then _get_cached_result cache_key
     else mret None);
  match cached_result with
  | Some d => mret (inl (mkGenerationResponse d true))
  | None =>
      '(id, generation) ← db_add_commit_refresh (new_generation request);
      mret (inr (start_time, cache_key, id, generation))
  end.

(** [POST /]: the handler's single [try] is split where [generation]
    comes into scope, because its [except] clause marks the row failed
    only if the row exists. *)
Definition generate_image (request : GenerationRequest)
  : prog GenerationResponse :=
  early ←
    try_catch (begin_generation request)
              (λ e, Raise (http_500 "Generation failed: " e));
  match early with
  | inl response => mret response
  | inr (start_time, cache_key, id, generation) =>
      try_catch
        (generate_image_body request start_time cache_key id generation)
        (λ e,
           trigger (DbCommit id (mark_failed generation (exc_str e)));;
           Raise (http_500 "Generation failed: " e))
  end.

(** *** Batch generation *)

(** The locals [successful], [failed], [results], [errors] of
    [batch_generate_images]. *)
Record BatchAcc : Type := mkBatchAcc {
  acc_successful : Z;
  acc_failed : Z;
  acc_results : list (option GenerationResponse);
  acc_errors : list (option string)
}.

Definition empty_acc : BatchAcc := mkBatchAcc 0 0 [] [].

Definition record_success (acc : BatchAcc) (result : GenerationResponse)
  : BatchAcc :=
  mkBatchAcc (acc_successful acc + 1) (acc_failed acc)
             (acc_results acc ++ [Some result]) (acc_errors acc ++ [None]).

Definition record_failure (acc : BatchAcc) (error : option string)
  : BatchAcc :=
  mkBatchAcc (acc_successful acc) (acc_failed acc + 1)
             (acc_results acc ++ [None]) (acc_errors acc ++ [error]).

Definition failed_message (index : Z) (e : Exception) : string :=
  "Generation " +:+ pretty (index + 1) +:+ " failed: " +:+ exc_str e.

Definition process_single_generation (request : BatchGenerationRequest)
    (gen_request : GenerationRequest) (index : Z)
  : prog (Z * option GenerationResponse * option string) :=
  try_catch
    (result ← generate_image gen_request;
     mret (index, Some result, None))
    (λ e,
       let error_msg := failed_message index e in
       if negb (continue_on_error request) then Raise e
       else mret (index, None, Some error_msg)).

(** The loop over the outcomes [gather] returned. *)
Definition collect_item (acc : BatchAcc)
    (item : Exception + (Z * option GenerationResponse * option string))
  : BatchAcc :=
  match item with
  | inl e => record_failure acc (Some (exc_str e))
  | inr (index, Some result, error) => record_success acc result
  | inr (index, None, error) => record_failure acc error
  end.

(** The sequential loop over [enumerate(request.requests)]. *)
Fixpoint generate_sequentially (request : BatchGenerationRequest)
    (items : list (Z * GenerationRequest)) (acc : BatchAcc)
  : prog BatchAcc :=
  match items with
  | [] => mret acc
  | (i, gen_request) :: rest =>
      r ← try_catch (result ← generate_image gen_request; mret (inr result))
                    (λ e, mret (inl e));
      match r with
      | inr result =>
          generate_sequentially request rest (record_success acc result)
      | inl e =>
          let error_msg := failed_message i e in
          let acc := record_failure acc (Some error_msg) in
          if negb (continue_on_error request)
          then Raise (HTTPException 500 error_msg)
          else generate_sequentially request rest acc
      end
  end.

(** [enumerate(l)], counting from [i]. *)
Fixpoint enumerate_from {A : Type} (i : Z) (l : list A) : list (Z * A) :=
  match l with
  | [] => []
  | x :: l' => (i, x) :: enumerate_from (i + 1) l'
  end.

Definition enumerate {A : Type} (l : list A) : list (Z * A) :=
  enumerate_from 0 l.

Definition batch_response (request : BatchGenerationRequest)
    (acc : BatchAcc) : BatchGenerationResponse :=
  mkBatchGenerationResponse (Z.of_nat (length (requests request)))
                            (acc_successful acc) (acc_failed acc)
                            (acc_results acc) (acc_errors acc).

(** [POST /batch].  In parallel mode the tasks interleave as [sched]
    says; the sequential mode does not look at it. *)
Definition batch_generate_images (sched : list nat)
    (request : BatchGenerationRequest) (w : World)
  : (Exception + BatchGenerationResponse) * World :=
  if parallel request then
    let tasks :=
      (λ '(i, gen_request), process_single_generation request gen_request i)
        <$> enumerate (requests request) in
    let '(completed, w') := gather env sched tasks w in
    let acc := foldl collect_item empty_acc completed in
    (inr (batch_response request acc), w')
  else
    run env
      (try_catch
         (acc ← generate_sequentially request
                  (enumerate (requests request)) empty_acc;
          mret (batch_response request acc))
         (λ e, Raise (http_500 "Batch generation failed: " e)))
      w.

End Router.

(** *** Cache administration *)

(** The handlers below have no await: they run without interruption, and
    read and write the world directly.  The trace keeps recording the
    clock; clearing the cache has no event of its own. *)

(** The answer of [DELETE /cache]. *)
Record ClearCacheResponse : Type := mkClearCacheResponse {
  cc_status : string;
  cleared : Z;
  cc_message : string
}.

Definition clear_cache (w : World) : ClearCacheResponse * World :=
  let cache_size := Z.of_nat (size (generation_cache w)) in
  (mkClearCacheResponse
     "success" cache_size
     ("Cleared " +:+ pretty cache_size +:+ " cached generation(s)"),
   set_cache ∅ w).

(** The answer of [GET /cache/stats]. *)
Record CacheStats : Type := mkCacheStats {
  total_cached : Z;
  valid : Z;
  expired : Z;
  ttl_hours : Q
}.

Definition get_cache_stats (env : Env) (w : World) : CacheStats * World :=
  let total_cached := Z.of_nat (size (generation_cache w)) in
  let '(now, w1) := handle env UtcNow w in
  let expired :=
    Z.of_nat (length (filter (λ cached, CACHE_TTL ≤ now - timestamp cached)
                             (map_to_list (generation_cache w)).*2)) in
  let valid := total_cached - expired in
  (mkCacheStats total_cached valid expired (total_seconds CACHE_TTL / 3600),
   w1).

(** *** Reading generations back *)

(** The dictionary [get_generation] and [get_generation_history] build
    from a row. *)
Record GenerationDetail : Type := mkGenerationDetail {
  gd_id : Z;
  gd_prompt : string;
  gd_mode : string;
  gd_status : string;
  gd_result_url : option string;
  gd_parameters : option (gmap string pyval);
  gd_quality_score : option Q;
  gd_generation_time : option Q;
  gd_created_at : option Z;
  gd_completed_at : option Z;
  gd_error_message : option string
}.

Definition detail_of (row : Z * Generation) : GenerationDetail :=
  let '(id, generation) := row in
  mkGenerationDetail id (g_prompt generation) (g_mode generation)
                     (g_status generation) (g_result_url generation)
                     (g_parameters generation) (g_quality_score generation)
                     (g_generation_time generation)
                     (g_created_at generation) (g_completed_at generation)
                     (g_error_message generation).

(** The table with its primary keys: [db.query(Generation)]. *)
Definition query_Generation (w : World) : list (Z * Generation) :=
  enumerate_from 1 (generations w).

(** [GET /{generation_id}] *)
Definition get_generation (generation_id : Z) (w : World)
  : Exception + GenerationDetail :=
  let generation :=
    head (filter (λ row, row.1 = generation_id) (query_Generation w)) in
  match generation with
  | None => inl (HTTPException 404 "Generation not found")
  | Some generation => inr (detail_of generation)
  end.

(** Truthiness of an [Optional[int]]: [None] and [0] are falsy. *)
Definition truthy_int (o : option Z) : bool :=
  match o with
  | Some z => negb (bool_decide (z = 0))
  | None => false
  end.

(** [ORDER BY created_at DESC]: later rows first, rows without a date
    before all others; rows of equal date in any order the database
    likes, here the order the sort leaves them in. *)
Definition created_at_desc (p q : Z * Generation) : Prop :=
  match g_created_at p.2, g_created_at q.2 with
  | Some a, Some b => b ≤ a
  | None, _ => True
  | Some _, None => False
  end.

Global Instance created_at_desc_dec : RelDecision created_at_desc.
Proof.
  intros p q. unfold created_at_desc.
  destruct (g_created_at p.2), (g_created_at q.2); apply _.
Defined.

(** The answer of [GET /history]. *)
Record HistoryResponse : Type := mkHistoryResponse {
  h_total : Z;
  h_limit : Z;
  h_offset : Z;
  h_results : list GenerationDetail
}.

(** [GET /history].  The database turns down a negative [LIMIT] or
    [OFFSET]; what becomes of the request then is not modelled
    ([None]). *)
Definition get_generation_history (user_id : Z) (project_id : option Z)
    (limit offset : Z) (status : option string) (w : World)
  : option HistoryResponse :=
  let limit := Z.min limit 200 in
  let query :=
    filter (λ row, g_user_id row.2 = user_id) (query_Generation w) in
  let query :=
    if truthy_int project_id
    then filter (λ row, g_project_id row.2 = project_id) query
    else query in
  let query :=
    if truthy_str status
    then filter (λ row, Some (g_status row.2) = status) query
    else query in
  let query := merge_sort created_at_desc query in
  let total := Z.of_nat (length query) in
  if bool_decide (0 ≤ limit ∧ 0 ≤ offset) then
    let generations :=
      take (Z.to_nat limit) (drop (Z.to_nat offset) query) in
    Some (mkHistoryResponse total limit offset (detail_of <$> generations))
  else None.

(** *** Refinement *)

(** The answer of [POST /{generation_id}/refine]. *)
Record RefineResponse : Type := mkRefineResponse {
  rf_id : Z;
  rf_status : string;
  rf_image_url : option string;
  rf_parameters : option (gmap string pyval)
}.

Section Refinement.

Variable str_HTTPException : Z → string → string.
Variable env : Env.

(** The two awaited collaborators of the handler, by what it uses of
    their answers: of [fibo_agent.optimize_parameters] the entry
    ["parameters"], if the answer has one, and of
    [fibo_integration.refine] the entries ["image_url"] and
    ["parameters"]; either call can raise. *)
Variable optimize_parameters :
  option (gmap string pyval) → string → option Q
  → Exception + option (gmap string pyval).
Variable refine :
  option string → gmap string pyval
  → Exception + option string * option (gmap string pyval).

(** The row of the refined version and its insertion. *)
Definition insert_refined (generation : Generation)
    (refinement_prompt : string) (image_url : option string)
    (parameters : option (gmap string pyval)) : prog RefineResponse :=
  completed_at ← trigger UtcNow;
  let refined_generation :=
    mkGeneration (g_user_id generation) (g_project_id generation)
                 (g_prompt generation +:+ " (refined: "
                  +:+ refinement_prompt +:+ ")")
                 "ai" parameters image_url None None "completed" None
                 None (Some completed_at) in
  '(id, _) ← db_add_commit_refresh refined_generation;
  mret (mkRefineResponse id "completed" image_url parameters).

(** [POST /{generation_id}/refine].  The two checks come before the
    [try]; what is raised inside it becomes a 500. *)
Definition refine_generation (generation_id : Z) (refinement_prompt : string)
    (w : World) : (Exception + RefineResponse) * World :=
  let generation :=
    head (filter (λ row, row.1 = generation_id) (query_Generation w)) in
  match generation with
  | None => (inl (HTTPException 404 "Generation not found"), w)
  | Some (_, generation) =>
      if negb (truthy_str (g_result_url generation)) then
        (inl (HTTPException 400 "No image to refine"), w)
      else
        match optimize_parameters (g_parameters generation)
                refinement_prompt (g_quality_score generation) with
        | inl e =>
            (inl (http_500 str_HTTPException "Refinement failed: " e), w)
        | inr optimization =>
            match refine (g_result_url generation)
                         (default ∅ optimization) with
            | inl e =>
                (inl (http_500 str_HTTPException "Refinement failed: " e),
                 w)
            | inr (image_url, parameters) =>
                run env
                  (try_catch
                     (insert_refined generation refinement_prompt image_url
                                     parameters)
                     (λ e, Raise (http_500 str_HTTPException
                                    "Refinement failed: " e)))
                  w
            end
        end
  end.

End Refinement.

(** *** The integration layer (backend/fibo_integration.py) *)

(** The settings the integration layer reads (backend/config.py). *)
Record Settings : Type := mkSettings {
  HDR_ENABLED : bool;
  DEFAULT_COLOR_DEPTH : Z;
  DEFAULT_COLOR_SPACE : string;
  DEFAULT_QUALITY : Q;
  DEFAULT_IMAGE_WIDTH : Z;
  DEFAULT_IMAGE_HEIGHT : Z;
  MAX_BATCH_SIZE : Z
}.

(** The values of a request body: those of [pyval], and floats. *)
Inductive param_value : Type :=
| PVal (v : pyval)
| PFloat (q : Q).

Definition _enhance_parameters (settings : Settings)
    (params : gmap string param_value) : gmap string param_value :=
  let enhanced := params in
  let enhanced :=
    if HDR_ENABLED settings then
      <["color_space" := PVal (PyStr (DEFAULT_COLOR_SPACE settings))]>
        (<["color_depth" := PVal (PyInt (DEFAULT_COLOR_DEPTH settings))]>
           (<["hdr" := PVal (PyBool true)]> enhanced))
    else enhanced in
  let enhanced := <["quality" := PFloat (DEFAULT_QUALITY settings)]> enhanced in
  let enhanced :=
    match enhanced !! "width" with
    | None =>
        <["width" := PVal (PyInt (DEFAULT_IMAGE_WIDTH settings))]> enhanced
    | Some _ => enhanced
    end in
  let enhanced :=
    match enhanced !! "height" with
    | None =>
        <["height" := PVal (PyInt (DEFAULT_IMAGE_HEIGHT settings))]> enhanced
    | Some _ => enhanced
    end in
  enhanced.

(** The body [refine] posts: [{"image_url": image_url,
    **refinement_params}], enhanced. *)
Definition refine_params (settings : Settings) (image_url : string)
    (refinement_params : gmap string param_value)
  : gmap string param_value :=
  let params := refinement_params ∪ {[ "image_url" := PVal (PyStr image_url) ]} in
  _enhance_parameters settings params.

(** An entry of the list [batch_generate] returns: the result of the
    call, or the record of its failure. *)
Inductive BatchItem : Type :=
| ItemResult (result : GenerateResult)
| ItemFailed (error : string) (request : GenerateArgs).

Section Integration.

Variable str_HTTPException : Z → string → string.
Variable settings : Settings.

(** The loop of [batch_generate] over the requests still to do. *)
Fixpoint batch_generate_loop (requests : list GenerateArgs)
    (results : list BatchItem) : prog (list BatchItem) :=
  match requests with
  | [] => mret results
  | request :: rest =>
      item ←
        try_catch (result ← fibo_generate request; mret (ItemResult result))
                  (λ e, mret (ItemFailed (exc_str str_HTTPException e)
                                         request));
      batch_generate_loop rest (results ++ [item])
  end.

(** [fibo_integration.batch_generate], on requests that name the
    keyword arguments of [generate]. *)
Definition batch_generate (requests : list GenerateArgs)
  : prog (list BatchItem) :=
  if bool_decide (MAX_BATCH_SIZE settings < Z.of_nat (length requests)) then
    Raise (PyError ("Batch size exceeds maximum of "
                    +:+ pretty (MAX_BATCH_SIZE settings)))
  else batch_generate_loop requests [].

End Integration.

(** [get_parameter_options]: the dictionary, by its items. *)
Definition get_parameter_options : list (string * list string) :=
  [ ("camera_angle",
     ["eye-level"; "low-angle"; "high-angle"; "dutch-tilt"; "bird's-eye";
      "worm's-eye"; "over-the-shoulder"]);
    ("fov", ["wide"; "standard"; "telephoto"; "ultra-wide"; "macro"]);
    ("lighting",
     ["natural"; "studio"; "dramatic"; "golden-hour"; "soft"; "hard"; "rim";
      "backlit"; "three-point"]);
    ("color_palette",
     ["vibrant"; "pastel"; "monochrome"; "warm"; "cool"; "neon";
      "earth-tones"; "jewel-tones"]);
    ("composition",
     ["rule-of-thirds"; "centered"; "dynamic"; "minimal"; "symmetrical";
      "leading-lines"; "frame-within-frame"]);
    ("style",
     ["photorealistic"; "cinematic"; "editorial"; "commercial"; "artistic";
      "documentary"; "fashion"; "product"]) ].

(** The answer of [GET /parameters]. *)
Record ParametersResponse : Type := mkParametersResponse {
  parameters : list (string * list string);
  modes : list string;
  description : string
}.

Definition get_parameters : ParametersResponse :=
  mkParametersResponse
    get_parameter_options ["ai"; "manual"]
    "Use 'ai' mode for automatic parameter selection or 'manual' for explicit control".

(** *** Rate limiting (backend/middleware/rate_limit.py) *)

Global Instance Qlt_decision (x y : Q) : Decision (x < y)%Q :=
  match Qlt_le_dec x y with
  | left H => left H
  | right H => right (Qle_not_lt _ _ H)
  end.

(** The middleware object: the times of the requests it let through, per
    client, and the limit per minute. *)
Record RateLimitMiddleware : Type := mkRateLimitMiddleware {
  rl_requests : gmap string (list Q);
  rl_limit : nat
}.

(** [__init__] *)
Definition RateLimitMiddleware_init : RateLimitMiddleware :=
  mkRateLimitMiddleware ∅ 60.

(** What [dispatch] does with the request: answer it itself, or hand it
    to the application. *)
Inductive Dispatched : Type :=
| JSONResponse (status_code : Z) (error : string)
| call_next.

(** [dispatch] up to its await; [now] is the reading of [time.time()]. *)
Definition dispatch (self : RateLimitMiddleware) (client_ip : string)
    (now : Q) : Dispatched * RateLimitMiddleware :=
  let recent :=
    filter (λ req_time, (now - req_time < 60)%Q)
           (default [] (rl_requests self !! client_ip)) in
  let self :=
    mkRateLimitMiddleware (<[client_ip := recent]> (rl_requests self))
                          (rl_limit self) in
  if bool_decide (rl_limit self ≤ length recent)%nat then
    (JSONResponse 429 "Rate limit exceeded", self)
  else
    (call_next,
     mkRateLimitMiddleware
       (<[client_ip := recent ++ [now]]> (rl_requests self))
       (rl_limit self)).


(** * Vocabulary of the properties *)




(** The world after a stretch of upstream traffic: [n] more API calls and
    the events [tr] at the end of the trace. *)
Definition after_upstream (w : World) (n : nat) (tr : list event) : World :=
  mkWorld (generation_cache w) (generations w) (clock_reads w)
          (intent_calls w) (api_calls w + n)%nat (trace w ++ tr).

(** [k] failed attempts starting at attempt number [attempt], each followed
    by its backoff sleep. *)
Fixpoint backoff_trace (args : GenerateArgs) (attempt : Z) (k : nat)
  : list event :=
  match k with
  | O => []
  | S k' =>
      FiboApi args :: Sleep (2 ^ attempt)
        :: backoff_trace args (attempt + 1) k'
  end.

(** What the cache check finds and leaves behind: the pure reading of
    [_get_cached_result]. *)
Definition cache_check (env : Env) (key : string) (w : World)
  : option ResponseData * World :=
  match generation_cache w !! key with
  | Some cached =>
      let w1 := tick_clock (log UtcNow (log (CacheLookup key) w)) in
      if bool_decide (utcnow_at env (clock_reads w) - timestamp cached
                      < CACHE_TTL)
      then (Some (data cached), w1)
      else (None, set_cache (delete key (generation_cache w))
                            (log (CacheDelete key) w1))
  | None => (None, log (CacheLookup key) w)
  end.

(** The parameters and the reasoning [generate_image] works with when the
    resolver is asked for the [n]-th time. *)
Definition resolve (env : Env) (request : GenerationRequest) (n : nat)
  : GenerateArgs * option (gmap string pyval) :=
  if bool_decide (mode request = "ai") then
    match analyze_intent_at env n (prompt request) with
    | inr analysis =>
        (args_of_params request (default ∅ (ia_parameters analysis)),
         Some (default ∅ (ia_reasoning analysis)))
    | inl _ =>
        (args_of_params request (default_params request),
         Some default_reasoning)
    end
  else (args_of_request request, None).

Definition after_resolve (request : GenerationRequest) (w : World) : World :=
  if bool_decide (mode request = "ai")
  then tick_intent (log (AnalyzeIntent (prompt request)) w)
  else w.

(** The upstream traffic in a trace: the API calls and the backoff sleeps. *)
Definition is_upstream (ev : event) : bool :=
  match ev with
  | FiboApi _ | Sleep _ => true
  | _ => false
  end.

Definition upstream_events (tr : list event) : list event :=
  List.filter is_upstream tr.

Definition is_db (ev : event) : bool :=
  match ev with
  | DbInsert _ | DbCommit _ _ => true
  | _ => false
  end.

Definition is_store (ev : event) : bool :=
  match ev with
  | CacheStore _ _ => true
  | _ => false
  end.

(** The [response_data] of a completed generation. *)
Definition completed_response (id : Z) (result : GenerateResult)
    (retry_count : Z) (reasoning : option (gmap string pyval))
    (start_time end_time : Z) : ResponseData :=
  mkResponseData id "completed" (r_image_url result) (r_parameters result)
    (Some (_calculate_quality_score (r_parameters result) result))
    (Some (total_seconds (end_time - start_time))) reasoning retry_count.

Definition completed_row (generation : Generation) (result : GenerateResult)
    (start_time end_time : Z) : Generation :=
  mark_completed generation result (total_seconds (end_time - start_time))
    (_calculate_quality_score (r_parameters result) result) end_time.

Definition commit (id : Z) (g : Generation) (w : World) : World :=
  set_generations (<[row_of_id id := g]> (generations w))
                  (log (DbCommit id g) w).

Definition quiet (ev : event) : Prop :=
  is_await ev = false ∧ is_db ev = false ∧ is_store ev = false.

(** [always G R Q p]: along every path of [p] on which the replies satisfy
    [R], every effect satisfies [G] and every returned value [Q]. *)
Fixpoint always {A : Type} (G : event → Prop) (R : ∀ ev, reply ev → Prop)
    (Q : A → Prop) (p : prog A) : Prop :=
  match p with
  | Ret a => Q a
  | Raise _ => True
  | Vis ev k => G ev ∧ ∀ x, R ev x → always G R Q (k x)
  end.

Definition completed_payload (d : ResponseData) : Prop :=
  rd_status d = "completed"
  ∧ is_Some (rd_quality_score d)
  ∧ 0 ≤ rd_retry_count d.

Definition store_ok (ev : event) : Prop :=
  match ev with
  | CacheStore _ entry => completed_payload (data entry)
  | _ => True
  end.

Definition lookup_ok (ev : event) : reply ev → Prop :=
  match ev return reply ev → Prop with
  | CacheLookup _ => λ hit, ∀ entry, hit = Some entry →
                                      completed_payload (data entry)
  | _ => λ _, True
  end.

Definition cache_ok (w : World) : Prop :=
  map_Forall (λ _ entry, completed_payload (data entry)) (generation_cache w).


(** What one gathered outcome adds to [results] and to [errors]. *)
Definition item_result
    (item : Exception + Z * option GenerationResponse * option string)
  : option GenerationResponse :=
  match item with
  | inr (_, Some result, _) => Some result
  | _ => None
  end.

Definition count_successes
    (items : list (Exception + Z * option GenerationResponse
                                 * option string)) : nat :=
  length (filter (λ item, is_Some (item_result item)) items).

(** The requests run one after the other, each to its end: the outcomes
    and the world left behind. *)
Fixpoint run_each {A : Type} (env : Env) (ps : list (prog A)) (w : World)
  : list (Exception + A) * World :=
  match ps with
  | [] => ([], w)
  | p :: ps' =>
      let '(r, w1) := run env p w in
      let '(rs, w') := run_each env ps' w1 in
      (r :: rs, w')
  end.

(** A task on the event loop is as safe as the program it still has to
    run, or as the value it returned. *)
Definition task_always {A : Type} (G : event → Prop)
    (R : ∀ ev, reply ev → Prop) (Q : A → Prop) (t : task_state A) : Prop :=
  match t with
  | Pending p => always G R Q p
  | Finished (inr a) => Q a
  | Finished (inl _) => True
  end.


(** ** Vocabulary of the further properties *)

(** The cache traffic in a trace. *)
Definition is_cache (ev : event) : bool :=
  match ev with
  | CacheLookup _ | CacheStore _ _ | CacheDelete _ => true
  | _ => false
  end.

(** The seconds spent in backoff sleeps along a trace. *)
Definition slept (tr : list event) : Z :=
  foldr (λ ev acc, match ev with Sleep seconds => seconds + acc | _ => acc end)
        0 tr.

(** The most the retry loop can sleep over the attempts it still has. *)
Definition backoff_budget (max_retries : Z) (attempts : list Z) : Z :=
  foldr (λ attempt acc,
           (if bool_decide (attempt < max_retries) then 2 ^ attempt else 0)
           + acc)
        0 attempts.

(** What the retry loop may send upstream: calls with [args], and sleeps. *)
Definition upstream_of (args : GenerateArgs) (ev : event) : Prop :=
  match ev with
  | FiboApi a => a = args
  | Sleep seconds => 0 ≤ seconds
  | _ => False
  end.


(** The arguments the upstream is called with when the resolver is not
    available: the prompt as given and the six defaults. *)
Definition default_args (request : GenerationRequest) : GenerateArgs :=
  mkGenerateArgs (PyStr (prompt request)) (PyStr "eye-level")
                 (PyStr "standard") (PyStr "studio") (PyStr "vibrant")
                 (PyStr "rule-of-thirds") (PyStr "photorealistic").

(** The row belongs to the request: it carries its user, project, prompt
    and mode. *)
Definition created_by (request : GenerationRequest) (g : Generation) : Prop :=
  g_user_id g = user_id request
  ∧ g_project_id g = project_id request
  ∧ g_prompt g = prompt request
  ∧ g_mode g = mode request.

(** The three shapes a stored row can have: in flight, completed with its
    result, or failed with its error. *)
Definition row_ok (g : Generation) : Prop :=
  is_Some (g_created_at g)
  ∧ ((g_status g = "processing"
      ∧ g_result_url g = None ∧ g_quality_score g = None
      ∧ g_error_message g = None ∧ g_completed_at g = None)
     ∨ (g_status g = "completed"
        ∧ is_Some (g_parameters g) ∧ is_Some (g_quality_score g)
        ∧ is_Some (g_generation_time g) ∧ is_Some (g_completed_at g)
        ∧ g_error_message g = None)
     ∨ (g_status g = "failed"
        ∧ is_Some (g_error_message g)
        ∧ g_result_url g = None ∧ g_quality_score g = None
        ∧ g_completed_at g = None)).

(** No constraint on what the collaborators answer. *)
Definition any_reply (ev : event) (x : reply ev) : Prop := True.

(** What a run of the handler contributes to [results]. *)
Definition result_of (r : Exception + GenerationResponse)
  : option GenerationResponse :=
  match r with
  | inr response => Some response
  | inl _ => None
  end.

(** *** Vocabulary of the code beyond the generation handlers *)

(** The row passes the filters of a history query. *)
Definition matches (user_id : Z) (project_id : option Z)
    (status : option string) (g : Generation) : Prop :=
  g_user_id g = user_id
  ∧ (truthy_int project_id = true → g_project_id g = project_id)
  ∧ (truthy_str status = true → Some (g_status g) = status).

Global Instance matches_dec user_id project_id status g :
  Decision (matches user_id project_id status g).
Proof. unfold matches. apply _. Defined.

(** [ORDER BY created_at DESC], read off the answer. *)
Definition newer_first (d1 d2 : GenerationDetail) : Prop :=
  match gd_created_at d1, gd_created_at d2 with
  | Some a, Some b => b ≤ a
  | None, _ => True
  | Some _, None => False
  end.


(** The keys [_enhance_parameters] may write. *)
Definition ENHANCED_KEYS : list string :=
  ["hdr"; "color_depth"; "color_space"; "quality"; "width"; "height"].


(** The validator of each optional field of [GenerationRequest]. *)
Definition field_validators : list (string * (option string → bool)) :=
  [ ("camera_angle", validate_camera_angle);
    ("fov", validate_fov);
    ("lighting", validate_lighting);
    ("color_palette", validate_color_palette);
    ("composition", validate_composition);
    ("style", validate_style) ].

(** What [batch_generate] records for a request whose call is the
    [n]-th the upstream receives. *)
Definition item_of (str_HTTPException : Z → string → string) (env : Env)
    (n : nat) (request : GenerateArgs) : BatchItem :=
  match fibo_api_at env n request with
  | inr image_url =>
      ItemResult (mkGenerateResult image_url (parameters_of_args request))
  | inl e => ItemFailed (exc_str str_HTTPException e) request
  end.


Global Instance Qle_decision (x y : Q) : Decision (x <= y)%Q :=
  match Qlt_le_dec y x with
  | left H => right (Qlt_not_le _ _ H)
  | right H => left H
  end.

(** The limiter serving the requests in the order they arrive. *)
Fixpoint serve (self : RateLimitMiddleware) (arrivals : list (string * Q))
  : list Dispatched * RateLimitMiddleware :=
  match arrivals with
  | [] => ([], self)
  | (client_ip, now) :: rest =>
      let '(d, self) := dispatch self client_ip now in
      let '(ds, self) := serve self rest in
      (d :: ds, self)
  end.



(** The answers the requests of [client_ip] got. *)
Fixpoint answers_to (client_ip : string) (arrivals : list (string * Q))
    (decisions : list Dispatched) : list Dispatched :=
  match arrivals, decisions with
  | (ip, _) :: arrivals', d :: decisions' =>
      if bool_decide (ip = client_ip)
      then d :: answers_to client_ip arrivals' decisions'
      else answers_to client_ip arrivals' decisions'
  | _, _ => []
  end.



Definition in_window (T : Q) (t : Q) : Prop := (T - 60 < t)%Q ∧ (t <= T)%Q.

Global Instance in_window_dec T t : Decision (in_window T t).
Proof. unfold in_window. apply _. Defined.




(** *** Upstream budgets *)

Definition is_api (ev : event) : bool :=
  match ev with
  | FiboApi _ => true
  | _ => false
  end.

(** [calls_le n p]: on no path does [p] call the upstream more than [n]
    times. *)
Fixpoint calls_le {A : Type} (n : nat) (p : prog A) : Prop :=
  match p with
  | Ret _ | Raise _ => True
  | Vis ev k =>
      (is_api ev = true → (0 < n)%nat)
      ∧ ∀ x, calls_le (if is_api ev then pred n else n) (k x)
  end.

(** The same of a task on the event loop. *)
Definition task_calls_le {A : Type} (n : nat) (t : task_state A) : Prop :=
  match t with
  | Pending p => calls_le n p
  | Finished _ => True
  end.

(** The upstream calls a request may cost: one per attempt. *)
Definition call_budget (request : GenerationRequest) : nat :=
  Z.to_nat (max_retries request + 1).

(** The two requests differ at most in the six optional parameters. *)
Definition same_but_parameters (r1 r2 : GenerationRequest) : Prop :=
  prompt r1 = prompt r2 ∧ mode r1 = mode r2
  ∧ project_id r1 = project_id r2 ∧ user_id r1 = user_id r2
  ∧ use_cache r1 = use_cache r2 ∧ max_retries r1 = max_retries r2.

(** Every entry of the cache repeats a row of the table: the row with
    the entry's id is [completed] and has the entry's image and score. *)
Definition cache_backed (w : World) : Prop :=
  ∀ key entry,
    generation_cache w !! key = Some entry →
    1 ≤ rd_id (data entry)
    ∧ ∃ g, generations w !! row_of_id (rd_id (data entry)) = Some g
           ∧ g_status g = "completed"
           ∧ g_result_url g = rd_image_url (data entry)
           ∧ g_quality_score g = rd_quality_score (data entry).

(** ** Inputs of the worked examples *)

(** Stand-ins for the library functions: any functions will do, the
    theorems hold for all of them. *)
Definition example_md5 (s : string) : string := "md5:" +:+ s.
Definition example_json_str (s : string) : string := "'" +:+ s +:+ "'".
Definition example_str_http (status_code : Z) (detail : string) : string :=
  pretty status_code +:+ ": " +:+ detail.

(** A clock that advances one second per reading, a resolver that is
    down, and an upstream that fails its first two calls and then returns
    an image. *)
Definition flaky_env : Env :=
  mkEnv (λ n, Z.of_nat n * 1000000)
        (λ _ _, inl (PyError "quota exceeded"))
        (λ n _, if (n <? 2)%nat then inl (PyError "upstream down")
                else inr (Some "https://img/1.png")).

(** An upstream that answers the first call only, and a second one that
    never answers. *)
Definition once_env : Env :=
  mkEnv (λ n, Z.of_nat n * 1000000)
        (λ _ _, inl (PyError "quota exceeded"))
        (λ n _, if (n <? 1)%nat then inr (Some "https://img/1.png")
                else inl (PyError "upstream down")).

Definition down_env : Env :=
  mkEnv (λ n, Z.of_nat n * 1000000)
        (λ _ _, inl (PyError "quota exceeded"))
        (λ _ _, inl (PyError "upstream down")).


Definition fresh_world : World := mkWorld ∅ [] 0 0 0 [].

Definition watch_request (retries : Z) (cache : bool) : GenerationRequest :=
  mkGenerationRequest "A luxury watch" "manual" (Some "eye-level") None
                      (Some "studio") None None None None 1 cache retries.

Definition example_batch (par coe : bool) : BatchGenerationRequest :=
  mkBatchGenerationRequest
    [watch_request 0 false; watch_request 0 false; watch_request 0 false]
    par coe.

Definition example_payload : ResponseData :=
  mkResponseData 1 "completed" (Some "https://img/1.png") ∅ (Some 0.7%Q)
                 (Some 2%Q) None 0.


Definition cached_world : World :=
  mkWorld
    {[ _generate_cache_key example_md5 example_json_str
         (watch_request 0 true)
       := mkCacheEntry example_payload 0 ]}
    [] 0 0 0 [].

(** ** Inputs of the further examples *)

(** A request in AI mode. *)
Definition portrait_request : GenerationRequest :=
  mkGenerationRequest "A portrait" "ai" None None None None None None None
                      1 false 2.

(** A table with the rows of two users. *)
Definition history_world : World :=
  mkWorld ∅
    [ mkGeneration 1 None "a watch" "manual" None None None None
                   "completed" None (Some 10) (Some 12);
      mkGeneration 2 None "a shoe" "manual" None None None None
                   "failed" (Some "upstream down") (Some 20) None;
      mkGeneration 1 (Some 7) "a ring" "ai" None None None None
                   "completed" None (Some 30) (Some 31) ]
    0 0 0 [].

(** The settings as backend/config.py defaults them. *)
Definition default_settings : Settings :=
  mkSettings true 16 "rec2020" 0.95%Q 1024 1024 50.

Definition plain_args (prompt : string) : GenerateArgs :=
  mkGenerateArgs (PyStr prompt) PyNone PyNone PyNone PyNone PyNone PyNone.



(** An optimizer with nothing to suggest and a refinement call that
    returns a new image. *)
Definition example_optimize (parameters : option (gmap string pyval))
    (feedback : string) (quality_score : option Q)
  : Exception + option (gmap string pyval) :=
  inr None.

Definition example_refine (image_url : option string)
    (refinement_params : gmap string pyval)
  : Exception + option string * option (gmap string pyval) :=
  inr (Some "https://img/2.png", Some refinement_params).

(** The same request with explicit parameters, which AI mode does not
    look at. *)
Definition styled_portrait_request : GenerationRequest :=
  mkGenerationRequest "A portrait" "ai" (Some "low-angle") (Some "wide")
                      (Some "dramatic") None None (Some "cinematic") None
                      1 false 2.

(** * Properties *)

Section Properties.

Variable md5_hexdigest : string → string.
Variable json_encode_str : string → string.
Variable str_HTTPException : Z → string → string.
Variable env : Env.

Local Notation "'cache_key'" :=
  (_generate_cache_key md5_hexdigest json_encode_str).
Local Notation "'gen_image'" :=
  (generate_image md5_hexdigest json_encode_str str_HTTPException).
Local Notation "'str'" := (exc_str str_HTTPException).
Local Notation "'failed_msg'" := (failed_message str_HTTPException).
Local Notation "'collect'" := (collect_item str_HTTPException).
Local Notation "'single'" :=
  (process_single_generation md5_hexdigest json_encode_str
     str_HTTPException).
Local Notation "'sequentially'" :=
  (generate_sequentially md5_hexdigest json_encode_str str_HTTPException).
Local Notation "'batch_images'" :=
  (batch_generate_images md5_hexdigest json_encode_str str_HTTPException env).
Local Notation "'safe'" := (always store_ok lookup_ok).

(** ** Vocabulary that depends on the collaborators *)

(** The cached payload the request is answered with, if any. *)
Definition cache_hit (request : GenerationRequest) (w : World)
  : option ResponseData :=
  if use_cache request
  then (cache_check env (cache_key request) (tick_clock (log UtcNow w))).1
  else None.

(** The world once the cache has been consulted. *)
Definition after_cache_check (request : GenerationRequest) (w : World)
  : World :=
  if use_cache request
  then (cache_check env (cache_key request) (tick_clock (log UtcNow w))).2
  else tick_clock (log UtcNow w).

(** The row as it is inserted. *)
Definition created_row (request : GenerationRequest) (w : World)
  : Generation :=
  with_created_at (new_generation request)
    (utcnow_at env (clock_reads (after_cache_check request w))).

Definition after_insert (request : GenerationRequest) (w : World) : World :=
  let w2 := after_cache_check request w in
  set_generations (generations w2 ++ [created_row request w])
    (log (DbInsert (created_row request w)) (tick_clock (log UtcNow w2))).

(** The world after the success path, from the world [w] the retry loop
    left. *)
Definition after_success (request : GenerationRequest) (key : string)
    (id : Z) (generation : Generation) (result : GenerateResult)
    (retry_count : Z) (reasoning : option (gmap string pyval))
    (start_time : Z) (w : World) : World :=
  let end_time := utcnow_at env (clock_reads w) in
  let w1 :=
    commit id (completed_row generation result start_time end_time)
           (tick_clock (log UtcNow w)) in
  if use_cache request
  then (run env (_cache_result key
                   (completed_response id result retry_count reasoning
                      start_time end_time)) w1).2
  else w1.

(** The world in which the retry loop of a request that missed the cache
    starts. *)
Definition at_loop_start (request : GenerationRequest) (w : World) : World :=
  after_resolve request (after_insert request w).

(** The row [g] is a terminal state that matches how the handler ended. *)
Definition terminal_for (outcome : Exception + GenerationResponse)
    (g : Generation) : Prop :=
  match outcome with
  | inr response =>
      cached response = false
      ∧ g_status g = "completed"
      ∧ is_Some (g_quality_score g)
      ∧ g_quality_score g = rd_quality_score (resp_data response)
      ∧ g_result_url g = rd_image_url (resp_data response)
      ∧ g_error_message g = None
  | inl e =>
      g_status g = "failed"
      ∧ ∃ cause,
          e = http_500 str_HTTPException "Generation failed: " cause
          ∧ g_error_message g = Some (str cause)
  end.

(** What one gathered outcome adds to [errors]. *)
Definition item_error
    (item : Exception + Z * option GenerationResponse * option string)
  : option string :=
  match item with
  | inl e => Some (str e)
  | inr (_, Some _, _) => None
  | inr (_, None, error) => error
  end.

(** ** Running programs: equations *)

Section RunFacts.

Context {A B : Type}.

Lemma run_bind (p : prog A) (f : A → prog B) (w : World) :
  run env (p ≫= f) w =
  match run env p w with
  | (inr a, w') => run env (f a) w'
  | (inl e, w') => (inl e, w')
  end.
Proof.
  revert w. induction p as [a|e|ev k IH]; intros w; try reflexivity.
  change (run env (Vis ev k ≫= f) w)
    with (let '(x, w') := handle env ev w in run env (k x ≫= f) w').
  simpl. destruct (handle env ev w) as [x w']. apply IH.
Qed.

Lemma run_try_catch (p : prog A) (h : Exception → prog A) (w : World) :
  run env (try_catch p h) w =
  match run env p w with
  | (inr a, w') => (inr a, w')
  | (inl e, w') => run env (h e) w'
  end.
Proof.
  revert w. induction p as [a|e|ev k IH]; intros w; try reflexivity.
  simpl. destruct (handle env ev w) as [x w']. apply IH.
Qed.

End RunFacts.

Lemma run_trigger (ev : event) (w : World) :
  run env (trigger ev) w = ((inr (handle env ev w).1), (handle env ev w).2).
Proof. unfold trigger. simpl. by destruct (handle env ev w). Qed.

(** Every effect only appends to the trace. *)
Lemma handle_trace (ev : event) (w : World) :
  trace (handle env ev w).2 = trace w ++ [ev].
Proof. by destruct ev. Qed.

(** ** Quality score *)


(** Closes a goal whose hypothesis [H] is a disjunction of equations between
    distinct constants. *)
Ltac tauto_eq :=
  repeat match goal with
         | H : _ ∨ _ |- _ => destruct H as [H|H]
         | H : False |- _ => destruct H
         | H : _ = _ |- _ => discriminate H
         end.









(** ** Fingerprint *)

Global Instance key_le_trans : Transitive key_le.
Proof. intros p q r. unfold key_le. apply transitivity. Qed.

Global Instance key_le_total : Total key_le.
Proof. intros p q. unfold key_le. apply String.le_total. Qed.

(** In a dictionary a key has one value. *)
Lemma NoDup_fst_functional {V : Type} (l : list (string * V)) k v1 v2 :
  NoDup l.*1 → (k, v1) ∈ l → (k, v2) ∈ l → v1 = v2.
Proof.
  induction l as [|[k' v'] l IH]; intros Hnd H1 H2.
  - by apply elem_of_nil in H1.
  - rewrite fmap_cons in Hnd. apply NoDup_cons in Hnd as [Hk' Hnd].
    apply elem_of_cons in H1 as [H1|H1]; apply elem_of_cons in H2 as [H2|H2].
    + congruence.
    + injection H1 as -> ->. destruct Hk'.
      apply list_elem_of_fmap. by exists (k', v2).
    + injection H2 as -> ->. destruct Hk'.
      apply list_elem_of_fmap. by exists (k', v1).
    + by apply IH.
Qed.

(** Sorting by key forgets the insertion order of a dictionary. *)
Lemma merge_sort_key_le_Permutation (d1 d2 : list (string * option string)) :
  NoDup d1.*1 → d1 ≡ₚ d2 → merge_sort key_le d1 = merge_sort key_le d2.
Proof.
  intros Hnd Hperm.
  apply (Sorted_unique_strong key_le).
  - intros [k1 v1] [k2 v2] H1 H2 Hle1 Hle2.
    rewrite merge_sort_Permutation in H1.
    rewrite merge_sort_Permutation, <-Hperm in H2.
    unfold key_le in Hle1, Hle2. simpl in Hle1, Hle2.
    assert (k1 = k2) as -> by (by apply (anti_symm String.le)).
    f_equal. by eapply NoDup_fst_functional.
  - apply Sorted_merge_sort, _.
  - apply Sorted_merge_sort, _.
  - by rewrite !merge_sort_Permutation.
Qed.

Lemma key_data_NoDup (request : GenerationRequest) :
  NoDup (key_data request).*1.
Proof.
  unfold key_data. rewrite !fmap_cons, fmap_nil. simpl.
  repeat (apply NoDup_cons; split;
          [rewrite ?elem_of_cons, elem_of_nil; intros H; tauto_eq|]).
  apply NoDup_nil_2.
Qed.

(** C5. The cache key is a function of the prompt, the mode and the six
    optional parameters only.  Two requests that agree on these eight
    fields get the same key whatever their cache flag, retry budget,
    user and project are, and whatever order the eight items of the
    dictionary being dumped were inserted in. *)
Theorem cache_key_deterministic
    (r1 r2 : GenerationRequest) (items : list (string * option string)) :
  prompt r1 = prompt r2 →
  mode r1 = mode r2 →
  camera_angle r1 = camera_angle r2 →
  fov r1 = fov r2 →
  lighting r1 = lighting r2 →
  color_palette r1 = color_palette r2 →
  composition r1 = composition r2 →
  style r1 = style r2 →
  items ≡ₚ key_data r2 →
  cache_key_of_items md5_hexdigest json_encode_str items
  = _generate_cache_key md5_hexdigest json_encode_str r1
  ∧ _generate_cache_key md5_hexdigest json_encode_str r1
    = _generate_cache_key md5_hexdigest json_encode_str r2.
Proof.
  intros Hp Hm Hca Hf Hl Hcp Hco Hs Hperm.
  assert (Hkd : key_data r1 = key_data r2).
  { unfold key_data. by rewrite Hp, Hm, Hca, Hf, Hl, Hcp, Hco, Hs. }
  unfold _generate_cache_key, cache_key_of_items, json_dumps_sort_keys.
  rewrite Hkd. split; [|reflexivity].
  rewrite (merge_sort_key_le_Permutation (key_data r2) items);
    [reflexivity|apply key_data_NoDup|by symmetry].
Qed.

(** ** Result cache *)

Lemma run_cache_result (key : string) (payload : ResponseData) (w : World) :
  run env (_cache_result key payload) w
  = (inr tt,
     set_cache
       (<[key := mkCacheEntry payload (utcnow_at env (clock_reads w))]>
          (generation_cache w))
       (log (CacheStore key
               (mkCacheEntry payload (utcnow_at env (clock_reads w))))
            (tick_clock (log UtcNow w)))).
Proof. reflexivity. Qed.

Lemma run_get_cached_result (key : string) (w : World) :
  run env (_get_cached_result key) w
  = match generation_cache w !! key with
    | Some cached =>
        let w1 := tick_clock (log UtcNow (log (CacheLookup key) w)) in
        if bool_decide (utcnow_at env (clock_reads w) - timestamp cached
                        < CACHE_TTL)
        then (inr (Some (data cached)), w1)
        else (inr None,
              set_cache (delete key (generation_cache w))
                        (log (CacheDelete key) w1))
    | None => (inr None, log (CacheLookup key) w)
    end.
Proof.
  unfold _get_cached_result. simpl.
  destruct (generation_cache w !! key) as [cached|]; [|reflexivity].
  simpl. by destruct (bool_decide _).
Qed.

(** C3. A payload put under a key at time T is what a get of that key
    returns at any time less than the TTL after T; from the TTL on the get
    returns nothing and deletes that entry, touching nothing else.  A get
    of a key that is not in the cache returns nothing and leaves the cache
    as it is. *)
Theorem cache_put_get_ttl
    (key : string) (payload : ResponseData) (w : World) :
  let T := utcnow_at env (clock_reads w) in
  let w1 := (run env (_cache_result key payload) w).2 in
  generation_cache w1 !! key = Some (mkCacheEntry payload T)
  ∧ (∀ w2 : World,
       generation_cache w2 !! key = Some (mkCacheEntry payload T) →
       let Δ := utcnow_at env (clock_reads w2) - T in
       let out := run env (_get_cached_result key) w2 in
       (Δ < CACHE_TTL →
          out.1 = inr (Some payload)
          ∧ generation_cache out.2 = generation_cache w2
          ∧ generations out.2 = generations w2)
       ∧ (CACHE_TTL ≤ Δ →
          out.1 = inr None
          ∧ generation_cache out.2 = delete key (generation_cache w2)
          ∧ generations out.2 = generations w2))
  ∧ (∀ w2 : World,
       generation_cache w2 !! key = None →
       let out := run env (_get_cached_result key) w2 in
       out.1 = inr None
       ∧ generation_cache out.2 = generation_cache w2
       ∧ generations out.2 = generations w2
       ∧ clock_reads out.2 = clock_reads w2).
Proof.
  intros T w1. subst w1. rewrite run_cache_result.
  split; [apply lookup_insert_eq|]. split.
  - intros w2 Hentry Δ out. subst out Δ.
    rewrite run_get_cached_result, Hentry. simpl. split; intros Hage.
    + rewrite bool_decide_eq_true_2 by exact Hage. by simpl.
    + rewrite bool_decide_eq_false_2 by lia. by simpl.
  - intros w2 Habsent out. subst out.
    rewrite run_get_cached_result, Habsent. by simpl.
Qed.

(** ** Request validation *)

(** C7. An empty batch does not reach the handler: validation
    ([min_items=1]) turns it down, as it does any batch of more than fifty
    requests.  The loop of the handler would have nothing to do on an
    empty list: its counters stay at zero and its lists empty. *)
Theorem empty_batch_is_rejected (b : BatchGenerationRequest) :
  (requests b = [] → accepts_BatchGenerationRequest b = false)
  ∧ (accepts_BatchGenerationRequest b = true →
     (1 ≤ length (requests b) ≤ 50)%nat)
  ∧ (requests b = [] →
     ∀ sched w,
       batch_images sched b w
       = (inr (mkBatchGenerationResponse 0 0 0 [] []), w)).
Proof.
  unfold accepts_BatchGenerationRequest. split; [|split].
  - intros ->. reflexivity.
  - intros [Hlen _]%andb_prop. by apply bool_decide_eq_true in Hlen.
  - intros Hempty sched w.
    unfold batch_generate_images, batch_response, enumerate, gather.
    rewrite Hempty. destruct (parallel b); simpl; by destruct sched.
Qed.

(** ** Retry loop *)

Lemma after_upstream_0 w : after_upstream w 0 [] = w.
Proof.
  destruct w. unfold after_upstream. simpl.
  by rewrite Nat.add_0_r, app_nil_r.
Qed.

Lemma after_upstream_after w n1 tr1 n2 tr2 :
  after_upstream (after_upstream w n1 tr1) n2 tr2
  = after_upstream w (n1 + n2) (tr1 ++ tr2).
Proof. unfold after_upstream. simpl. by rewrite Nat.add_assoc, app_assoc. Qed.

Section RetryFacts.
Variable args : GenerateArgs.
Variable max_retries : Z.

Lemma run_fibo_generate w :
  run env (fibo_generate args) w
  = (match fibo_api_at env (api_calls w) args with
     | inr image_url => inr (mkGenerateResult image_url (parameters_of_args args))
     | inl e => inl e
     end, after_upstream w 1 [FiboApi args]).
Proof.
  unfold fibo_generate. simpl.
  assert (tick_api (log (FiboApi args) w)
          = after_upstream w 1 [FiboApi args]) as ->.
  { unfold after_upstream, tick_api, log. simpl. f_equal. lia. }
  by destruct (fibo_api_at env (api_calls w) args).
Qed.

(** One turn of the loop. *)
Lemma run_generate_with_retry_cons attempt rest retry_count w :
  run env (generate_with_retry args max_retries (attempt :: rest) retry_count) w
  = match fibo_api_at env (api_calls w) args with
    | inr image_url =>
        (inr (Some (mkGenerateResult image_url (parameters_of_args args)),
              retry_count),
         after_upstream w 1 [FiboApi args])
    | inl last_error =>
        if bool_decide (attempt < max_retries)
        then run env (generate_with_retry args max_retries rest (attempt + 1))
                 (after_upstream w 1 [FiboApi args; Sleep (2 ^ attempt)])
        else (inl last_error, after_upstream w 1 [FiboApi args])
    end.
Proof.
  cbn [generate_with_retry].
  rewrite run_bind, run_try_catch, run_bind, run_fibo_generate.
  destruct (fibo_api_at env (api_calls w) args) as [e|img]; simpl; [|done].
  destruct (bool_decide (attempt < max_retries)); [|done].
  cbn [run handle]. f_equal.
  unfold after_upstream, log. simpl. f_equal. by rewrite <-app_assoc.
Qed.

(** [k] failures, each with budget left, then a success. *)
Lemma run_generate_with_retry_success (k : nat) :
  ∀ (attempt : Z) (len : Z) (retry_count : Z) (w : World)
    (image_url : option string),
    0 ≤ attempt →
    attempt + Z.of_nat k ≤ max_retries →
    Z.of_nat k < len →
    (∀ j, (j < k)%nat →
          ∃ e, fibo_api_at env (api_calls w + j) args = inl e) →
    fibo_api_at env (api_calls w + k) args = inr image_url →
    run env (generate_with_retry args max_retries (seqZ attempt len)
                                 retry_count) w
    = (inr (Some (mkGenerateResult image_url (parameters_of_args args)),
            if k is O then retry_count else attempt + Z.of_nat k),
       after_upstream w (S k)
         (backoff_trace args attempt k ++ [FiboApi args])).
Proof.
  induction k as [|k IH]; intros attempt len rc w img Ha Hk Hlen Hfail Hok.
  - rewrite seqZ_cons by lia. rewrite run_generate_with_retry_cons.
    rewrite Nat.add_0_r in Hok. by rewrite Hok.
  - rewrite seqZ_cons by lia. rewrite run_generate_with_retry_cons.
    destruct (Hfail 0%nat) as [e He]; [lia|].
    rewrite Nat.add_0_r in He. rewrite He.
    rewrite bool_decide_eq_true_2 by lia.
    rewrite (IH _ _ _ _ img); simpl; try lia.
    + rewrite after_upstream_after.
      replace (Z.succ attempt) with (attempt + 1) by lia.
      f_equal. do 2 f_equal. destruct k; lia.
    + intros j Hj. destruct (Hfail (S j)) as [e' He']; [lia|].
      exists e'. rewrite <-He'. f_equal. lia.
    + rewrite <-Hok. f_equal. lia.
Qed.

(** Every attempt fails: the loop gives up when the budget is spent. *)
Lemma run_generate_with_retry_exhausted (k : nat) :
  ∀ (attempt : Z) (retry_count : Z) (w : World) (last_error : Exception),
    0 ≤ attempt →
    attempt + Z.of_nat k = max_retries →
    (∀ j, (j < k)%nat →
          ∃ e, fibo_api_at env (api_calls w + j) args = inl e) →
    fibo_api_at env (api_calls w + k) args = inl last_error →
    run env (generate_with_retry args max_retries
               (seqZ attempt (Z.of_nat k + 1)) retry_count) w
    = (inl last_error,
       after_upstream w (S k)
         (backoff_trace args attempt k ++ [FiboApi args])).
Proof.
  induction k as [|k IH]; intros attempt rc w err Ha Hk Hfail Hlast.
  - rewrite seqZ_cons by lia. rewrite run_generate_with_retry_cons.
    rewrite Nat.add_0_r in Hlast. rewrite Hlast.
    by rewrite bool_decide_eq_false_2 by lia.
  - rewrite seqZ_cons by lia. rewrite run_generate_with_retry_cons.
    destruct (Hfail 0%nat) as [e He]; [lia|].
    rewrite Nat.add_0_r in He. rewrite He.
    rewrite bool_decide_eq_true_2 by lia.
    replace (Z.pred (Z.of_nat (S k) + 1)) with (Z.of_nat k + 1) by lia.
    rewrite (IH _ _ _ err); simpl; try lia.
    + rewrite after_upstream_after.
      by replace (Z.succ attempt) with (attempt + 1) by lia.
    + intros j Hj. destruct (Hfail (S j)) as [e' He']; [lia|].
      exists e'. rewrite <-He'. f_equal. lia.
    + rewrite <-Hlast. f_equal. lia.
Qed.

(** Whatever the upstream answers, the loop touches nothing but the
    upstream: it calls it and sleeps. *)
Lemma run_generate_with_retry_frame (attempts : list Z) :
  ∀ (retry_count : Z) (w : World),
    ∃ (n : nat) (tr : list event),
      (run env (generate_with_retry args max_retries attempts retry_count)
           w).2 = after_upstream w n tr
      ∧ Forall (λ ev, is_await ev = true) tr.
Proof.
  induction attempts as [|attempt rest IH]; intros rc w.
  - exists 0%nat, []. simpl. by rewrite after_upstream_0.
  - rewrite run_generate_with_retry_cons.
    destruct (fibo_api_at env (api_calls w) args) as [e|img].
    + destruct (bool_decide (attempt < max_retries)).
      * destruct (IH (attempt + 1)
                     (after_upstream w 1 [FiboApi args; Sleep (2 ^ attempt)]))
          as (n & tr & -> & Htr).
        eexists _, _. rewrite after_upstream_after. split; [done|].
        by repeat constructor.
      * exists 1%nat, [FiboApi args]. split; [done|]. by repeat constructor.
    + exists 1%nat, [FiboApi args]. split; [done|]. by repeat constructor.
Qed.
End RetryFacts.

(** ** Single generation *)

Lemma upstream_events_app tr1 tr2 :
  upstream_events (tr1 ++ tr2) = upstream_events tr1 ++ upstream_events tr2.
Proof. apply List.filter_app. Qed.

Lemma upstream_events_backoff args attempt k :
  upstream_events (backoff_trace args attempt k) = backoff_trace args attempt k.
Proof.
  revert attempt. induction k as [|k IH]; intros attempt; [done|].
  simpl. by rewrite <-(IH (attempt + 1)) at 2.
Qed.

Lemma upstream_events_quiet tr :
  Forall (λ ev, is_upstream ev = false) tr → upstream_events tr = [].
Proof.
  induction 1 as [|ev tr Hev _ IH]; [done|].
  unfold upstream_events in *. simpl. by rewrite Hev.
Qed.

Lemma not_await_not_upstream ev : is_await ev = false → is_upstream ev = false.
Proof. by destruct ev. Qed.

Lemma row_of_next_id w : row_of_id (next_id w) = length (generations w).
Proof. unfold row_of_id, next_id. lia. Qed.

Lemma insert_last {A : Type} (l : list A) (x y : A) :
  <[length l := y]> (l ++ [x]) = l ++ [y].
Proof.
  replace (length l) with (length l + 0)%nat by lia.
  by rewrite insert_app_r.
Qed.

Lemma run_get_cached_result_check key w :
  run env (_get_cached_result key) w
  = (inr (cache_check env key w).1, (cache_check env key w).2).
Proof.
  rewrite run_get_cached_result. unfold cache_check.
  destruct (generation_cache w !! key); [|done]. simpl.
  by destruct (bool_decide _).
Qed.

Lemma run_begin_generation request w :
  run env (begin_generation md5_hexdigest json_encode_str request) w
  = match cache_hit request w with
    | Some d =>
        (inr (inl (mkGenerationResponse d true)), after_cache_check request w)
    | None =>
        (inr (inr (utcnow_at env (clock_reads w), cache_key request,
                   next_id (after_cache_check request w),
                   created_row request w)),
         after_insert request w)
    end.
Proof.
  unfold begin_generation, cache_hit, after_insert, created_row,
    after_cache_check.
  rewrite run_bind. cbn [trigger run handle].
  rewrite run_bind.
  destruct (use_cache request).
  - rewrite run_get_cached_result_check.
    destruct (cache_check env _ _) as [[d|] w2]; reflexivity.
  - reflexivity.
Qed.

Lemma run_resolve_and_generate request w :
  run env (resolve_and_generate request) w
  = let out :=
      run env (generate_with_retry (resolve env request (intent_calls w)).1
                 (max_retries request)
                 (seqZ 0 (max_retries request + 1)) 0)
          (after_resolve request w) in
    (match out.1 with
     | inr (result, retry_count) =>
         inr (result, retry_count, (resolve env request (intent_calls w)).2)
     | inl e => inl e
     end, out.2).
Proof.
  unfold resolve_and_generate, resolve, after_resolve.
  destruct (bool_decide (mode request = "ai")).
  - rewrite run_bind, run_try_catch. unfold analyze_intent.
    cbn [mbind prog_bind bind trigger run handle].
    destruct (analyze_intent_at env (intent_calls w) (prompt request))
      as [e|analysis]; simpl; rewrite run_bind;
      destruct (run env (generate_with_retry _ _ _ _) _) as [[e'|[res rc]] w'];
      reflexivity.
  - rewrite run_bind.
    destruct (run env (generate_with_retry _ _ _ _) _) as [[e'|[res rc]] w'];
      reflexivity.
Qed.

Lemma run_generate_image_body request start_time key id generation w :
  run env (generate_image_body request start_time key id generation) w
  = let out := run env (resolve_and_generate request) w in
    match out.1 with
    | inl e => (inl e, out.2)
    | inr (None, retry_count, reasoning) =>
        (inl (PyError "'NoneType' object has no attribute 'get'"),
         tick_clock (log UtcNow out.2))
    | inr (Some result, retry_count, reasoning) =>
        (inr (mkGenerationResponse
                (completed_response id result retry_count reasoning
                   start_time (utcnow_at env (clock_reads out.2)))
                false),
         after_success request key id generation result retry_count
                       reasoning start_time out.2)
    end.
Proof.
  unfold generate_image_body. rewrite run_bind.
  destruct (run env (resolve_and_generate request) w)
    as [[e|[[[result|] rc] reasoning]] w1]; try reflexivity.
  cbn [fst snd]. rewrite run_bind. cbn [trigger run handle].
  rewrite run_bind. cbn [trigger run handle].
  unfold after_success, completed_response, completed_row, commit.
  rewrite run_bind.
  destruct (use_cache request); [|reflexivity].
  rewrite !run_cache_result. reflexivity.
Qed.

Lemma run_generate_image request w :
  run env (gen_image request) w
  = match cache_hit request w with
    | Some d =>
        (inr (mkGenerationResponse d true), after_cache_check request w)
    | None =>
        let id := next_id (after_cache_check request w) in
        let out :=
          run env (generate_image_body request
                     (utcnow_at env (clock_reads w)) (cache_key request)
                     id (created_row request w))
              (after_insert request w) in
        match out.1 with
        | inr response => (inr response, out.2)
        | inl e =>
            (inl (http_500 str_HTTPException "Generation failed: " e),
             commit id (mark_failed (created_row request w) (str e)) out.2)
        end
    end.
Proof.
  unfold generate_image. rewrite run_bind, run_try_catch, run_begin_generation.
  destruct (cache_hit request w) as [d|]; [reflexivity|].
  cbn iota. rewrite run_try_catch.
  destruct (run env (generate_image_body _ _ _ _ _) _) as [[e|resp] w1];
    reflexivity.
Qed.

(** The cache check reads the clock and the cache and at most deletes the
    stale entry of the key. *)
Lemma after_cache_check_frame request w :
  ∃ tr,
    trace (after_cache_check request w) = trace w ++ UtcNow :: tr
    ∧ Forall (λ ev, is_await ev = false ∧ is_db ev = false
                    ∧ is_store ev = false) tr
    ∧ generations (after_cache_check request w) = generations w
    ∧ intent_calls (after_cache_check request w) = intent_calls w
    ∧ api_calls (after_cache_check request w) = api_calls w
    ∧ (generation_cache (after_cache_check request w) = generation_cache w
       ∨ generation_cache (after_cache_check request w)
         = delete (cache_key request) (generation_cache w)).
Proof.
  unfold after_cache_check, cache_check.
  destruct (use_cache request); [|exists []; simpl; auto 10].
  cbn [generation_cache tick_clock log].
  destruct (generation_cache w !! cache_key request) as [cached|].
  - cbn zeta. destruct (bool_decide _).
    + exists [CacheLookup (cache_key request); UtcNow]. simpl.
      rewrite <-!app_assoc. repeat split; auto; repeat constructor.
    + exists [CacheLookup (cache_key request); UtcNow;
              CacheDelete (cache_key request)]. simpl.
      rewrite <-!app_assoc. repeat split; auto; repeat constructor.
  - exists [CacheLookup (cache_key request)]. simpl.
    rewrite <-!app_assoc. repeat split; auto; repeat constructor.
Qed.

(** C9. With [use_cache] set and a fresh entry under the request's key,
    the handler answers with that entry's payload, flagged as cached.
    It inserts no row, asks neither the resolver nor the upstream, and
    leaves the cache as it found it: all it does is read the clock and
    look the key up. *)
Theorem cache_hit_returns_without_work
    (request : GenerationRequest) (w : World) (entry : CacheEntry) :
  use_cache request = true →
  generation_cache w !! cache_key request = Some entry →
  utcnow_at env (S (clock_reads w)) - timestamp entry < CACHE_TTL →
  let out := run env (gen_image request) w in
  out.1 = inr (mkGenerationResponse (data entry) true)
  ∧ generations out.2 = generations w
  ∧ intent_calls out.2 = intent_calls w
  ∧ api_calls out.2 = api_calls w
  ∧ generation_cache out.2 = generation_cache w
  ∧ trace out.2
    = trace w ++ [UtcNow; CacheLookup (cache_key request); UtcNow].
Proof.
  intros Huse Hentry Hfresh out. subst out.
  rewrite run_generate_image.
  unfold cache_hit, after_cache_check, cache_check. rewrite Huse.
  cbn [generation_cache tick_clock log clock_reads]. rewrite Hentry.
  cbn zeta. rewrite bool_decide_eq_true_2 by exact Hfresh.
  simpl. by rewrite <-!app_assoc.
Qed.

Lemma after_insert_frame request w :
  ∃ tr,
    trace (after_insert request w)
    = trace w ++ UtcNow :: tr ++ [UtcNow; DbInsert (created_row request w)]
    ∧ Forall (λ ev, is_await ev = false ∧ is_db ev = false
                    ∧ is_store ev = false) tr
    ∧ generations (after_insert request w)
      = generations w ++ [created_row request w]
    ∧ next_id (after_cache_check request w) = next_id w
    ∧ intent_calls (after_insert request w) = intent_calls w
    ∧ api_calls (after_insert request w) = api_calls w
    ∧ (generation_cache (after_insert request w) = generation_cache w
       ∨ generation_cache (after_insert request w)
         = delete (cache_key request) (generation_cache w)).
Proof.
  destruct (after_cache_check_frame request w)
    as (tr & Htr & Hquiet & Hgens & Hintent & Hapi & Hcache).
  exists tr. unfold after_insert, next_id. simpl.
  rewrite Htr, Hgens, Hintent, Hapi, <-!app_assoc. simpl.
  repeat split; auto.
Qed.

Lemma after_resolve_frame request w :
  api_calls (after_resolve request w) = api_calls w
  ∧ generations (after_resolve request w) = generations w
  ∧ generation_cache (after_resolve request w) = generation_cache w
  ∧ ∃ tr, trace (after_resolve request w) = trace w ++ tr
          ∧ Forall (λ ev, is_db ev = false ∧ is_store ev = false
                          ∧ is_upstream ev = false) tr.
Proof.
  unfold after_resolve. destruct (bool_decide _); simpl.
  - repeat split; auto. eexists. split; [done|]. repeat constructor.
  - repeat split; auto. exists []. by rewrite app_nil_r.
Qed.

Lemma at_loop_start_frame request w :
  api_calls (at_loop_start request w) = api_calls w
  ∧ upstream_events (trace (at_loop_start request w))
    = upstream_events (trace w).
Proof.
  unfold at_loop_start.
  destruct (after_resolve_frame request (after_insert request w))
    as (Hapi & _ & _ & tr2 & Htr2 & Hq2).
  destruct (after_insert_frame request w)
    as (tr1 & Htr1 & Hq1 & _ & _ & _ & Hapi1 & _).
  split; [congruence|].
  rewrite Htr2, Htr1, !upstream_events_app.
  rewrite (upstream_events_quiet tr2), app_nil_r.
  - change (UtcNow :: tr1 ++ [UtcNow; DbInsert (created_row request w)])
      with ([UtcNow] ++ tr1 ++ [UtcNow; DbInsert (created_row request w)]).
    rewrite !upstream_events_app, (upstream_events_quiet tr1).
    + simpl. by rewrite app_nil_r.
    + eapply Forall_impl; [exact Hq1|].
      intros ev (? & _). by apply not_await_not_upstream.
  - eapply Forall_impl; [exact Hq2|]. by intros ev (_ & _ & ?).
Qed.

(** C1. A request that misses the cache and whose upstream call fails
    [k] times and then succeeds, with [k] within the retry budget,
    completes after [k + 1] upstream calls and reports [retry_count = k],
    the number of failed attempts.  If the call fails [k + 1] times and
    the budget is [k], the handler raises after exactly [k + 1] calls, as
    a 500 carrying the message of the last error.  In both cases failed
    attempt number [a] (from zero) is followed by a sleep of [2 ^ a], and
    no sleep follows the last call. *)
Theorem retry_attempts_and_backoff
    (request : GenerationRequest) (w : World) (k : nat) :
  cache_hit request w = None →
  let args := (resolve env request (intent_calls w)).1 in
  (∀ j, (j < k)%nat →
        ∃ e, fibo_api_at env (api_calls w + j) args = inl e) →
  (∀ image_url,
     Z.of_nat k ≤ max_retries request →
     fibo_api_at env (api_calls w + k) args = inr image_url →
     ∃ response w',
       run env (gen_image request) w = (inr response, w')
       ∧ rd_status (resp_data response) = "completed"
       ∧ rd_retry_count (resp_data response) = Z.of_nat k
       ∧ api_calls w' = (api_calls w + (k + 1))%nat
       ∧ upstream_events (trace w')
         = upstream_events (trace w)
           ++ backoff_trace args 0 k ++ [FiboApi args])
  ∧ (∀ last_error,
       Z.of_nat k = max_retries request →
       fibo_api_at env (api_calls w + k) args = inl last_error →
       ∃ w',
         run env (gen_image request) w
         = (inl (HTTPException 500
                   ("Generation failed: " +:+ str last_error)), w')
         ∧ api_calls w' = (api_calls w + (k + 1))%nat
         ∧ upstream_events (trace w')
           = upstream_events (trace w)
             ++ backoff_trace args 0 k ++ [FiboApi args]).
Proof.
  intros Hmiss args Hfail.
  destruct (at_loop_start_frame request w) as [Hapi Hup].
  assert (Hargs : (resolve env request
                     (intent_calls (after_insert request w))).1 = args).
  { destruct (after_insert_frame request w)
      as (? & _ & _ & _ & _ & -> & _). done. }
  split.
  - intros img Hk Hok.
    rewrite run_generate_image, Hmiss. cbn zeta.
    rewrite run_generate_image_body, run_resolve_and_generate. cbn zeta.
    rewrite Hargs. fold (at_loop_start request w).
    rewrite (run_generate_with_retry_success args (max_retries request)
               k 0 _ 0 _ img); try lia; rewrite ?Hapi; try done.
    cbn [fst snd]. eexists _, _. split; [reflexivity|].
    split; [done|]. split; [by destruct k; simpl; lia|].
    unfold after_success.
    destruct (use_cache request); simpl; rewrite Hapi;
      (split; [lia|]);
      rewrite <-?app_assoc, !upstream_events_app, Hup,
        upstream_events_backoff; simpl; by rewrite ?app_nil_r.
  - intros err Hk Hlast.
    rewrite run_generate_image, Hmiss. cbn zeta.
    rewrite run_generate_image_body, run_resolve_and_generate. cbn zeta.
    rewrite Hargs. fold (at_loop_start request w).
    replace (max_retries request + 1) with (Z.of_nat k + 1) by lia.
    rewrite (run_generate_with_retry_exhausted args (max_retries request)
               k 0 0 _ err); try lia; rewrite ?Hapi; try done.
    cbn [fst snd]. eexists. split; [reflexivity|].
    simpl. rewrite Hapi. split; [lia|].
    rewrite <-?app_assoc, !upstream_events_app, Hup,
      upstream_events_backoff; simpl; by rewrite ?app_nil_r.
Qed.

(** How a request that missed the cache can end: completed, out of
    retries, or (with a negative retry budget, which validation rules
    out) with no attempt made at all. *)
Lemma generate_image_miss_outcomes request w :
  cache_hit request w = None →
  let id := next_id w in
  let g0 := created_row request w in
  let start_time := utcnow_at env (clock_reads w) in
  ∃ (n : nat) (tr_up : list event),
    let w1 := after_upstream (at_loop_start request w) n tr_up in
    Forall (λ ev, is_await ev = true) tr_up
    ∧ ((∃ result retry_count reasoning,
          run env (gen_image request) w
          = (inr (mkGenerationResponse
                    (completed_response id result retry_count reasoning
                       start_time (utcnow_at env (clock_reads w1)))
                    false),
             after_success request (cache_key request) id g0 result
                           retry_count reasoning start_time w1))
       ∨ (∃ e,
            run env (gen_image request) w
            = (inl (http_500 str_HTTPException "Generation failed: " e),
               commit id (mark_failed g0 (str e)) w1))
       ∨ (∃ e,
            run env (gen_image request) w
            = (inl (http_500 str_HTTPException "Generation failed: " e),
               commit id (mark_failed g0 (str e))
                      (tick_clock (log UtcNow w1))))).
Proof.
  intros Hmiss id g0 start_time. subst id g0 start_time.
  rewrite run_generate_image, Hmiss. cbn zeta.
  rewrite run_generate_image_body, run_resolve_and_generate. cbn zeta.
  destruct (after_insert_frame request w)
    as (_ & _ & _ & _ & -> & _ & _ & _).
  fold (at_loop_start request w).
  destruct (run_generate_with_retry_frame
              (resolve env request (intent_calls (after_insert request w))).1
              (max_retries request) (seqZ 0 (max_retries request + 1)) 0
              (at_loop_start request w)) as (n & tr_up & Hw1 & Hup).
  exists n, tr_up. cbn zeta. split; [exact Hup|].
  destruct (run env (generate_with_retry _ _ _ _) _)
    as [[e|[[result|] rc]] w1]; cbn [fst snd] in *; subst w1.
  - right; left. by exists e.
  - left. by eexists _, _, _.
  - right; right. by eexists.
Qed.

Lemma at_loop_start_state request w :
  generations (at_loop_start request w)
  = generations w ++ [created_row request w]
  ∧ (generation_cache (at_loop_start request w) = generation_cache w
     ∨ generation_cache (at_loop_start request w)
       = delete (cache_key request) (generation_cache w))
  ∧ ∃ pre mid,
      trace (at_loop_start request w)
      = trace w ++ pre ++ [DbInsert (created_row request w)] ++ mid
      ∧ Forall quiet pre
      ∧ Forall (λ ev, is_db ev = false ∧ is_store ev = false) mid.
Proof.
  unfold at_loop_start.
  destruct (after_resolve_frame request (after_insert request w))
    as (_ & Hgens & Hcache & tr2 & Htr2 & Hq2).
  destruct (after_insert_frame request w)
    as (tr1 & Htr1 & Hq1 & Hgens1 & _ & _ & _ & Hcache1).
  split; [congruence|]. split; [by rewrite Hcache|].
  exists (UtcNow :: tr1 ++ [UtcNow]), tr2. rewrite Htr2, Htr1.
  split; [by rewrite <-!app_assoc; simpl; rewrite <-!app_assoc|].
  split.
  - constructor; [done|]. apply Forall_app. split; [exact Hq1|].
    by repeat constructor.
  - eapply Forall_impl; [exact Hq2|]. by intros ev (? & ? & _).
Qed.

(** The shape of every run that misses the cache: quiet bookkeeping, the
    insert of the row, the resolver and upstream traffic, one commit of
    the row in a terminal state, and on success the cache store. *)
Lemma generate_image_miss_trace (request : GenerationRequest) (w : World) :
  cache_hit request w = None →
  let out := run env (gen_image request) w in
  ∃ (pre : list event) (g0 : Generation) (mid : list event)
    (gT : Generation) (post : list event),
    trace out.2
    = trace w ++ pre ++ [DbInsert g0] ++ mid
        ++ [DbCommit (next_id w) gT] ++ post
    ∧ Forall quiet pre
    ∧ g_status g0 = "processing"
    ∧ Forall (λ ev, is_db ev = false ∧ is_store ev = false) mid
    ∧ Forall (λ ev, is_await ev = false ∧ is_db ev = false) post
    ∧ generations out.2 = generations w ++ [gT]
    ∧ terminal_for out.1 gT
    ∧ (∀ e, out.1 = inl e →
            post = []
            ∧ (generation_cache out.2 = generation_cache w
               ∨ generation_cache out.2
                 = delete (cache_key request) (generation_cache w))).
Proof.
  intros Hmiss out. subst out.
  destruct (generate_image_miss_outcomes request w Hmiss)
    as (n & tr_up & Hup & Hcases). cbn zeta in Hcases.
  destruct (at_loop_start_state request w)
    as (Hgens & Hcache & pre & mid & Htr & Hpre & Hmid).
  assert (Hup' : Forall (λ ev, is_db ev = false ∧ is_store ev = false) tr_up).
  { eapply Forall_impl; [exact Hup|]. by intros []. }
  exists pre, (created_row request w).
  destruct Hcases as [(result & rc & reasoning & ->)|[(e & ->)|(e & ->)]].
  - exists (mid ++ tr_up ++ [UtcNow]). eexists.
    exists (if use_cache request
            then [UtcNow; CacheStore (cache_key request)
                            (mkCacheEntry
                               (completed_response (next_id w) result rc
                                  reasoning (utcnow_at env (clock_reads w))
                                  (utcnow_at env
                                     (clock_reads
                                        (after_upstream
                                           (at_loop_start request w) n tr_up))))
                               (utcnow_at env
                                  (S (clock_reads
                                        (after_upstream
                                           (at_loop_start request w) n tr_up)))))]
            else []).
    unfold after_success.
    destruct (use_cache request); simpl;
      rewrite Htr, Hgens, row_of_next_id, insert_last, <-!app_assoc;
      (split; [reflexivity|]);
      (split; [exact Hpre|]); (split; [reflexivity|]);
      (split; [rewrite !Forall_app; by repeat constructor|]);
      (split; [by repeat constructor|]);
      (split; [reflexivity|]); by repeat split.
  - exists (mid ++ tr_up). eexists. exists []. simpl.
    rewrite Htr, Hgens, row_of_next_id, insert_last, <-!app_assoc.
    split; [reflexivity|]. split; [exact Hpre|]. split; [reflexivity|].
    split; [by rewrite Forall_app|]. split; [constructor|].
    split; [reflexivity|]. split; [split; [reflexivity|by exists e]|].
    by intros _ _.
  - exists (mid ++ tr_up ++ [UtcNow]). eexists. exists []. simpl.
    rewrite Htr, Hgens, row_of_next_id, insert_last, <-!app_assoc.
    split; [reflexivity|]. split; [exact Hpre|]. split; [reflexivity|].
    split; [rewrite !Forall_app; by repeat constructor|].
    split; [constructor|].
    split; [reflexivity|]. split; [split; [reflexivity|by exists e]|].
    by intros _ _.
Qed.


(** ** Safety of programs under any scheduling *)

Section AlwaysFacts.
Context {A B : Type}.
Variable G : event → Prop.
Variable R : ∀ ev, reply ev → Prop.

Lemma always_mono (Q Q' : A → Prop) (p : prog A) :
  (∀ a, Q a → Q' a) → always G R Q p → always G R Q' p.
Proof.
  intros HQ. induction p as [a|e|ev k IH]; simpl; [auto|auto|].
  intros [Hev Hk]. split; [done|]. intros x Hx. by apply IH, Hk.
Qed.

Lemma always_bind (Q : A → Prop) (Q' : B → Prop)
    (p : prog A) (f : A → prog B) :
  always G R Q p → (∀ a, Q a → always G R Q' (f a)) →
  always G R Q' (p ≫= f).
Proof.
  intros Hp Hf. induction p as [a|e|ev k IH]; simpl in *; [auto|auto|].
  destruct Hp as [Hev Hk]. split; [done|]. intros x Hx. by apply IH, Hk.
Qed.

Lemma always_try_catch (Q : A → Prop) (p : prog A)
    (h : Exception → prog A) :
  always G R Q p → (∀ e, always G R Q (h e)) →
  always G R Q (try_catch p h).
Proof.
  intros Hp Hh. induction p as [a|e|ev k IH]; simpl in *; [auto|auto|].
  destruct Hp as [Hev Hk]. split; [done|]. intros x Hx. by apply IH, Hk.
Qed.

Lemma always_trigger (ev : event) : G ev → always G R (R ev) (trigger ev).
Proof. intros Hev. simpl. auto. Qed.
End AlwaysFacts.

(** An invariant of the world that the effects in [G] keep and that makes
    the replies satisfy [R]. *)
Section Invariant.
Variable G : event → Prop.
Variable R : ∀ ev, reply ev → Prop.
Variable I : World → Prop.
Hypothesis handle_keeps :
  ∀ ev w, I w → G ev → I (handle env ev w).2 ∧ R ev (handle env ev w).1.

Lemma run_always {A : Type} (Q : A → Prop) (p : prog A) (w : World) :
  always G R Q p → I w →
  I (run env p w).2 ∧ ∀ a, (run env p w).1 = inr a → Q a.
Proof.
  revert w. induction p as [a|e|ev k IH]; intros w Hp Hw; simpl in *.
  - split; [done|]. by intros ? [= <-].
  - split; [done|]. by intros ? [=].
  - destruct Hp as [Hev Hk].
    destruct (handle_keeps ev w Hw Hev) as [Hw' Hx].
    destruct (handle env ev w) as [x w']. by apply IH; [apply Hk|].
Qed.

Lemma resume_always {A : Type} (Q : A → Prop) (p : prog A) (w : World) :
  always G R Q p → I w →
  I (resume env p w).2 ∧ task_always G R Q (resume env p w).1.
Proof.
  revert w. induction p as [a|e|ev k IH]; intros w Hp Hw; simpl in *;
    [done|done|].
  destruct Hp as [Hev Hk].
  destruct (handle_keeps ev w Hw Hev) as [Hw' Hx].
  destruct (handle env ev w) as [x w']. simpl in *.
  destruct (is_await ev); [by split; [|apply Hk]|]. by apply IH; [apply Hk|].
Qed.

Lemma resume_at_always {A : Type} (Q : A → Prop) i
    (ts : list (task_state A)) (w : World) :
  Forall (task_always G R Q) ts → I w →
  I (resume_at env i ts w).2
  ∧ Forall (task_always G R Q) (resume_at env i ts w).1.
Proof.
  intros Hts Hw. unfold resume_at.
  destruct (ts !! i) as [[p|r]|] eqn:Hi; [|done|done].
  assert (Hp : always G R Q p).
  { by apply (Forall_lookup_1 _ _ _ _ Hts Hi). }
  destruct (resume_always Q p w Hp Hw) as [Hw' Ht'].
  destruct (resume env p w) as [t' w']. simpl in *.
  split; [done|]. by apply Forall_insert.
Qed.

Lemma interleave_always {A : Type} (Q : A → Prop) (sched : list nat) :
  ∀ (ts : list (task_state A)) (w : World),
    Forall (task_always G R Q) ts → I w →
    I (interleave env sched ts w).2
    ∧ Forall (task_always G R Q) (interleave env sched ts w).1.
Proof.
  induction sched as [|choice sched IH]; intros ts w Hts Hw; simpl; [done|].
  destruct (pending_from 0 ts) as [|i0 ps]; [done|].
  match goal with
  | |- context [resume_at env ?i ts w] =>
      destruct (resume_at_always Q i ts w Hts Hw) as [Hw' Hts'];
      destruct (resume_at env i ts w) as [ts' w']
  end.
  by apply IH.
Qed.

Lemma drain_always {A : Type} (Q : A → Prop) (ts : list (task_state A)) :
  ∀ w, Forall (task_always G R Q) ts → I w →
       I (drain env ts w).2
       ∧ Forall (λ r, ∀ a, r = inr a → Q a) (drain env ts w).1.
Proof.
  induction ts as [|[p|r] ts IH]; intros w Hts Hw; simpl.
  - by split.
  - apply Forall_cons in Hts as [Hp Hts].
    destruct (run_always Q p w Hp Hw) as [Hw1 Hr].
    destruct (run env p w) as [r w1]. simpl in *.
    destruct (IH w1 Hts Hw1) as [Hw' Hrs].
    destruct (drain env ts w1) as [rs w']. simpl in *.
    split; [done|]. by constructor.
  - apply Forall_cons in Hts as [Hr Hts].
    destruct (IH w Hts Hw) as [Hw' Hrs].
    destruct (drain env ts w) as [rs w']. simpl in *.
    split; [done|]. constructor; [|done].
    intros a ->. exact Hr.
Qed.

Lemma gather_always {A : Type} (Q : A → Prop) (sched : list nat)
    (tasks : list (prog A)) (w : World) :
  Forall (always G R Q) tasks → I w →
  I (gather env sched tasks w).2
  ∧ Forall (λ r, ∀ a, r = inr a → Q a) (gather env sched tasks w).1.
Proof.
  intros Htasks Hw. unfold gather.
  assert (Hts : Forall (task_always G R Q) (Pending <$> tasks)).
  { by apply Forall_fmap. }
  destruct (interleave_always Q sched _ w Hts Hw) as [Hw1 Hts1].
  destruct (interleave env sched _ w) as [ts1 w1]. by apply drain_always.
Qed.
End Invariant.

(** ** What the cache holds *)

Lemma handle_keeps_cache_ok ev w :
  cache_ok w → store_ok ev →
  cache_ok (handle env ev w).2 ∧ lookup_ok ev (handle env ev w).1.
Proof.
  unfold cache_ok. intros Hw Hev. destruct ev; simpl in *; try done.
  - split; [done|]. intros entry Hentry. by apply (Hw key).
  - split; [|done]. by apply map_Forall_insert_2.
  - split; [|done]. by apply map_Forall_delete.
Qed.

Lemma safe_generate_with_retry args max_retries attempts :
  ∀ retry_count,
    0 ≤ retry_count → Forall (λ attempt, 0 ≤ attempt) attempts →
    safe (λ out, 0 ≤ out.2)
         (generate_with_retry args max_retries attempts retry_count).
Proof.
  induction attempts as [|attempt rest IH]; intros rc Hrc Hpos; [done|].
  apply Forall_cons in Hpos as [Ha Hpos].
  cbn [generate_with_retry].
  apply (always_bind _ _ (λ _, True)).
  - apply always_try_catch; [|done].
    apply (always_bind _ _ (λ _, True)); [|done].
    unfold fibo_generate. simpl. split; [done|]. by intros [e|img] _.
  - intros [e|result] _; [|done].
    destruct (bool_decide (attempt < max_retries)); [|done].
    simpl. split; [done|]. intros _ _. apply IH; [lia|done].
Qed.

Lemma safe_resolve_and_generate request :
  safe (λ out, 0 ≤ out.1.2) (resolve_and_generate request).
Proof.
  assert (Hpos : Forall (λ attempt, 0 ≤ attempt)
                   (seqZ 0 (max_retries request + 1))).
  { apply Forall_forall. intros a Ha%elem_of_seqZ. lia. }
  unfold resolve_and_generate. destruct (bool_decide _).
  - apply (always_bind _ _ (λ _, True)).
    + apply always_try_catch; [|done]. unfold analyze_intent. simpl.
      split; [done|]. by intros [e|ia] _.
    + intros [params reasoning] _.
      eapply always_bind; [by apply safe_generate_with_retry|].
      by intros [result rc] Hrc.
  - eapply always_bind; [by apply safe_generate_with_retry|].
    by intros [result rc] Hrc.
Qed.

Lemma safe_generate_image_body request start_time key id generation :
  safe (λ response, completed_payload (resp_data response))
       (generate_image_body request start_time key id generation).
Proof.
  unfold generate_image_body.
  eapply always_bind; [apply safe_resolve_and_generate|].
  intros [[result rc] reasoning] Hrc. simpl in Hrc.
  simpl. split; [done|]. intros end_time _.
  destruct result as [result|]; [|done].
  simpl. split; [done|]. intros _ _.
  assert (Hdone : completed_payload
                    (mkResponseData id "completed" (r_image_url result)
                       (r_parameters result)
                       (Some (_calculate_quality_score (r_parameters result)
                                                       result))
                       (Some (total_seconds (end_time - start_time)))
                       reasoning rc)).
  { by split; [|split]. }
  destruct (use_cache request); simpl; [|done].
  split; [done|]. intros now _. split; [done|]. by intros _ _.
Qed.

Lemma safe_generate_image request :
  safe (λ response, completed_payload (resp_data response))
       (gen_image request).
Proof.
  unfold generate_image.
  apply (always_bind _ _
           (λ early, match early with
                     | inl response => completed_payload (resp_data response)
                     | inr _ => True
                     end)).
  - apply always_try_catch; [|done].
    unfold begin_generation. simpl. split; [done|]. intros start_time _.
    destruct (use_cache request); simpl.
    + split; [done|]. intros [cached|] Hhit; simpl.
      * split; [done|]. intros now _.
        destruct (bool_decide _); simpl; [by apply Hhit|].
        split; [done|]. intros _ _. simpl. split; [done|]. intros t _.
        split; [done|]. by intros id _.
      * split; [done|]. intros t _. split; [done|]. by intros id _.
    + split; [done|]. intros t _. split; [done|]. by intros id _.
  - intros [response|[[[start_time key] id] generation]] Hearly; [done|].
    apply always_try_catch; [apply safe_generate_image_body|].
    intros e. simpl. split; [done|]. by intros _ _.
Qed.

Lemma safe_process_single_generation batch gen_request index :
  safe (λ _, True)
       (process_single_generation md5_hexdigest json_encode_str
          str_HTTPException batch gen_request index).
Proof.
  unfold process_single_generation. apply always_try_catch.
  - eapply always_bind; [apply safe_generate_image|]. done.
  - intros e. by destruct (negb _).
Qed.

Lemma safe_generate_sequentially batch items :
  ∀ acc,
    safe (λ _, True)
         (generate_sequentially md5_hexdigest json_encode_str
            str_HTTPException batch items acc).
Proof.
  induction items as [|[i gen_request] rest IH]; intros acc; [done|].
  cbn [generate_sequentially].
  apply (always_bind _ _ (λ _, True)).
  - apply always_try_catch; [|done].
    eapply always_bind; [apply safe_generate_image|]. done.
  - intros [e|result] _; [|apply IH].
    destruct (negb _); [done|apply IH].
Qed.

(** The batch endpoint keeps the cache invariant in both modes and under
    every schedule. *)
Lemma batch_generate_images_cache_ok sched batch w :
  cache_ok w →
  cache_ok (batch_images sched batch w).2.
Proof.
  intros Hw. unfold batch_generate_images. destruct (parallel batch).
  - match goal with
    | |- context [gather env sched ?tasks w] =>
        assert (Htasks : Forall (safe (λ _, True)) tasks)
    end.
    { apply Forall_fmap, Forall_forall. intros [i gen_request] _.
      apply safe_process_single_generation. }
    destruct (gather_always store_ok lookup_ok cache_ok
                handle_keeps_cache_ok (λ _, True) sched _ w Htasks Hw)
      as [Hw' _].
    by destruct (gather env sched _ w).
  - eapply (run_always store_ok lookup_ok cache_ok
              handle_keeps_cache_ok (λ _, True)); [|done].
    apply always_try_catch; [|done].
    eapply always_bind; [apply safe_generate_sequentially|]. done.
Qed.

(** C10. Every payload in the cache is a completed generation with its
    quality score and a non-negative retry count, and every run of the
    handler, alone or in a batch under any schedule, keeps it so.  A
    successful uncached run with [use_cache] stores exactly the payload
    it returns; a failing run stores nothing and at most drops the stale
    entry of its own key.  Hence whatever the handler returns, fresh or
    from the cache, is a completed payload. *)
Theorem only_completed_generations_are_cached :
  (∀ (request : GenerationRequest) (w : World),
     cache_ok w →
     let out := run env (gen_image request) w in
     cache_ok out.2
     ∧ (∀ response,
          out.1 = inr response → completed_payload (resp_data response))
     ∧ (∀ response,
          out.1 = inr response → cached response = false →
          use_cache request = true →
          ∃ t, generation_cache out.2 !! cache_key request
               = Some (mkCacheEntry (resp_data response) t))
     ∧ (∀ e,
          out.1 = inl e →
          (∃ tr, trace out.2 = trace w ++ tr
                 ∧ Forall (λ ev, is_store ev = false) tr)
          ∧ (generation_cache out.2 = generation_cache w
             ∨ generation_cache out.2
               = delete (cache_key request) (generation_cache w))))
  ∧ (∀ (sched : list nat) (batch : BatchGenerationRequest) (w : World),
       cache_ok w →
       cache_ok (batch_images sched batch w).2).
Proof.
  split; [|apply batch_generate_images_cache_ok].
  intros request w Hw out.
  destruct (run_always store_ok lookup_ok cache_ok
              handle_keeps_cache_ok _ (gen_image request) w
              (safe_generate_image request) Hw) as [Hw' Hresp].
  split; [exact Hw'|]. split; [exact Hresp|].
  destruct (cache_hit request w)
    as [d|] eqn:Hhit.
  - subst out. rewrite run_generate_image, Hhit. simpl.
    split; [by intros ? [= <-]|]. by intros ? [=].
  - split.
    + intros response Hout Hfresh Huse.
      destruct (generate_image_miss_outcomes request w Hhit)
        as (n & tr_up & _ & Hcases). cbn zeta in Hcases.
      subst out.
      destruct Hcases
        as [(result & rc & reasoning & Hrun)|[(e & Hrun)|(e & Hrun)]];
        rewrite Hrun in Hout; simpl in Hout; try discriminate.
      injection Hout as <-. rewrite Hrun. unfold after_success.
      rewrite Huse. simpl. eexists. apply lookup_insert_eq.
    + intros e Hout.
      destruct (generate_image_miss_trace request w Hhit)
        as (pre & g0 & mid & gT & post & Htr & Hpre & _ & Hmid & _ & _ & _
            & Hfail).
      destruct (Hfail e Hout) as [-> Hcache]. split; [|exact Hcache].
      eexists. split; [exact Htr|].
      rewrite !Forall_app. repeat split.
      * eapply Forall_impl; [exact Hpre|]. by intros ev (_ & _ & ?).
      * by repeat constructor.
      * eapply Forall_impl; [exact Hmid|]. by intros ev (_ & ?).
      * by repeat constructor.
      * constructor.
Qed.

(** ** Outcomes of tasks *)

Section OutcomeFacts.
Context {A : Type}.






End OutcomeFacts.



(** ** Batch in parallel mode *)

Lemma enumerate_from_lookup {A : Type} (l : list A) :
  ∀ (start : Z) (i : nat),
    enumerate_from start l !! i = (λ x, (start + Z.of_nat i, x)) <$> l !! i.
Proof.
  induction l as [|x l IH]; intros start i; [done|].
  destruct i as [|i]; simpl.
  - do 2 f_equal. lia.
  - rewrite IH. destruct (l !! i); simpl; [|done]. do 2 f_equal. lia.
Qed.

Lemma enumerate_from_length {A : Type} (l : list A) (start : Z) :
  length (enumerate_from start l) = length l.
Proof. revert start. induction l; intros; simpl; auto. Qed.

Lemma foldl_collect_item items :
  ∀ acc,
    foldl collect acc items
    = mkBatchAcc
        (acc_successful acc + Z.of_nat (count_successes items))
        (acc_failed acc
         + Z.of_nat (length items - count_successes items))
        (acc_results acc ++ (item_result <$> items))
        (acc_errors acc ++ (item_error <$> items)).
Proof.
  unfold count_successes.
  induction items as [|item items IH]; intros [s f rs es].
  - simpl. by rewrite !Z.add_0_r, !app_nil_r.
  - cbn [foldl]. rewrite IH.
    pose proof (length_filter
                  (λ item, is_Some (item_result item)) items) as Hle.
    destruct item as [e|[[i [result|]] error]].
    + rewrite filter_cons_False by (by intros [? [=]]).
      simpl. rewrite <-!app_assoc. simpl. f_equal; lia.
    + rewrite filter_cons_True by (by eexists).
      simpl. rewrite <-!app_assoc. simpl. f_equal; lia.
    + rewrite filter_cons_False by (by intros [? [=]]).
      simpl. rewrite <-!app_assoc. simpl. f_equal; lia.
Qed.

Lemma count_successes_results items :
  count_successes items
  = length (filter is_Some (item_result <$> items)).
Proof.
  unfold count_successes.
  induction items as [|item items IH]; [done|].
  rewrite fmap_cons.
  destruct (decide (is_Some (item_result item))) as [Hs|Hs].
  - rewrite !filter_cons_True by done. simpl. by rewrite IH.
  - by rewrite !filter_cons_False by done.
Qed.



(** ** Batch in sequential mode *)

Lemma run_generate_sequentially_cons batch i gen_request rest acc w :
  run env (sequentially batch ((i, gen_request) :: rest) acc) w
  = match run env (gen_image gen_request) w with
    | (inr result, w1) =>
        run env (sequentially batch rest
                   (record_success acc result)) w1
    | (inl e, w1) =>
        if negb (continue_on_error batch)
        then (inl (HTTPException 500 (failed_msg i e)), w1)
        else run env (sequentially batch rest
                        (record_failure acc (Some (failed_msg i e)))) w1
    end.
Proof.
  cbn [generate_sequentially]. rewrite run_bind, run_try_catch, run_bind.
  destruct (run env (gen_image gen_request) w) as [[e|result] w1];
    [|reflexivity].
  cbn [run]. by destruct (negb (continue_on_error batch)).
Qed.

Lemma run_generate_sequentially_stops batch before failing rest e :
  continue_on_error batch = false →
  ∀ (start : Z) acc w,
    let ran := run_each env (gen_image <$> before) w in
    Forall (λ r, ∃ result, r = inr result) ran.1 →
    (run env (gen_image failing) ran.2).1 = inl e →
    run env (sequentially batch
               (enumerate_from start (before ++ failing :: rest)) acc) w
    = (inl (HTTPException 500
              (failed_msg (start + Z.of_nat (length before)) e)),
       (run env (gen_image failing) ran.2).2).
Proof.
  intros Hcoe. induction before as [|gen_request before IH];
    intros start acc w ran Hok Hfail; subst ran.
  - cbn [app enumerate_from fmap list_fmap run_each fst snd length] in *.
    rewrite run_generate_sequentially_cons.
    destruct (run env (gen_image failing) w) as [r w1]. simpl in Hfail.
    subst r. rewrite Hcoe. simpl. by rewrite Z.add_0_r.
  - cbn [app enumerate_from fmap list_fmap run_each] in *.
    rewrite run_generate_sequentially_cons.
    destruct (run env (gen_image gen_request) w) as [r w1].
    destruct (run_each env (gen_image <$> before) w1) as [rs w2] eqn:Hrs.
    apply Forall_cons in Hok as [[result ->] Hok]. simpl in Hfail.
    rewrite (IH (start + 1) _ w1); rewrite ?Hrs; simpl; try done.
    do 4 f_equal. lia.
Qed.

(** C2. In sequential mode with [continue_on_error] unset, when the
    requests before position [i] succeed and request [i] fails, the batch
    call raises a 500 naming generation [i + 1] and returns no outcome
    list.  The world it leaves is the one request [i] left: the requests
    after [i] are never started. *)
Theorem sequential_batch_aborts_on_first_failure
    (batch : BatchGenerationRequest) (sched : list nat) (w : World)
    (before : list GenerationRequest) (failing : GenerationRequest)
    (rest : list GenerationRequest) (e : Exception) :
  parallel batch = false →
  continue_on_error batch = false →
  requests batch = before ++ failing :: rest →
  let ran := run_each env (gen_image <$> before) w in
  let failure := run env (gen_image failing) ran.2 in
  Forall (λ r, ∃ result, r = inr result) ran.1 →
  failure.1 = inl e →
  batch_images sched batch w
  = (inl (HTTPException 500
            ("Batch generation failed: "
             +:+ str (HTTPException 500
                        (failed_msg (Z.of_nat (length before)) e)))),
     failure.2).
Proof.
  intros Hseq Hcoe Hreqs ran failure Hok Hfail. subst ran failure.
  unfold batch_generate_images, enumerate. rewrite Hseq, Hreqs.
  rewrite run_try_catch, run_bind.
  rewrite (run_generate_sequentially_stops batch before failing rest e
             Hcoe 0 _ w Hok Hfail).
  reflexivity.
Qed.

(** ** A request that misses the cache, in one equation *)

Lemma run_generate_image_miss request w :
  cache_hit request w = None →
  let id := next_id w in
  let g0 := created_row request w in
  let start_time := utcnow_at env (clock_reads w) in
  let resolved := resolve env request (intent_calls w) in
  let loop :=
    run env (generate_with_retry resolved.1 (max_retries request)
               (seqZ 0 (max_retries request + 1)) 0)
        (at_loop_start request w) in
  run env (gen_image request) w
  = match loop.1 with
    | inl e =>
        (inl (http_500 str_HTTPException "Generation failed: " e),
         commit id (mark_failed g0 (str e)) loop.2)
    | inr (None, _) =>
        let e := PyError "'NoneType' object has no attribute 'get'" in
        (inl (http_500 str_HTTPException "Generation failed: " e),
         commit id (mark_failed g0 (str e)) (tick_clock (log UtcNow loop.2)))
    | inr (Some result, retry_count) =>
        (inr (mkGenerationResponse
                (completed_response id result retry_count resolved.2
                   start_time (utcnow_at env (clock_reads loop.2)))
                false),
         after_success request (cache_key request) id g0 result retry_count
                       resolved.2 start_time loop.2)
    end.
Proof.
  intros Hmiss id g0 start_time resolved loop.
  subst id g0 start_time resolved loop.
  rewrite run_generate_image, Hmiss. cbn zeta.
  rewrite run_generate_image_body, run_resolve_and_generate. cbn zeta.
  destruct (after_insert_frame request w)
    as (_ & _ & _ & _ & -> & -> & _ & _).
  fold (at_loop_start request w).
  destruct (run env (generate_with_retry _ _ _ _) _)
    as [[e|[[result|] rc]] w1]; reflexivity.
Qed.

(** ** The retry budget *)



Lemma upstream_events_upstream_of args tr :
  Forall (upstream_of args) tr → upstream_events tr = tr.
Proof.
  induction 1 as [|ev tr Hev _ IH]; [done|].
  unfold upstream_events in *. destruct ev; simpl in *; try done;
    by rewrite IH.
Qed.

Lemma backoff_budget_nonneg max_retries attempts :
  0 ≤ backoff_budget max_retries attempts.
Proof.
  induction attempts as [|attempt rest IH]; simpl; [done|].
  destruct (bool_decide _); [|lia].
  pose proof (Z.pow_nonneg 2 attempt). lia.
Qed.


(** Whatever the upstream answers, the loop makes at most one call per
    attempt it has, at least one if it has any, and sleeps no longer than
    its budget. *)
Lemma run_generate_with_retry_budget args max_retries attempts :
  ∀ (retry_count : Z) (w : World),
    Forall (λ attempt, 0 ≤ attempt) attempts →
    ∃ (n : nat) (tr : list event),
      (run env (generate_with_retry args max_retries attempts retry_count)
           w).2 = after_upstream w n tr
      ∧ (n ≤ length attempts)%nat
      ∧ (attempts ≠ [] → (1 ≤ n)%nat)
      ∧ Forall (upstream_of args) tr
      ∧ 0 ≤ slept tr ≤ backoff_budget max_retries attempts.
Proof.
  induction attempts as [|attempt rest IH]; intros rc w Hpos.
  - exists 0%nat, []. simpl. rewrite after_upstream_0.
    repeat split; try done. 
  - apply Forall_cons in Hpos as [Ha Hpos].
    rewrite run_generate_with_retry_cons.
    pose proof (backoff_budget_nonneg max_retries rest) as Hrest.
    pose proof (Z.pow_nonneg 2 attempt ltac:(lia)) as Hpow.
    destruct (fibo_api_at env (api_calls w) args) as [e|img].
    + destruct (bool_decide (attempt < max_retries)) eqn:Hlt.
      * destruct (IH (attempt + 1)
                     (after_upstream w 1 [FiboApi args; Sleep (2 ^ attempt)])
                     Hpos)
          as (n & tr & -> & Hn & _ & Htr & Hs).
        eexists _, _. rewrite after_upstream_after.
        split; [done|]. split; [simpl; lia|]. split; [simpl; lia|].
        split; [by repeat constructor|].
        cbn [app slept foldr backoff_budget]. rewrite Hlt.
        fold (slept tr). fold (backoff_budget max_retries rest). lia.
      * exists 1%nat, [FiboApi args].
        split; [done|]. split; [simpl; lia|]. split; [done|].
        split; [by repeat constructor|].
        cbn [slept foldr backoff_budget]. rewrite Hlt.
        fold (backoff_budget max_retries rest). lia.
    + exists 1%nat, [FiboApi args].
      split; [done|]. split; [simpl; lia|]. split; [done|].
      split; [by repeat constructor|].
      cbn [slept foldr backoff_budget].
      fold (backoff_budget max_retries rest).
      destruct (bool_decide _); lia.
Qed.

(** What the loop hands back on success is the answer of one of its
    calls, with the parameters it was called with. *)
Lemma run_generate_with_retry_result args max_retries attempts :
  ∀ retry_count w result retry_count',
    (run env (generate_with_retry args max_retries attempts retry_count)
         w).1 = inr (Some result, retry_count') →
    r_parameters result = parameters_of_args args
    ∧ ∃ j, fibo_api_at env j args = inr (r_image_url result).
Proof.
  induction attempts as [|attempt rest IH]; intros rc w result rc' Hrun.
  - discriminate Hrun.
  - rewrite run_generate_with_retry_cons in Hrun.
    destruct (fibo_api_at env (api_calls w) args) as [e|img] eqn:Hcall.
    + destruct (bool_decide (attempt < max_retries)); [|discriminate Hrun].
      by eapply IH.
    + injection Hrun as <- <-. split; [done|]. by eexists.
Qed.

(** With a retry budget that is not negative the loop never falls through
    without a result. *)
Lemma run_generate_with_retry_some args max_retries (k : nat) :
  ∀ attempt retry_count w retry_count',
    attempt + Z.of_nat k = max_retries + 1 →
    (run env (generate_with_retry args max_retries
                (seqZ attempt (Z.of_nat k)) retry_count) w).1
    ≠ inr (None, retry_count') ∨ k = 0%nat.
Proof.
  induction k as [|k IH]; intros attempt rc w rc' Hk; [by right|left].
  rewrite seqZ_cons by lia. rewrite run_generate_with_retry_cons.
  destruct (fibo_api_at env (api_calls w) args) as [e|img]; [|done].
  destruct (bool_decide (attempt < max_retries)) eqn:Hlt; [|done].
  apply bool_decide_eq_true in Hlt.
  replace (Z.pred (Z.of_nat (S k))) with (Z.of_nat k) by lia.
  destruct (IH (Z.succ attempt) (attempt + 1)
               (after_upstream w 1 [FiboApi args; Sleep (2 ^ attempt)]) rc')
    as [Hne| ->]; [lia|done|lia].
Qed.

Lemma seqZ_nonneg (len : Z) : Forall (λ attempt, 0 ≤ attempt) (seqZ 0 len).
Proof. apply Forall_forall. intros a Ha%elem_of_seqZ. lia. Qed.

(** The upstream side of a request that misses the cache: what the run
    adds to the counters and to the trace. *)
Lemma generate_image_miss_upstream request w :
  cache_hit request w = None →
  let out := run env (gen_image request) w in
  let attempts := seqZ 0 (max_retries request + 1) in
  ∃ (n : nat) (tr tr' : list event),
    trace out.2 = trace (at_loop_start request w) ++ tr ++ tr'
    ∧ Forall (λ ev, is_await ev = false) tr'
    ∧ api_calls out.2 = (api_calls w + n)%nat
    ∧ intent_calls out.2 = intent_calls (at_loop_start request w)
    ∧ (n ≤ length attempts)%nat
    ∧ (attempts ≠ [] → (1 ≤ n)%nat)
    ∧ Forall (upstream_of (resolve env request (intent_calls w)).1) tr
    ∧ 0 ≤ slept tr ≤ backoff_budget (max_retries request) attempts.
Proof.
  intros Hhit out attempts. subst out attempts.
  rewrite (run_generate_image_miss request w Hhit). cbn zeta.
  destruct (at_loop_start_frame request w) as [Hapi _].
  destruct (run_generate_with_retry_budget
              (resolve env request (intent_calls w)).1
              (max_retries request) (seqZ 0 (max_retries request + 1)) 0
              (at_loop_start request w) (seqZ_nonneg _))
    as (n & tr & Hw1 & Hn & Hn1 & Htr & Hs0 & Hs1).
  exists n, tr.
  destruct (run env (generate_with_retry _ _ _ _) _)
    as [[e|[[result|] rc]] w1]; cbn [fst snd] in *; subst w1.
  - eexists [_]. simpl. rewrite Hapi, <-app_assoc.
    repeat split; try done; by repeat constructor.
  - unfold after_success. destruct (use_cache request).
    + eexists [_; _; _; _]. simpl. rewrite Hapi, <-!app_assoc.
      repeat split; try done; by repeat constructor.
    + eexists [_; _]. simpl. rewrite Hapi, <-!app_assoc.
      repeat split; try done; by repeat constructor.
  - eexists [_; _]. simpl. rewrite Hapi, <-!app_assoc.
    repeat split; try done; by repeat constructor.
Qed.


(** ** The score and the parameters of a completed generation *)

Lemma param_count_list_to_map (l : list (string * pyval)) :
  NoDup l.*1 →
  param_count (list_to_map l) = length (filter (λ v, v ≠ PyNone) l.*2).
Proof.
  intros Hnd. unfold param_count. by rewrite (map_to_list_to_map l Hnd).
Qed.

Lemma param_count_parameters_of_args args :
  param_count (parameters_of_args args)
  = length (filter (λ v, v ≠ PyNone)
              [a_prompt args; a_camera_angle args; a_fov args;
               a_lighting args; a_color_palette args; a_composition args;
               a_style args]).
Proof.
  unfold parameters_of_args. rewrite param_count_list_to_map; [done|].
  rewrite !fmap_cons, fmap_nil. simpl.
  repeat (apply NoDup_cons; split;
          [rewrite ?elem_of_cons, elem_of_nil; intros H; tauto_eq|]).
  apply NoDup_nil_2.
Qed.






(** An error the loop gives up with is the answer of one of its calls. *)
Lemma run_generate_with_retry_error args max_retries attempts :
  ∀ retry_count w e,
    (run env (generate_with_retry args max_retries attempts retry_count)
         w).1 = inl e →
    ∃ j, fibo_api_at env j args = inl e.
Proof.
  induction attempts as [|attempt rest IH]; intros rc w e Hrun.
  - discriminate Hrun.
  - rewrite run_generate_with_retry_cons in Hrun.
    destruct (fibo_api_at env (api_calls w) args) as [e'|img] eqn:Hcall;
      [|discriminate Hrun].
    destruct (bool_decide (attempt < max_retries)); [by eapply IH|].
    injection Hrun as <-. by eexists.
Qed.

Lemma args_of_default_params request :
  args_of_params request (default_params request) = default_args request.
Proof. reflexivity. Qed.

(** X3. When the resolver fails, an AI-mode request goes on with the six
    documented defaults and the prompt as given: the resolver is asked
    once and not again, every upstream call carries the defaults, a
    completed response has the fallback note as its reasoning and scores
    [0.8], or [1] with an image, and the request can only fail with an
    error of the upstream, never with the resolver's. *)
Theorem resolver_failure_falls_back_to_defaults
    (request : GenerationRequest) (w : World) (err : Exception) :
  mode request = "ai" →
  0 ≤ max_retries request →
  cache_hit request w = None →
  analyze_intent_at env (intent_calls w) (prompt request) = inl err →
  let out := run env (gen_image request) w in
  intent_calls out.2 = S (intent_calls w)
  ∧ (∃ tr, upstream_events (trace out.2) = upstream_events (trace w) ++ tr
           ∧ Forall (upstream_of (default_args request)) tr)
  ∧ (∀ response,
       out.1 = inr response →
       rd_reasoning (resp_data response) = Some default_reasoning
       ∧ rd_parameters (resp_data response)
         = parameters_of_args (default_args request)
       ∧ ∃ score,
           rd_quality_score (resp_data response) = Some score
           ∧ (score == if truthy_str (rd_image_url (resp_data response))
                       then 1 else 0.8)%Q)
  ∧ (∀ e,
       out.1 = inl e →
       ∃ cause j,
         fibo_api_at env j (default_args request) = inl cause
         ∧ e = HTTPException 500 ("Generation failed: " +:+ str cause)).
Proof.
  intros Hmode Hm Hhit Herr out.
  assert (Hres : resolve env request (intent_calls w)
                 = (default_args request, Some default_reasoning)).
  { unfold resolve. rewrite bool_decide_eq_true_2 by done.
    by rewrite Herr, args_of_default_params. }
  destruct (generate_image_miss_upstream request w Hhit)
    as (n & tr & tr' & Htrace & Hquiet & _ & Hintent & _ & _ & Htr & _).
  fold out in Htrace, Hintent. rewrite Hres in Htr. cbn [fst] in Htr.
  destruct (at_loop_start_frame request w) as [_ Hup].
  split; [|split; [|split]].
  - rewrite Hintent. unfold at_loop_start, after_resolve.
    rewrite bool_decide_eq_true_2 by done.
    destruct (after_insert_frame request w) as (_ & _ & _ & _ & _ & Hi & _).
    cbn [intent_calls tick_intent log]. by rewrite Hi.
  - exists tr. split; [|exact Htr].
    rewrite Htrace, !upstream_events_app, Hup.
    rewrite (upstream_events_upstream_of _ tr Htr).
    rewrite (upstream_events_quiet tr'), app_nil_r; [done|].
    eapply Forall_impl; [exact Hquiet|].
    intros ev. apply not_await_not_upstream.
  - intros response Hout. subst out.
    rewrite (run_generate_image_miss request w Hhit) in Hout.
    cbn zeta in Hout. rewrite Hres in Hout. cbn [fst snd] in Hout.
    destruct (run env (generate_with_retry _ _ _ _) _)
      as [[e|[[result|] rc]] w1] eqn:Hloop; cbn [fst snd] in Hout;
      [discriminate Hout| |discriminate Hout].
    injection Hout as <-.
    destruct (run_generate_with_retry_result _ _ _ _ _ result rc
                (f_equal fst Hloop)) as [Hparams _].
    unfold completed_response. cbn [resp_data rd_parameters rd_reasoning
      rd_quality_score rd_image_url].
    split; [done|]. split; [exact Hparams|].
    eexists. split; [reflexivity|].
    unfold _calculate_quality_score.
    rewrite Hparams, param_count_parameters_of_args.
    destruct (truthy_str (r_image_url result)); by vm_compute.
  - intros e Hout. subst out.
    rewrite (run_generate_image_miss request w Hhit) in Hout.
    cbn zeta in Hout. rewrite Hres in Hout. cbn [fst snd] in Hout.
    destruct (run env (generate_with_retry _ _ _ _) _)
      as [[cause|[[result|] rc]] w1] eqn:Hloop; cbn [fst snd] in Hout.
    + injection Hout as <-.
      destruct (run_generate_with_retry_error _ _ _ _ _ cause
                  (f_equal fst Hloop)) as [j Hj].
      by exists cause, j.
    + discriminate Hout.
    + exfalso.
      destruct (run_generate_with_retry_some (default_args request)
                  (max_retries request)
                  (S (Z.to_nat (max_retries request))) 0 0
                  (at_loop_start request w) rc) as [Hne|Hk];
        [lia| |discriminate Hk].
      apply Hne.
      replace (Z.of_nat (S (Z.to_nat (max_retries request))))
        with (max_retries request + 1) by lia.
      by rewrite Hloop.
Qed.

(** ** A request repeated *)


(** ** What a request can do, under any scheduling *)

(** The effects the handler can perform on behalf of [request]. *)
Definition handler_event (request : GenerationRequest) (ev : event) : Prop :=
  match ev with
  | UtcNow => True
  | CacheLookup key | CacheDelete key =>
      use_cache request = true ∧ key = cache_key request
  | CacheStore key entry =>
      use_cache request = true ∧ key = cache_key request
      ∧ completed_payload (data entry)
  | DbInsert g =>
      created_by request g ∧ g_status g = "processing" ∧ row_ok g
  | DbCommit _ g =>
      created_by request g ∧ g_status g ≠ "processing" ∧ row_ok g
  | AnalyzeIntent user_input =>
      mode request = "ai" ∧ user_input = prompt request
  | FiboApi args => mode request ≠ "ai" → args = args_of_request request
  | Sleep seconds =>
      ∃ attempt, 0 ≤ attempt < max_retries request ∧ seconds = 2 ^ attempt
  end.

(** The effects a batch can perform: those of its requests. *)
Definition batch_event (batch : BatchGenerationRequest) (ev : event) : Prop :=
  ∃ request, request ∈ requests batch ∧ handler_event request ev.

Lemma always_impl {A : Type} (G G' : event → Prop) (R : ∀ ev, reply ev → Prop)
    (Q : A → Prop) (p : prog A) :
  (∀ ev, G ev → G' ev) → always G R Q p → always G' R Q p.
Proof.
  intros HG. induction p as [a|e|ev k IH]; simpl; [auto|auto|].
  intros [Hev Hk]. split; [by apply HG|]. intros x Hx. by apply IH, Hk.
Qed.

Lemma within_generate_with_retry request args attempts :
  (mode request ≠ "ai" → args = args_of_request request) →
  ∀ retry_count,
    0 ≤ retry_count → Forall (λ attempt, 0 ≤ attempt) attempts →
    always (handler_event request) any_reply (λ out, 0 ≤ out.2)
           (generate_with_retry args (max_retries request) attempts
                                retry_count).
Proof.
  intros Hargs.
  induction attempts as [|attempt rest IH]; intros rc Hrc Hpos; [done|].
  apply Forall_cons in Hpos as [Ha Hpos].
  cbn [generate_with_retry].
  apply (always_bind _ _ (λ _, True)).
  - apply always_try_catch; [|done].
    apply (always_bind _ _ (λ _, True)); [|done].
    unfold fibo_generate. simpl. split; [done|]. by intros [e|img] _.
  - intros [e|result] _; [|done].
    destruct (bool_decide (attempt < max_retries request)) eqn:Hlt; [|done].
    apply bool_decide_eq_true in Hlt.
    simpl. split; [by exists attempt|]. intros _ _. apply IH; [lia|done].
Qed.

Lemma within_resolve_and_generate request :
  always (handler_event request) any_reply (λ out, 0 ≤ out.1.2)
         (resolve_and_generate request).
Proof.
  unfold resolve_and_generate.
  destruct (bool_decide (mode request = "ai")) eqn:Hmode.
  - apply bool_decide_eq_true in Hmode.
    apply (always_bind _ _ (λ _, True)).
    + apply always_try_catch; [|done]. unfold analyze_intent. simpl.
      split; [done|]. by intros [e|ia] _.
    + intros [params reasoning] _.
      eapply always_bind;
        [by apply within_generate_with_retry; [|lia|apply seqZ_nonneg]|].
      by intros [result rc] Hrc.
  - apply bool_decide_eq_false in Hmode.
    eapply always_bind;
      [by apply within_generate_with_retry; [|lia|apply seqZ_nonneg]|].
    by intros [result rc] Hrc.
Qed.

Lemma within_generate_image_body request start_time id t :
  always (handler_event request) any_reply (λ response, cached response = false)
         (generate_image_body request start_time (cache_key request) id
            (with_created_at (new_generation request) t)).
Proof.
  unfold generate_image_body.
  eapply always_bind; [apply within_resolve_and_generate|].
  intros [[result rc] reasoning] Hrc. simpl in Hrc.
  simpl. split; [done|]. intros end_time _.
  destruct result as [result|]; [|done].
  simpl. split.
  { split; [done|]. split; [done|]. split; [by eexists|].
    right; left. repeat split; by eexists. }
  intros _ _.
  destruct (use_cache request) eqn:Huse; simpl; [|done].
  split; [done|]. intros now _. split; [|by intros _ _].
  split; [done|]. split; [done|]. by split; [|split].
Qed.

Lemma within_generate_image request :
  always (handler_event request) any_reply
         (λ response, cached response = true → use_cache request = true)
         (gen_image request).
Proof.
  unfold generate_image.
  apply (always_bind _ _
           (λ early, match early with
                     | inl response => use_cache request = true
                     | inr (_, key, _, generation) =>
                         key = cache_key request
                         ∧ ∃ t, generation
                                = with_created_at (new_generation request) t
                     end)).
  - apply always_try_catch; [|done].
    assert (Hinsert :
              ∀ t : Z,
                (created_by request (with_created_at (new_generation request) t)
                 ∧ "processing" = "processing"
                 ∧ row_ok (with_created_at (new_generation request) t))).
    { intros t. split; [done|]. split; [done|]. split; [by eexists|].
      by left. }
    unfold begin_generation. simpl. split; [done|]. intros start_time _.
    destruct (use_cache request) eqn:Huse.
    + simpl. split; [done|]. intros [entry|] _; simpl.
      * split; [done|]. intros now _.
        destruct (bool_decide _); simpl; [done|].
        split; [done|]. intros _ _. split; [done|]. intros t _.
        split; [apply Hinsert|]. intros id _. split; [done|]. by exists t.
      * split; [done|]. intros t _.
        split; [apply Hinsert|]. intros id _. split; [done|]. by exists t.
    + simpl. split; [done|]. intros t _.
      split; [apply Hinsert|]. intros id _. split; [done|]. by exists t.
  - intros [response|[[[start_time key] id] generation]] Hearly;
      [by intros _|].
    destruct Hearly as [-> [t ->]].
    apply always_try_catch.
    + eapply always_mono; [|apply within_generate_image_body].
      intros response ->. done.
    + intros e. simpl. split; [|by intros _ _].
      split; [done|]. split; [done|]. split; [by eexists|].
      right; right. repeat split; by eexists.
Qed.

Lemma elem_of_enumerate_from {A : Type} (l : list A) (start i : Z) (x : A) :
  (i, x) ∈ enumerate_from start l → x ∈ l.
Proof.
  intros [n Hn]%list_elem_of_lookup. rewrite enumerate_from_lookup in Hn.
  destruct (l !! n) as [y|] eqn:Hy; [|done].
  injection Hn as _ <-. by eapply list_elem_of_lookup_2.
Qed.

Lemma within_process_single_generation batch gen_request index :
  gen_request ∈ requests batch →
  always (batch_event batch) any_reply
         (λ item, ∀ response,
            item.1.2 = Some response → cached response = true →
            use_cache gen_request = true)
         (single batch gen_request index).
Proof.
  intros Hin. unfold process_single_generation. apply always_try_catch.
  - eapply always_bind.
    + eapply always_impl; [|apply within_generate_image].
      intros ev Hev. by exists gen_request.
    + intros response Hresp. simpl. by intros ? [= <-].
  - intros e. destruct (negb _); [done|]. simpl. by intros ? [=].
Qed.

Lemma within_generate_sequentially batch (P : GenerationResponse → Prop) :
  (∀ gen_request response,
     gen_request ∈ requests batch →
     (cached response = true → use_cache gen_request = true) →
     P response) →
  ∀ items acc,
    (∀ i gen_request, (i, gen_request) ∈ items →
                      gen_request ∈ requests batch) →
    Forall (λ result, ∀ response, result = Some response → P response)
           (acc_results acc) →
    always (batch_event batch) any_reply
           (λ acc', Forall (λ result, ∀ response,
                              result = Some response → P response)
                           (acc_results acc'))
           (sequentially batch items acc).
Proof.
  intros HP.
  induction items as [|[i gen_request] rest IH]; intros acc Hin Hacc; [done|].
  assert (Hrest : ∀ i' r, (i', r) ∈ rest → r ∈ requests batch).
  { intros i' r Hr. apply (Hin i'). by right. }
  cbn [generate_sequentially].
  apply (always_bind _ _
           (λ r, ∀ response, r = inr response → P response)).
  - apply always_try_catch; [|by intros e ? [=]].
    eapply always_bind.
    + eapply always_impl; [|apply within_generate_image].
      intros ev Hev. exists gen_request. split; [|done].
      apply (Hin i). by left.
    + intros response Hresp. simpl. intros ? [= <-].
      apply (HP gen_request); [|done]. apply (Hin i). by left.
  - intros [e|result] Hr.
    + destruct (negb _); [done|]. apply IH; [done|].
      simpl. apply Forall_app. split; [done|]. by repeat constructor.
    + apply IH; [done|].
      simpl. apply Forall_app. split; [done|]. repeat constructor.
      intros ? [= <-]. by apply Hr.
Qed.

(** Whatever the effects of a request keep, a run of the handler keeps. *)
Lemma request_keeps (G : event → Prop) (I : World → Prop)
    (request : GenerationRequest) (w : World) :
  (∀ ev w, I w → G ev → I (handle env ev w).2) →
  (∀ ev, handler_event request ev → G ev) →
  I w → I (run env (gen_image request) w).2.
Proof.
  intros Hkeeps HG Hw.
  refine (proj1 (run_always G any_reply I _ (λ _, True) _ w _ Hw)).
  - intros ev w0 Hw0 Hev. split; [by apply Hkeeps|done].
  - eapply always_impl; [exact HG|].
    eapply always_mono; [|apply within_generate_image]. done.
Qed.

(** Whatever the effects of its requests keep, a batch keeps, in both
    modes and under every schedule. *)
Lemma batch_keeps (G : event → Prop) (I : World → Prop)
    (sched : list nat) (batch : BatchGenerationRequest) (w : World) :
  (∀ ev w, I w → G ev → I (handle env ev w).2) →
  (∀ ev, batch_event batch ev → G ev) →
  I w → I (batch_images sched batch w).2.
Proof.
  intros Hkeeps HG Hw.
  assert (Hkeeps' : ∀ ev w, I w → G ev →
                            I (handle env ev w).2
                            ∧ any_reply ev (handle env ev w).1).
  { intros ev w0 Hw0 Hev. split; [by apply Hkeeps|done]. }
  unfold batch_generate_images. destruct (parallel batch).
  - match goal with
    | |- context [gather env sched ?tasks w] =>
        assert (Htasks : Forall (always G any_reply (λ _, True)) tasks)
    end.
    { apply Forall_fmap, Forall_forall. intros [i gen_request] Hin.
      eapply always_impl; [exact HG|].
      eapply always_mono; [|apply within_process_single_generation]; [done|].
      by eapply elem_of_enumerate_from. }
    destruct (gather_always G any_reply I Hkeeps' (λ _, True) sched _ w
                Htasks Hw) as [Hw' _].
    by destruct (gather env sched _ w).
  - refine (proj1 (run_always G any_reply I Hkeeps' (λ _, True) _ w _ Hw)).
    apply always_try_catch; [|done].
    eapply always_bind.
    + eapply always_impl; [exact HG|].
      apply (within_generate_sequentially batch (λ _, True)); [done| |done].
      intros i r Hin. by eapply elem_of_enumerate_from.
    + done.
Qed.

(** Every effect extends the trace by itself. *)
Lemma handle_keeps_trace (G : event → Prop) (w0 : World) ev w :
  (∃ tr, trace w = trace w0 ++ tr ∧ Forall G tr) → G ev →
  ∃ tr, trace (handle env ev w).2 = trace w0 ++ tr ∧ Forall G tr.
Proof.
  intros (tr & Htr & HG) Hev. exists (tr ++ [ev]).
  rewrite handle_trace, Htr, app_assoc. split; [done|].
  apply Forall_app. split; [done|]. by constructor.
Qed.

(** What holds of every response a request of the batch can get holds of
    every result the batch reports. *)
Lemma batch_results_keep (P : GenerationResponse → Prop)
    (sched : list nat) (batch : BatchGenerationRequest) (w : World) :
  (∀ gen_request response,
     gen_request ∈ requests batch →
     (cached response = true → use_cache gen_request = true) →
     P response) →
  ∀ response,
    (batch_images sched batch w).1 = inr response →
    Forall (λ result, ∀ r, result = Some r → P r) (results response).
Proof.
  intros HP response.
  assert (Hkeeps : ∀ ev w, True → batch_event batch ev →
                           True ∧ any_reply ev (handle env ev w).1) by done.
  unfold batch_generate_images. destruct (parallel batch).
  - match goal with
    | |- context [gather env sched ?tasks w] =>
        assert (Htasks :
                  Forall (always (batch_event batch) any_reply
                            (λ item, ∀ r, item.1.2 = Some r → P r)) tasks)
    end.
    { apply Forall_fmap, Forall_forall. intros [i gen_request] Hin.
      apply elem_of_enumerate_from in Hin.
      eapply always_mono;
        [|by apply within_process_single_generation].
      intros item Hitem r Hr. apply (HP gen_request); [done|].
      by apply Hitem. }
    destruct (gather_always (batch_event batch) any_reply (λ _, True) Hkeeps
                _ sched _ w Htasks I) as [_ Hitems].
    destruct (gather env sched _ w) as [completed w']. cbn [fst snd] in *.
    intros [= <-]. rewrite foldl_collect_item. simpl.
    apply Forall_fmap. eapply Forall_impl; [exact Hitems|].
    intros [e|[[i [r|]] error]] Hitem r' Hr'; simpl in Hr'; try done.
    injection Hr' as <-. by eapply Hitem.
  - rewrite run_try_catch, run_bind.
    match goal with
    | |- context [run env ?p w] =>
        destruct (run_always (batch_event batch) any_reply (λ _, True) Hkeeps
                    (λ acc', Forall (λ result, ∀ r, result = Some r → P r)
                                    (acc_results acc')) p w) as [_ Hacc]
    end.
    { apply within_generate_sequentially; [done| |done].
      intros i r Hin. by eapply elem_of_enumerate_from. }
    { done. }
    destruct (run env (generate_sequentially _ _ _ _ _ _) w)
      as [[e|acc] w']; cbn [fst snd] in *; [by intros [=]|].
    intros [= <-]. by apply Hacc.
Qed.

(** X5. A request with [use_cache] unset never touches the cache: its run
    performs no lookup, store or delete, leaves the cache as it was, and
    its response is never flagged as cached.  The same holds for a batch
    of such requests, in both modes and under every schedule. *)
Theorem use_cache_false_bypasses_the_cache :
  (∀ (request : GenerationRequest) (w : World),
     use_cache request = false →
     let out := run env (gen_image request) w in
     generation_cache out.2 = generation_cache w
     ∧ (∃ tr, trace out.2 = trace w ++ tr
              ∧ Forall (λ ev, is_cache ev = false) tr)
     ∧ ∀ response, out.1 = inr response → cached response = false)
  ∧ (∀ (sched : list nat) (batch : BatchGenerationRequest) (w : World),
       Forall (λ request, use_cache request = false) (requests batch) →
       let out := batch_images sched batch w in
       generation_cache out.2 = generation_cache w
       ∧ (∃ tr, trace out.2 = trace w ++ tr
                ∧ Forall (λ ev, is_cache ev = false) tr)
       ∧ ∀ response,
           out.1 = inr response →
           Forall (λ result, ∀ r, result = Some r → cached r = false)
                  (results response)).
Proof.
  set (I := λ w0 w : World,
         generation_cache w = generation_cache w0
         ∧ ∃ tr, trace w = trace w0 ++ tr
                 ∧ Forall (λ ev, is_cache ev = false) tr).
  assert (Hkeeps : ∀ w0 ev w, I w0 w → is_cache ev = false →
                              I w0 (handle env ev w).2).
  { intros w0 ev w [Hcache Htr] Hev. split.
    - rewrite <-Hcache. by destruct ev.
    - by apply handle_keeps_trace. }
  assert (Hstart : ∀ w, I w w).
  { intros w. split; [done|]. exists []. by rewrite app_nil_r. }
  split.
  - intros request w Huse out.
    assert (HG : ∀ ev, handler_event request ev → is_cache ev = false).
    { intros [] Hev; simpl in *; try done; destruct Hev; congruence. }
    destruct (request_keeps _ (I w) request w (Hkeeps w) HG (Hstart w))
      as [Hcache Htr].
    split; [exact Hcache|]. split; [exact Htr|].
    intros response Hout.
    destruct (run_always (handler_event request) any_reply (λ _, True)
                (λ _ _ _ _, conj Logic.I Logic.I)
                _ (gen_image request) w (within_generate_image request)
                Logic.I) as [_ Hresp].
    specialize (Hresp response Hout). simpl in Hresp.
    destruct (cached response); [|done]. rewrite Hresp in Huse; done.
  - intros sched batch w Huse out.
    assert (HG : ∀ ev, batch_event batch ev → is_cache ev = false).
    { intros ev (request & Hin & Hev).
      pose proof (proj1 (Forall_forall _ _) Huse request Hin) as Hr.
      simpl in Hr.
      destruct ev; simpl in *; try done; destruct Hev; congruence. }
    destruct (batch_keeps _ (I w) sched batch w (Hkeeps w) HG (Hstart w))
      as [Hcache Htr].
    split; [exact Hcache|]. split; [exact Htr|].
    apply batch_results_keep. intros gen_request response Hin Hresp.
    pose proof (proj1 (Forall_forall _ _) Huse gen_request Hin) as Hr.
    simpl in Hr. destruct (cached response); [|done].
    rewrite Hresp in Hr; done.
Qed.

(** X6. A request leaves the cache entries of every key other than its
    own as they are, and so does a batch for every key that is the key
    of none of its requests, in both modes and under every schedule. *)
Theorem other_cache_keys_are_untouched (key : string) :
  (∀ (request : GenerationRequest) (w : World),
     key ≠ cache_key request →
     generation_cache (run env (gen_image request) w).2 !! key
     = generation_cache w !! key)
  ∧ (∀ (sched : list nat) (batch : BatchGenerationRequest) (w : World),
       Forall (λ request, key ≠ cache_key request) (requests batch) →
       generation_cache (batch_images sched batch w).2 !! key
       = generation_cache w !! key).
Proof.
  set (G := λ ev, match ev with
                  | CacheStore k _ | CacheDelete k => k ≠ key
                  | _ => True
                  end).
  assert (Hkeeps : ∀ (w0 : World) ev w,
            generation_cache w !! key = generation_cache w0 !! key → G ev →
            generation_cache (handle env ev w).2 !! key
            = generation_cache w0 !! key).
  { intros w0 ev w Hw Hev. rewrite <-Hw.
    destruct ev; simpl in *; try done.
    - by apply lookup_insert_ne.
    - by apply lookup_delete_ne. }
  split.
  - intros request w Hkey.
    apply (request_keeps G (λ w', generation_cache w' !! key
                                  = generation_cache w !! key));
      [apply Hkeeps| |done].
    intros [] Hev; simpl in *; try done; destruct Hev as (_ & -> & _) || 
      destruct Hev as (_ & ->); by apply not_eq_sym.
  - intros sched batch w Hkey.
    apply (batch_keeps G (λ w', generation_cache w' !! key
                                = generation_cache w !! key));
      [apply Hkeeps| |done].
    intros ev (request & Hin & Hev).
    pose proof (proj1 (Forall_forall _ _) Hkey request Hin) as Hr.
    simpl in Hr.
    destruct ev; simpl in *; try done; destruct Hev as (_ & -> & _) ||
      destruct Hev as (_ & ->); by apply not_eq_sym.
Qed.

(** X7. Every row the handler writes is in one of three shapes: in
    flight ([processing], nothing filled in), [completed] with parameters,
    score, duration and completion time, or [failed] with its error
    message.  A table whose rows have these shapes keeps them, and never
    loses a row, through every request and every batch, in both modes and
    under every schedule; in particular no row is ever [pending]. *)
Theorem stored_rows_keep_their_shape :
  (∀ g, row_ok g → g_status g ∈ ["processing"; "completed"; "failed"])
  ∧ (∀ (request : GenerationRequest) (w : World),
       Forall row_ok (generations w) →
       let out := run env (gen_image request) w in
       Forall row_ok (generations out.2)
       ∧ (length (generations w) ≤ length (generations out.2))%nat)
  ∧ (∀ (sched : list nat) (batch : BatchGenerationRequest) (w : World),
       Forall row_ok (generations w) →
       let out := batch_images sched batch w in
       Forall row_ok (generations out.2)
       ∧ (length (generations w) ≤ length (generations out.2))%nat).
Proof.
  set (G := λ ev, match ev with
                  | DbInsert g | DbCommit _ g => row_ok g
                  | _ => True
                  end).
  set (I := λ w0 w : World,
         Forall row_ok (generations w)
         ∧ (length (generations w0) ≤ length (generations w))%nat).
  assert (Hkeeps : ∀ w0 ev w, I w0 w → G ev → I w0 (handle env ev w).2).
  { subst I. intros w0 ev w [Hrows Hlen] Hev.
    destruct ev; simpl in *; try done.
    - split; [apply Forall_app; by split; [|constructor]|].
      rewrite length_app. simpl. lia.
    - split; [by apply Forall_insert|]. by rewrite length_insert. }
  split; [|split].
  - intros g (_ & [(-> & _)|[(-> & _)|(-> & _)]]);
      rewrite !elem_of_cons; auto.
  - intros request w Hrows out.
    apply (request_keeps G (I w)); [apply Hkeeps| |by split].
    intros [] Hev; simpl in *; try done; by destruct Hev as (_ & _ & ?).
  - intros sched batch w Hrows out.
    apply (batch_keeps G (I w)); [apply Hkeeps| |by split].
    intros ev (request & _ & Hev).
    destruct ev; simpl in *; try done; by destruct Hev as (_ & _ & ?).
Qed.

(** ** How the endpoints fail *)




(** ** Batch in sequential mode, going on after failures *)

(** What the sequential loop records for the outcome of request [i]. *)
Definition as_item (i : Z) (r : Exception + GenerationResponse)
  : Exception + Z * option GenerationResponse * option string :=
  match r with
  | inr response => inr (i, Some response, None)
  | inl e => inr (i, None, Some (failed_msg i e))
  end.

Definition items_of (start : Z) (rs : list (Exception + GenerationResponse))
  : list (Exception + Z * option GenerationResponse * option string) :=
  (λ '(i, r), as_item i r) <$> enumerate_from start rs.

Lemma run_each_length {A : Type} (ps : list (prog A)) :
  ∀ w, length (run_each env ps w).1 = length ps.
Proof.
  induction ps as [|p ps IH]; intros w; [done|]. simpl.
  destruct (run env p w) as [r w1]. specialize (IH w1).
  destruct (run_each env ps w1) as [rs w']. simpl in *. by rewrite IH.
Qed.

Lemma run_generate_sequentially_continue batch :
  continue_on_error batch = true →
  ∀ (reqs : list GenerationRequest) (start : Z) acc w,
    let ran := run_each env (gen_image <$> reqs) w in
    run env (sequentially batch (enumerate_from start reqs) acc) w
    = (inr (foldl collect acc (items_of start ran.1)), ran.2).
Proof.
  intros Hcoe. induction reqs as [|gen_request reqs IH];
    intros start acc w; [done|].
  cbn [enumerate_from fmap list_fmap run_each].
  rewrite run_generate_sequentially_cons.
  destruct (run env (gen_image gen_request) w) as [[e|result] w1].
  - rewrite Hcoe. cbn [negb]. rewrite IH.
    by destruct (run_each env (gen_image <$> reqs) w1).
  - rewrite IH. by destruct (run_each env (gen_image <$> reqs) w1).
Qed.

Lemma item_result_items_of rs :
  ∀ start, item_result <$> items_of start rs = result_of <$> rs.
Proof.
  unfold items_of.
  induction rs as [|r rs IH]; intros start; [done|].
  cbn [enumerate_from fmap list_fmap]. f_equal; [by destruct r|apply IH].
Qed.

(** X9. In sequential mode with [continue_on_error] set the batch call
    always returns: the requests are run one after the other, each to
    its end, a failure does not stop the ones after it, and the response
    reports the outcomes in request order, [results] holding the
    responses and [errors] the failures, tagged with their position. *)
Theorem sequential_batch_continues_past_failures
    (batch : BatchGenerationRequest) (sched : list nat) (w : World) :
  parallel batch = false →
  continue_on_error batch = true →
  let ran := run_each env (gen_image <$> requests batch) w in
  ∃ response : BatchGenerationResponse,
    batch_images sched batch w = (inr response, ran.2)
    ∧ total response = Z.of_nat (length (requests batch))
    ∧ results response = result_of <$> ran.1
    ∧ length (errors response) = length (requests batch)
    ∧ (∀ (i : nat) r,
         ran.1 !! i = Some r →
         errors response !! i
         = Some (match r with
                 | inr _ => None
                 | inl e => Some (failed_msg (Z.of_nat i) e)
                 end))
    ∧ successful response
      = Z.of_nat (length (filter is_Some (results response)))
    ∧ successful response + failed response = total response.
Proof.
  intros Hseq Hcoe ran. unfold batch_generate_images, enumerate.
  rewrite Hseq, run_try_catch, run_bind.
  rewrite (run_generate_sequentially_continue batch Hcoe). cbn zeta.
  fold ran. cbn [fst snd run]. eexists. split; [reflexivity|].
  rewrite foldl_collect_item. unfold batch_response. simpl.
  pose proof (run_each_length (gen_image <$> requests batch) w) as Hlen.
  fold ran in Hlen. rewrite length_fmap in Hlen.
  assert (Hitems : length (items_of 0 ran.1) = length (requests batch)).
  { unfold items_of. by rewrite length_fmap, enumerate_from_length. }
  pose proof (length_filter (λ item, is_Some (item_result item))
                (items_of 0 ran.1)) as Hle.
  fold (count_successes (items_of 0 ran.1)) in Hle.
  split; [done|]. split; [apply item_result_items_of|].
  split; [by rewrite length_fmap|]. split; [|split].
  - intros i r Hr. unfold items_of.
    rewrite !list_lookup_fmap, enumerate_from_lookup, Hr. simpl.
    by destruct r.
  - by rewrite <-count_successes_results.
  - lia.
Qed.

(** ** A batch of one *)

Lemma resume_then_run {A : Type} (p : prog A) :
  ∀ w, drain env [(resume env p w).1] (resume env p w).2
       = ([(run env p w).1], (run env p w).2).
Proof.
  induction p as [a|e|ev k IH]; intros w; [done|done|].
  simpl. destruct (handle env ev w) as [x w'].
  destruct (is_await ev); [|apply IH].
  simpl. by destruct (run env (k x) w').
Qed.

Lemma interleave_singleton {A : Type} (sched : list nat) :
  ∀ (t : task_state A) w,
    drain env (interleave env sched [t] w).1 (interleave env sched [t] w).2
    = drain env [t] w.
Proof.
  induction sched as [|choice sched IH]; intros t w; [done|].
  destruct t as [p|r]; [|done].
  cbn [interleave pending_from is_pending length].
  rewrite Nat.mod_1_r. cbn [nth]. unfold resume_at. cbn [lookup list_lookup].
  pose proof (resume_then_run p w) as Hp.
  destruct (resume env p w) as [t' w']. cbn [fst snd] in Hp.
  cbn [list_insert insert]. rewrite IH, Hp. simpl.
  by destruct (run env p w).
Qed.

(** A single task is not affected by the schedule. *)
Lemma gather_singleton {A : Type} (sched : list nat) (p : prog A) w :
  gather env sched [p] w = ([(run env p w).1], (run env p w).2).
Proof.
  unfold gather. cbn [fmap list_fmap].
  pose proof (interleave_singleton sched (Pending p) w) as Hi.
  destruct (interleave env sched [Pending p] w) as [ts w1].
  cbn [fst snd] in Hi. rewrite Hi. simpl. by destruct (run env p w).
Qed.

Lemma run_process_single_generation batch gen_request index w :
  continue_on_error batch = true →
  run env (single batch gen_request index) w
  = (as_item index (run env (gen_image gen_request) w).1,
     (run env (gen_image gen_request) w).2).
Proof.
  intros Hcoe. unfold process_single_generation.
  rewrite run_try_catch, run_bind.
  destruct (run env (gen_image gen_request) w) as [[e|result] w1];
    [|done].
  by rewrite Hcoe.
Qed.

(** X10. For a batch of one request with [continue_on_error] set the
    [parallel] flag makes no difference: under every schedule the
    parallel mode returns the response the sequential mode returns and
    leaves the same world, the one the request run alone leaves. *)
Theorem single_request_batch_modes_agree
    (gen_request : GenerationRequest) (sched sched' : list nat) (w : World) :
  let alone := run env (gen_image gen_request) w in
  batch_images sched (mkBatchGenerationRequest [gen_request] true true) w
  = batch_images sched' (mkBatchGenerationRequest [gen_request] false true) w
  ∧ (batch_images sched (mkBatchGenerationRequest [gen_request] true true) w).2
    = alone.2
  ∧ ∃ response,
      (batch_images sched
         (mkBatchGenerationRequest [gen_request] true true) w).1
      = inr response
      ∧ total response = 1
      ∧ results response = [result_of alone.1].
Proof.
  intros alone.
  assert (Hpar :
            batch_images sched
              (mkBatchGenerationRequest [gen_request] true true) w
            = (inr (batch_response
                      (mkBatchGenerationRequest [gen_request] true true)
                      (foldl collect empty_acc [as_item 0 alone.1])),
               alone.2)).
  { unfold batch_generate_images, enumerate.
    cbn [parallel requests enumerate_from fmap list_fmap].
    rewrite gather_singleton, run_process_single_generation by done.
    reflexivity. }
  assert (Hseq :
            batch_images sched'
              (mkBatchGenerationRequest [gen_request] false true) w
            = (inr (batch_response
                      (mkBatchGenerationRequest [gen_request] false true)
                      (foldl collect empty_acc [as_item 0 alone.1])),
               alone.2)).
  { unfold batch_generate_images, enumerate.
    cbn [parallel requests]. rewrite run_try_catch, run_bind.
    rewrite run_generate_sequentially_continue by done. cbn zeta.
    cbn [fmap list_fmap run_each]. fold alone.
    by destruct alone as [r w1]. }
  rewrite Hpar, Hseq. split; [done|]. split; [done|].
  eexists. split; [reflexivity|]. split; [done|].
  simpl. by destruct alone.1.
Qed.

(** ** Cache administration *)

Lemma length_filter_values {V : Type} (P : V → Prop)
    `{!∀ v, Decision (P v)} (m : gmap string V) :
  length (filter P (map_to_list m).*2) = size (filter (λ kv, P kv.2) m).
Proof.
  induction m as [|k v m Hk Hfirst IH] using map_first_key_ind.
  - by rewrite map_filter_empty, map_to_list_empty, map_size_empty.
  - rewrite map_to_list_insert_first_key, fmap_cons by done.
    destruct (decide (P v)) as [Hv|Hv].
    + rewrite map_filter_insert_True by done.
      rewrite filter_cons_True by done.
      rewrite map_size_insert_None, length_cons, IH; [done|].
      apply map_lookup_filter_None. by left.
    + rewrite map_filter_insert_False by done.
      rewrite delete_id by done.
      rewrite filter_cons_False by done. apply IH.
Qed.

Lemma length_filter_partition {V : Type} (P Q : V → Prop)
    `{!∀ v, Decision (P v)} `{!∀ v, Decision (Q v)} (l : list V) :
  (∀ v, P v ↔ ¬ Q v) →
  (length (filter P l) + length (filter Q l) = length l)%nat.
Proof.
  intros HPQ. induction l as [|v l IH]; [done|].
  destruct (decide (Q v)) as [Hv|Hv].
  - rewrite (filter_cons_True Q) by done.
    rewrite (filter_cons_False P) by (by rewrite HPQ; auto).
    simpl. lia.
  - rewrite (filter_cons_False Q) by done.
    rewrite (filter_cons_True P) by (by rewrite HPQ).
    simpl. lia.
Qed.

Lemma run_generate_image_not_cached request w response w' :
  cache_hit request w = None →
  run env (gen_image request) w = (inr response, w') →
  cached response = false.
Proof.
  intros Hmiss Hrun.
  rewrite (run_generate_image_miss request w Hmiss) in Hrun.
  cbn zeta in Hrun.
  destruct (run env (generate_with_retry _ _ _ _) _)
    as [[e|[[result|] rc]] w1]; cbn [fst snd] in Hrun;
    [discriminate Hrun| |discriminate Hrun].
  by injection Hrun as <- _.
Qed.

(** X11. [DELETE /cache] reports how many entries the cache held and
    leaves it empty, the rows untouched: cleared again it reports zero,
    its statistics are all zero, and every request that follows misses
    the cache and is generated afresh. *)
Theorem clear_cache_empties_the_cache (w : World) :
  let out := clear_cache w in
  cleared out.1 = Z.of_nat (size (generation_cache w))
  ∧ generation_cache out.2 = ∅
  ∧ generations out.2 = generations w
  ∧ cleared (clear_cache out.2).1 = 0
  ∧ (let stats := (get_cache_stats env out.2).1 in
     total_cached stats = 0 ∧ valid stats = 0 ∧ expired stats = 0)
  ∧ (∀ request, cache_hit request out.2 = None)
  ∧ (∀ request response w',
       run env (gen_image request) out.2 = (inr response, w') →
       cached response = false).
Proof.
  intros out. subst out. unfold clear_cache. cbn [fst snd cleared].
  assert (Hmiss : ∀ request, cache_hit request (set_cache ∅ w) = None).
  { intros request. unfold cache_hit, cache_check.
    destruct (use_cache request); [|done].
    cbn [generation_cache set_cache tick_clock log].
    by rewrite lookup_empty. }
  split; [done|]. split; [done|]. split; [done|].
  split; [by cbn [generation_cache set_cache]; rewrite map_size_empty|].
  split.
  { unfold get_cache_stats. cbn [handle fst generation_cache set_cache].
    rewrite map_to_list_empty, map_size_empty. by simpl. }
  split; [exact Hmiss|].
  intros request response w' Hrun.
  by eapply run_generate_image_not_cached.
Qed.

(** X12. [GET /cache/stats] counts every entry as valid or as expired:
    valid are the entries younger than the TTL at the clock reading of
    the call, the ones a lookup made then would still serve, expired the
    others, and the two add up to the total.  The call evicts nothing:
    expired entries stay in the cache, and the rows are untouched. *)
Theorem cache_stats_count_what_a_lookup_would_serve (w : World) :
  let now := utcnow_at env (clock_reads w) in
  let out := get_cache_stats env w in
  let stats := out.1 in
  total_cached stats = Z.of_nat (size (generation_cache w))
  ∧ valid stats
    = Z.of_nat (size (filter (λ kv, now - timestamp kv.2 < CACHE_TTL)
                             (generation_cache w)))
  ∧ expired stats
    = Z.of_nat (size (filter (λ kv, CACHE_TTL ≤ now - timestamp kv.2)
                             (generation_cache w)))
  ∧ valid stats + expired stats = total_cached stats
  ∧ 0 ≤ valid stats ∧ 0 ≤ expired stats
  ∧ (ttl_hours stats == 1)%Q
  ∧ generation_cache out.2 = generation_cache w
  ∧ generations out.2 = generations w
  ∧ (∀ key entry,
       generation_cache w !! key = Some entry →
       (run env (_get_cached_result key) w).1 = inr (Some (data entry))
       ↔ now - timestamp entry < CACHE_TTL).
Proof.
  intros now out stats. subst stats out. unfold get_cache_stats.
  cbn [handle fst snd total_cached valid expired ttl_hours
       generation_cache generations tick_clock log].
  fold now.
  pose proof (length_filter_partition
                (λ cached, now - timestamp cached < CACHE_TTL)
                (λ cached, CACHE_TTL ≤ now - timestamp cached)
                (map_to_list (generation_cache w)).*2) as Hsplit.
  rewrite length_fmap, length_map_to_list in Hsplit.
  rewrite !length_filter_values in *.
  assert (Hiff : ∀ cached : CacheEntry,
            now - timestamp cached < CACHE_TTL
            ↔ ¬ CACHE_TTL ≤ now - timestamp cached) by (intros; lia).
  specialize (Hsplit Hiff).
  split; [done|]. split; [lia|]. split; [done|]. split; [lia|].
  split; [lia|]. split; [lia|]. split; [by vm_compute|].
  split; [done|]. split; [done|].
  intros key entry Hentry. rewrite run_get_cached_result, Hentry. cbn zeta.
  fold now. destruct (bool_decide (now - timestamp entry < CACHE_TTL)) eqn:Hage.
  - apply bool_decide_eq_true in Hage. by split.
  - apply bool_decide_eq_false in Hage. split; [by intros [=]|done].
Qed.

(** ** Reading a generation back *)

Lemma head_filter_enumerate_from {A : Type} (id : Z) (l : list A) :
  ∀ start,
    head (filter (λ row, row.1 = id) (enumerate_from start l))
    = if bool_decide (start ≤ id)
      then (λ x, (id, x)) <$> l !! Z.to_nat (id - start)
      else None.
Proof.
  induction l as [|x l IH]; intros start.
  - by destruct (bool_decide _).
  - cbn [enumerate_from]. destruct (decide (start = id)) as [->|Hne].
    + rewrite filter_cons_True by done.
      rewrite bool_decide_eq_true_2 by lia.
      by replace (Z.to_nat (id - id)) with 0%nat by lia.
    + rewrite filter_cons_False by done. rewrite IH.
      destruct (decide (start ≤ id)).
      * rewrite !bool_decide_eq_true_2 by lia.
        by replace (Z.to_nat (id - start))
          with (S (Z.to_nat (id - (start + 1)))) by lia.
      * by rewrite !bool_decide_eq_false_2 by lia.
Qed.

Lemma get_generation_lookup id w :
  get_generation id w
  = if bool_decide (1 ≤ id)
    then match generations w !! row_of_id id with
         | Some g => inr (detail_of (id, g))
         | None => inl (HTTPException 404 "Generation not found")
         end
    else inl (HTTPException 404 "Generation not found").
Proof.
  unfold get_generation, query_Generation, row_of_id.
  rewrite head_filter_enumerate_from.
  destruct (bool_decide (1 ≤ id)); [|done].
  by destruct (generations w !! Z.to_nat (id - 1)).
Qed.

(** The table after a request that missed the cache: one more row, the
    request's, in its terminal state. *)
Lemma generate_image_miss_row request w :
  cache_hit request w = None →
  let out := run env (gen_image request) w in
  ∃ gT,
    generations out.2 = generations w ++ [gT]
    ∧ g_prompt gT = prompt request ∧ g_mode gT = mode request
    ∧ g_user_id gT = user_id request ∧ g_project_id gT = project_id request
    ∧ is_Some (g_created_at gT)
    ∧ match out.1 with
      | inr response =>
          rd_id (resp_data response) = next_id w
          ∧ rd_status (resp_data response) = "completed"
          ∧ g_status gT = "completed"
          ∧ g_result_url gT = rd_image_url (resp_data response)
          ∧ g_parameters gT = Some (rd_parameters (resp_data response))
          ∧ g_quality_score gT = rd_quality_score (resp_data response)
          ∧ g_generation_time gT
            = rd_generation_time (resp_data response)
          ∧ g_error_message gT = None
      | inl e =>
          g_status gT = "failed" ∧ g_result_url gT = None
          ∧ g_quality_score gT = None
          ∧ ∃ cause,
              e = HTTPException 500 ("Generation failed: " +:+ str cause)
              ∧ g_error_message gT = Some (str cause)
      end.
Proof.
  intros Hmiss out. subst out.
  rewrite (run_generate_image_miss request w Hmiss). cbn zeta.
  destruct (at_loop_start_state request w) as (Hgens & _).
  destruct (run_generate_with_retry_frame
              (resolve env request (intent_calls w)).1
              (max_retries request) (seqZ 0 (max_retries request + 1)) 0
              (at_loop_start request w)) as (n & tr & Hw1 & _).
  destruct (run env (generate_with_retry _ _ _ _) _)
    as [[e|[[result|] rc]] w1]; cbn [fst snd] in *; subst w1.
  - eexists. simpl. rewrite Hgens, row_of_next_id, insert_last.
    split; [reflexivity|]. simpl. repeat split; try done; by eexists.
  - eexists. unfold after_success.
    destruct (use_cache request); simpl;
      rewrite Hgens, row_of_next_id, insert_last;
      (split; [reflexivity|]); simpl; repeat split; try done; by eexists.
  - eexists. simpl. rewrite Hgens, row_of_next_id, insert_last.
    split; [reflexivity|]. simpl. repeat split; try done; by eexists.
Qed.


(** ** The upstream calls of a batch *)

Lemma calls_le_mono {A : Type} (p : prog A) :
  ∀ n m, (n ≤ m)%nat → calls_le n p → calls_le m p.
Proof.
  induction p as [a|e|ev k IH]; intros n m Hnm; [done|done|].
  simpl. intros [Hpos Hk]. split; [intros Hev; specialize (Hpos Hev); lia|].
  intros x. eapply IH; [|apply Hk]. destruct (is_api ev); lia.
Qed.

Lemma calls_le_bind {A B : Type} (p : prog A) (f : A → prog B) :
  ∀ n m,
    calls_le n p → (∀ a, calls_le m (f a)) → calls_le (n + m) (p ≫= f).
Proof.
  induction p as [a|e|ev k IH]; intros n m Hp Hf.
  - eapply calls_le_mono; [|apply Hf]. lia.
  - done.
  - destruct Hp as [Hpos Hk].
    change (calls_le (n + m) (Vis ev (λ x, k x ≫= f))).
    simpl. split; [intros Hev; specialize (Hpos Hev); lia|].
    intros x. specialize (IH x _ m (Hk x) Hf).
    destruct (is_api ev) eqn:Hev; [|done].
    specialize (Hpos eq_refl).
    by replace (pred (n + m)) with (pred n + m)%nat by lia.
Qed.

Lemma calls_le_try_catch {A : Type} (p : prog A) (h : Exception → prog A) :
  ∀ n m,
    calls_le n p → (∀ e, calls_le m (h e)) →
    calls_le (n + m) (try_catch p h).
Proof.
  induction p as [a|e|ev k IH]; intros n m Hp Hh.
  - done.
  - eapply calls_le_mono; [|apply Hh]. lia.
  - destruct Hp as [Hpos Hk].
    simpl. split; [intros Hev; specialize (Hpos Hev); lia|].
    intros x. specialize (IH x _ m (Hk x) Hh).
    destruct (is_api ev) eqn:Hev; [|done].
    specialize (Hpos eq_refl).
    by replace (pred (n + m)) with (pred n + m)%nat by lia.
Qed.

Lemma calls_le_generate_with_retry args max_retries attempts :
  ∀ retry_count,
    calls_le (length attempts)
             (generate_with_retry args max_retries attempts retry_count).
Proof.
  induction attempts as [|attempt rest IH]; intros rc; [done|].
  cbn [generate_with_retry length].
  apply (calls_le_bind _ _ 1 (length rest)).
  - apply (calls_le_try_catch _ _ 1 0); [|done].
    apply (calls_le_bind _ _ 1 0); [|done].
    unfold fibo_generate. simpl. split; [lia|]. by intros [e|img].
  - intros [e|result]; [|done].
    destruct (bool_decide (attempt < max_retries)); [|done].
    simpl. split; [done|]. intros _. apply IH.
Qed.

Lemma calls_le_resolve_and_generate request :
  calls_le (call_budget request) (resolve_and_generate request).
Proof.
  assert (Hlen : length (seqZ 0 (max_retries request + 1))
                 = call_budget request) by apply length_seqZ.
  unfold resolve_and_generate. destruct (bool_decide _).
  - apply (calls_le_bind _ _ 0 (call_budget request)).
    + apply (calls_le_try_catch _ _ 0 0); [|done].
      unfold analyze_intent. simpl. split; [done|]. by intros [e|ia].
    + intros [params reasoning].
      replace (call_budget request) with (call_budget request + 0)%nat
        by lia.
      apply calls_le_bind; [|by intros [result rc]].
      rewrite <-Hlen. apply calls_le_generate_with_retry.
  - replace (call_budget request) with (call_budget request + 0)%nat by lia.
    apply calls_le_bind; [|by intros [result rc]].
    rewrite <-Hlen. apply calls_le_generate_with_retry.
Qed.

Lemma calls_le_generate_image request :
  calls_le (call_budget request) (gen_image request).
Proof.
  unfold generate_image.
  apply (calls_le_bind _ _ 0 (call_budget request)).
  - apply (calls_le_try_catch _ _ 0 0); [|done].
    unfold begin_generation. simpl. split; [done|]. intros start_time.
    destruct (use_cache request); simpl.
    + split; [done|]. intros [cached|]; simpl.
      * split; [done|]. intros now.
        destruct (bool_decide _); simpl; [done|].
        split; [done|]. intros _. simpl. split; [done|]. intros t.
        split; [done|]. by intros id.
      * split; [done|]. intros t. split; [done|]. by intros id.
    + split; [done|]. intros t. split; [done|]. by intros id.
  - intros [response|[[[start_time key] id] generation]]; [done|].
    replace (call_budget request) with (call_budget request + 0)%nat by lia.
    apply calls_le_try_catch.
    + unfold generate_image_body.
      replace (call_budget request) with (call_budget request + 0)%nat
        by lia.
      apply calls_le_bind; [apply calls_le_resolve_and_generate|].
      intros [[result rc] reasoning]. simpl. split; [done|]. intros end_time.
      destruct result as [result|]; [|done].
      simpl. split; [done|]. intros _.
      destruct (use_cache request); simpl; [|done].
      split; [done|]. intros now. split; [done|]. by intros _.
    + intros e. simpl. split; [done|]. by intros _.
Qed.

Lemma calls_le_process_single_generation batch gen_request index :
  calls_le (call_budget gen_request) (single batch gen_request index).
Proof.
  unfold process_single_generation.
  replace (call_budget gen_request) with (call_budget gen_request + 0)%nat
    by lia.
  apply calls_le_try_catch.
  - replace (call_budget gen_request) with (call_budget gen_request + 0)%nat
      by lia.
    apply calls_le_bind; [apply calls_le_generate_image|done].
  - intros e. by destruct (negb _).
Qed.

Lemma calls_le_generate_sequentially batch items :
  ∀ acc,
    calls_le (sum_list (call_budget <$> items.*2))
             (sequentially batch items acc).
Proof.
  induction items as [|[i gen_request] rest IH]; intros acc; [done|].
  cbn [generate_sequentially fmap list_fmap sum_list sum_list_with snd].
  apply calls_le_bind.
  - replace (call_budget gen_request)
      with (call_budget gen_request + 0)%nat by lia.
    apply calls_le_try_catch; [|done].
    replace (call_budget gen_request)
      with (call_budget gen_request + 0)%nat by lia.
    apply calls_le_bind; [apply calls_le_generate_image|done].
  - intros [e|result]; [|apply IH].
    destruct (negb _); [done|apply IH].
Qed.

(** A program that may call [n] times calls at most [n] times. *)
Lemma run_calls_le {A : Type} (p : prog A) :
  ∀ n w, calls_le n p → (api_calls (run env p w).2 ≤ api_calls w + n)%nat.
Proof.
  induction p as [a|e|ev k IH]; intros n w Hp; simpl; [lia|lia|].
  destruct Hp as [Hpos Hk].
  destruct (handle env ev w) as [x w'] eqn:Hhandle.
  specialize (IH x _ w' (Hk x)).
  assert (Hcalls : api_calls w'
                   = (api_calls w + if is_api ev then 1 else 0)%nat).
  { destruct ev; simpl in Hhandle; injection Hhandle as _ <-; simpl; lia. }
  rewrite Hcalls in IH. destruct (is_api ev); [|lia].
  specialize (Hpos eq_refl). lia.
Qed.

(** One turn of a task spends some of its budget and keeps the rest. *)
Lemma resume_calls_le {A : Type} (p : prog A) :
  ∀ n w,
    calls_le n p →
    ∃ n', task_calls_le n' (resume env p w).1
          ∧ (api_calls (resume env p w).2 + n' ≤ api_calls w + n)%nat.
Proof.
  induction p as [a|e|ev k IH]; intros n w Hp; simpl.
  - exists 0%nat. split; [done|]. lia.
  - exists 0%nat. split; [done|]. lia.
  - destruct Hp as [Hpos Hk].
    destruct (handle env ev w) as [x w'] eqn:Hhandle.
    assert (Hcalls : api_calls w'
                     = (api_calls w + if is_api ev then 1 else 0)%nat).
    { destruct ev; simpl in Hhandle; injection Hhandle as _ <-; simpl; lia. }
    destruct (is_await ev).
    + exists (if is_api ev then pred n else n). split; [apply Hk|].
      simpl. rewrite Hcalls. destruct (is_api ev); [|lia].
      specialize (Hpos eq_refl). lia.
    + destruct (IH x _ w' (Hk x)) as (n' & Ht & Hle).
      exists n'. split; [done|]. rewrite Hcalls in Hle.
      destruct (is_api ev); [|lia]. specialize (Hpos eq_refl). lia.
Qed.

Lemma sum_list_insert (ns : list nat) (i : nat) (n n' : nat) :
  ns !! i = Some n →
  (sum_list (<[i := n']> ns) + n = sum_list ns + n')%nat.
Proof.
  revert i. induction ns as [|m ns IH]; intros i Hi; [done|].
  destruct i as [|i]; simpl in *.
  - injection Hi as ->. lia.
  - specialize (IH i Hi). lia.
Qed.

Lemma resume_at_calls_le {A : Type} i (ts : list (task_state A))
    (ns : list nat) w :
  Forall2 task_calls_le ns ts →
  ∃ ns',
    Forall2 task_calls_le ns' (resume_at env i ts w).1
    ∧ (api_calls (resume_at env i ts w).2 + sum_list ns'
       ≤ api_calls w + sum_list ns)%nat.
Proof.
  intros Hts. unfold resume_at.
  destruct (ts !! i) as [[p|r]|] eqn:Hi;
    [|exists ns; by split|exists ns; by split].
  destruct (Forall2_lookup_r _ _ _ _ _ Hts Hi) as (n & Hn & Hp).
  destruct (resume_calls_le p n w Hp) as (n' & Ht' & Hle).
  destruct (resume env p w) as [t' w']. simpl in *.
  exists (<[i := n']> ns). split; [by apply Forall2_insert|].
  pose proof (sum_list_insert ns i n n' Hn). lia.
Qed.

Lemma interleave_calls_le {A : Type} (sched : list nat) :
  ∀ (ts : list (task_state A)) (ns : list nat) w,
    Forall2 task_calls_le ns ts →
    ∃ ns',
      Forall2 task_calls_le ns' (interleave env sched ts w).1
      ∧ (api_calls (interleave env sched ts w).2 + sum_list ns'
         ≤ api_calls w + sum_list ns)%nat.
Proof.
  induction sched as [|choice sched IH]; intros ts ns w Hts; simpl.
  - exists ns. by split.
  - destruct (pending_from 0 ts) as [|i0 ps]; [exists ns; by split|].
    match goal with
    | |- context [resume_at env ?i ts w] =>
        destruct (resume_at_calls_le i ts ns w Hts) as (ns1 & Hts1 & Hle1);
        destruct (resume_at env i ts w) as [ts1 w1]
    end.
    simpl in *.
    destruct (IH ts1 ns1 w1 Hts1) as (ns' & Hts' & Hle').
    exists ns'. split; [done|]. lia.
Qed.

Lemma drain_calls_le {A : Type} (ts : list (task_state A)) :
  ∀ (ns : list nat) w,
    Forall2 task_calls_le ns ts →
    (api_calls (drain env ts w).2 ≤ api_calls w + sum_list ns)%nat.
Proof.
  induction ts as [|[p|r] ts IH]; intros ns w Hts.
  - simpl. lia.
  - apply Forall2_cons_inv_r in Hts as (n & ns' & Hp & Hts & ->).
    simpl. pose proof (run_calls_le p n w Hp) as Hrun.
    destruct (run env p w) as [r w1]. simpl in Hrun.
    specialize (IH ns' w1 Hts).
    destruct (drain env ts w1) as [rs w']. simpl in *. lia.
  - apply Forall2_cons_inv_r in Hts as (n & ns' & _ & Hts & ->).
    simpl. specialize (IH ns' w Hts).
    destruct (drain env ts w) as [rs w']. simpl in *. lia.
Qed.

Lemma gather_calls_le {A : Type} (sched : list nat) (tasks : list (prog A))
    (ns : list nat) w :
  Forall2 calls_le ns tasks →
  (api_calls (gather env sched tasks w).2 ≤ api_calls w + sum_list ns)%nat.
Proof.
  intros Htasks. unfold gather.
  assert (Hts : Forall2 task_calls_le ns (Pending <$> tasks)).
  { by apply Forall2_fmap_r. }
  destruct (interleave_calls_le sched _ ns w Hts) as (ns' & Hts' & Hle).
  destruct (interleave env sched _ w) as [ts1 w1]. simpl in *.
  pose proof (drain_calls_le ts1 ns' w1 Hts'). lia.
Qed.

Lemma call_budget_accepted request :
  accepts_GenerationRequest request = true → (call_budget request ≤ 6)%nat.
Proof.
  unfold accepts_GenerationRequest, call_budget.
  intros [_ Hm%bool_decide_eq_true]%andb_prop. lia.
Qed.

Lemma sum_list_le (ns : list nat) (b : nat) :
  Forall (λ n, (n ≤ b)%nat) ns → (sum_list ns ≤ b * length ns)%nat.
Proof. induction 1 as [|n ns Hn _ IH]; simpl; lia. Qed.

Lemma calls_le_tasks batch (reqs : list GenerationRequest) :
  ∀ start,
    Forall2 calls_le (call_budget <$> reqs)
            ((λ '(i, gen_request), single batch gen_request i)
               <$> enumerate_from start reqs).
Proof.
  induction reqs as [|gen_request reqs IH]; intros start; [constructor|].
  cbn [enumerate_from fmap list_fmap]. constructor; [|apply IH].
  apply calls_le_process_single_generation.
Qed.

Lemma snd_enumerate_from {A : Type} (l : list A) :
  ∀ start, (enumerate_from start l).*2 = l.
Proof.
  induction l as [|a l IH]; intros start; [done|].
  cbn [enumerate_from fmap list_fmap snd]. by rewrite IH.
Qed.

(** X25. A batch never calls the upstream more often than its requests
    have attempts: at most [max_retries + 1] times for each request,
    added up over the batch, in both modes and under every schedule of
    the parallel tasks.  For a batch that validation accepts this is at
    most six calls per request and three hundred in all. *)
Theorem batch_upstream_calls_are_bounded
    (sched : list nat) (batch : BatchGenerationRequest) (w : World) :
  let out := batch_images sched batch w in
  (api_calls out.2
   ≤ api_calls w + sum_list (call_budget <$> requests batch))%nat
  ∧ (accepts_BatchGenerationRequest batch = true →
     (api_calls out.2 ≤ api_calls w + 6 * length (requests batch))%nat
     ∧ (api_calls out.2 ≤ api_calls w + 300)%nat).
Proof.
  intros out.
  assert (Hcalls : (api_calls out.2
                    ≤ api_calls w
                      + sum_list (call_budget <$> requests batch))%nat).
  { subst out. unfold batch_generate_images. destruct (parallel batch).
    - match goal with
      | |- context [gather env sched ?tasks w] =>
          pose proof (gather_calls_le sched tasks
                        (call_budget <$> requests batch) w
                        (calls_le_tasks batch (requests batch) 0))
            as Hgather
      end.
      by destruct (gather env sched _ w) as [completed w'].
    - match goal with
      | |- context [run env ?p w] =>
          pose proof (run_calls_le p
                        (sum_list (call_budget <$> requests batch)) w)
            as Hrun
      end.
      apply Hrun.
      replace (sum_list (call_budget <$> requests batch))
        with (sum_list (call_budget <$> requests batch) + 0)%nat by lia.
      apply calls_le_try_catch; [|done].
      replace (sum_list (call_budget <$> requests batch))
        with (sum_list (call_budget <$> requests batch) + 0)%nat by lia.
      apply calls_le_bind; [|done].
      pose proof (calls_le_generate_sequentially batch
                    (enumerate (requests batch)) empty_acc) as Hseq.
      unfold enumerate in Hseq.
      by rewrite snd_enumerate_from in Hseq. }
  split; [exact Hcalls|].
  intros Hacc. unfold accepts_BatchGenerationRequest in Hacc.
  apply andb_prop in Hacc as [Hlen%bool_decide_eq_true Hitems].
  assert (Hsum : (sum_list (call_budget <$> requests batch)
                  ≤ 6 * length (requests batch))%nat).
  { rewrite <-(length_fmap call_budget). apply sum_list_le.
    apply Forall_fmap, Forall_forall. intros r Hr.
    apply call_budget_accepted.
    rewrite forallb_forall in Hitems. apply Hitems.
    by apply list_elem_of_In. }
  lia.
Qed.

(** ** Refinement *)

Section RefinementFacts.

Variable optimize_parameters :
  option (gmap string pyval) → string → option Q
  → Exception + option (gmap string pyval).
Variable refine :
  option string → gmap string pyval
  → Exception + option string * option (gmap string pyval).

Local Notation "'refine_gen'" :=
  (refine_generation str_HTTPException env optimize_parameters refine).

(** X14. Refining a generation either adds one row or changes nothing.
    An id that no row has is answered with 404 and a row without an
    image with 400, both as they are, not wrapped into a 500; a failure
    of the optimizer or of the refinement call becomes a 500 whose detail
    starts with [Refinement failed: ].  In all these cases the world is
    left as it was.  On success exactly one row is appended, the
    original row staying as it is: the new row is [completed], in mode
    [ai], for the same user and project, its prompt the original prompt
    followed by the refinement prompt, with the image and parameters the
    response reports and no quality score; the response carries its id. *)
Theorem refinement_adds_a_row_or_changes_nothing
    (generation_id : Z) (refinement_prompt : string) (w : World) :
  let out := refine_gen generation_id refinement_prompt w in
  (get_generation generation_id w
   = inl (HTTPException 404 "Generation not found") →
   out = (inl (HTTPException 404 "Generation not found"), w))
  ∧ (∀ detail,
       get_generation generation_id w = inr detail →
       truthy_str (gd_result_url detail) = false →
       out = (inl (HTTPException 400 "No image to refine"), w))
  ∧ (∀ e,
       out.1 = inl e →
       out.2 = w
       ∧ (e = HTTPException 404 "Generation not found"
          ∨ e = HTTPException 400 "No image to refine"
          ∨ ∃ cause,
              e = HTTPException 500 ("Refinement failed: " +:+ str cause)))
  ∧ (∀ response,
       out.1 = inr response →
       ∃ original refined,
         generations w !! row_of_id generation_id = Some original
         ∧ generations out.2 = generations w ++ [refined]
         ∧ generation_cache out.2 = generation_cache w
         ∧ rf_id response = next_id w
         ∧ rf_status response = "completed"
         ∧ g_status refined = "completed"
         ∧ g_mode refined = "ai"
         ∧ g_user_id refined = g_user_id original
         ∧ g_project_id refined = g_project_id original
         ∧ g_prompt refined
           = g_prompt original +:+ " (refined: " +:+ refinement_prompt
             +:+ ")"
         ∧ g_result_url refined = rf_image_url response
         ∧ g_parameters refined = rf_parameters response
         ∧ g_quality_score refined = None
         ∧ is_Some (g_completed_at refined)
         ∧ truthy_str (g_result_url original) = true).
Proof.
  intros out. subst out. unfold refine_generation.
  rewrite get_generation_lookup. unfold query_Generation.
  rewrite head_filter_enumerate_from. unfold row_of_id.
  destruct (bool_decide (1 ≤ generation_id)); cbn zeta.
  2:{ split; [done|]. split; [done|].
      split; [intros e [= <-]; auto|done]. }
  destruct (generations w !! Z.to_nat (generation_id - 1))
    as [original|] eqn:Horiginal; cbn [fmap option_fmap option_map].
  2:{ split; [done|]. split; [done|].
      split; [intros e [= <-]; auto|done]. }
  destruct (truthy_str (g_result_url original)) eqn:Himage; cbn [negb].
  2:{ split; [done|]. split; [done|].
      split; [intros e [= <-]; auto|done]. }
  split; [done|].
  split; [by intros detail [= <-]; simpl; rewrite Himage|].
  destruct (optimize_parameters _ _ _) as [e1|optimization].
  { split; [|done]. intros e [= <-]. split; [done|].
    right; right. by exists e1. }
  destruct (refine _ _) as [e2|[image_url parameters]].
  { split; [|done]. intros e [= <-]. split; [done|].
    right; right. by exists e2. }
  cbn [insert_refined db_add_commit_refresh mbind prog_bind bind trigger
       try_catch run handle mret prog_ret fst snd].
  split; [done|].
  intros response [= <-]. eexists original, _.
  split; [done|]. split; [reflexivity|]. by repeat split.
Qed.

End RefinementFacts.

(** ** The request's parameters in AI mode *)

Lemma generate_image_ai_mode r1 r2 :
  same_but_parameters r1 r2 →
  mode r1 = "ai" → use_cache r1 = false →
  gen_image r1 = gen_image r2.
Proof.
  destruct r1, r2. unfold same_but_parameters. simpl.
  intros (-> & -> & -> & -> & -> & ->) -> ->. reflexivity.
Qed.

(** X26. In AI mode the six optional parameters of the request play no
    part: of two requests that differ only in them, with the cache
    switched off, the handler does the same in every world, effect for
    effect; it gives the same answer and leaves the same rows and trace
    behind. *)
Theorem ai_mode_ignores_the_request_parameters
    (r1 r2 : GenerationRequest) (w : World) :
  same_but_parameters r1 r2 →
  mode r1 = "ai" → use_cache r1 = false →
  run env (gen_image r1) w = run env (gen_image r2) w.
Proof.
  intros Hsame Hmode Huse.
  by rewrite (generate_image_ai_mode r1 r2 Hsame Hmode Huse).
Qed.

(** ** The cache and the table *)

Lemma cache_backed_frame w w' :
  cache_backed w →
  (∀ i g, generations w !! i = Some g → generations w' !! i = Some g) →
  (∀ key entry,
     generation_cache w' !! key = Some entry →
     generation_cache w !! key = Some entry) →
  cache_backed w'.
Proof.
  intros Hw Hgens Hcache key entry Hentry.
  destruct (Hw key entry (Hcache _ _ Hentry)) as (Hid & g & Hg & Hrest).
  split; [done|]. exists g. split; [by apply Hgens|done].
Qed.

Lemma cache_hit_entry request w d :
  cache_hit request w = Some d →
  ∃ entry,
    generation_cache w !! cache_key request = Some entry ∧ d = data entry.
Proof.
  unfold cache_hit, cache_check. destruct (use_cache request); [|done].
  cbn [generation_cache tick_clock log].
  destruct (generation_cache w !! cache_key request) as [cached|]; [|done].
  cbn zeta. destruct (bool_decide _); [|done].
  intros [= <-]. by exists cached.
Qed.

Lemma cache_subset_of_frame (c c' : gmap string CacheEntry) (k : string) :
  c' = c ∨ c' = delete k c →
  ∀ key entry, c' !! key = Some entry → c !! key = Some entry.
Proof.
  intros [->| ->] key entry; [done|].
  by intros [_ ?]%lookup_delete_Some.
Qed.

Lemma run_generate_image_cache_backed request w :
  cache_backed w → cache_backed (run env (gen_image request) w).2.
Proof.
  intros Hw.
  destruct (after_cache_check_frame request w)
    as (tr0 & _ & _ & Hgens0 & _ & _ & Hcache0).
  destruct (cache_hit request w) as [d|] eqn:Hhit.
  { rewrite run_generate_image, Hhit. cbn [snd].
    apply (cache_backed_frame w); [done|by rewrite Hgens0|].
    by apply (cache_subset_of_frame _ _ (cache_key request)). }
  rewrite (run_generate_image_miss request w Hhit). cbn zeta.
  destruct (after_insert_frame request w)
    as (tr1 & _ & _ & Hgens1 & _ & _ & _ & Hcache1).
  destruct (after_resolve_frame request (after_insert request w))
    as (_ & Hgens2 & Hcache2 & _).
  fold (at_loop_start request w) in Hgens2, Hcache2.
  match goal with
  | |- context [run env (generate_with_retry ?args ?m ?attempts ?rc) ?w0] =>
      destruct (run_generate_with_retry_frame args m attempts rc w0)
        as (n & tr & Hloop & _);
      destruct (run env (generate_with_retry args m attempts rc) w0)
        as [[e|[[result|] rc']] w1]
  end; cbn [fst snd] in *; subst w1.
  - apply (cache_backed_frame w); [done| |].
    + intros i g Hg. simpl. rewrite Hgens2, Hgens1.
      rewrite list_lookup_insert_ne.
      * by apply lookup_app_l_Some.
      * apply lookup_lt_Some in Hg. unfold row_of_id, next_id. lia.
    + simpl. rewrite Hcache2.
      by apply (cache_subset_of_frame _ _ (cache_key request)).
  - assert (Hrows : ∀ i g,
              generations w !! i = Some g →
              <[row_of_id (next_id w) :=
                  completed_row (created_row request w) result
                    (utcnow_at env (clock_reads w))
                    (utcnow_at env
                       (clock_reads (at_loop_start request w)))]>
                (generations (at_loop_start request w)) !! i = Some g).
    { intros i g Hg. rewrite Hgens2, Hgens1.
      rewrite list_lookup_insert_ne.
      - by apply lookup_app_l_Some.
      - apply lookup_lt_Some in Hg. unfold row_of_id, next_id. lia. }
    unfold after_success. destruct (use_cache request).
    + intros key entry. simpl. rewrite Hcache2.
      destruct (decide (key = cache_key request)) as [->|Hne].
      * rewrite lookup_insert_eq. intros [= <-]. simpl.
        split; [unfold next_id; lia|].
        eexists. split.
        { rewrite Hgens2, Hgens1.
          apply list_lookup_insert_eq. rewrite length_app. simpl.
          unfold row_of_id, next_id. lia. }
        done.
      * rewrite lookup_insert_ne by done. intros Hentry.
        apply (cache_subset_of_frame _ _ (cache_key request) Hcache1)
          in Hentry.
        destruct (Hw key entry Hentry) as (Hid & g & Hg & Hrest).
        split; [done|]. exists g. split; [by apply Hrows|done].
    + apply (cache_backed_frame w); [done|exact Hrows|].
      simpl. rewrite Hcache2.
      by apply (cache_subset_of_frame _ _ (cache_key request)).
  - apply (cache_backed_frame w); [done| |].
    + intros i g Hg. simpl. rewrite Hgens2, Hgens1.
      rewrite list_lookup_insert_ne.
      * by apply lookup_app_l_Some.
      * apply lookup_lt_Some in Hg. unfold row_of_id, next_id. lia.
    + simpl. rewrite Hcache2.
      by apply (cache_subset_of_frame _ _ (cache_key request)).
Qed.

Lemma run_generate_sequentially_cache_backed batch items :
  ∀ acc w,
    cache_backed w →
    cache_backed (run env (sequentially batch items acc) w).2.
Proof.
  induction items as [|[i gen_request] rest IH]; intros acc w Hw; [done|].
  rewrite run_generate_sequentially_cons.
  pose proof (run_generate_image_cache_backed gen_request w Hw) as Hw1.
  destruct (run env (gen_image gen_request) w) as [[e|result] w1];
    cbn [snd] in Hw1.
  - destruct (negb _); [done|by apply IH].
  - by apply IH.
Qed.

(** X27. Every entry of the cache repeats a row of the table: if that
    holds before a request or a sequential batch is handled, it holds
    afterwards, as it does of the empty cache.  So the id of a response,
    served from the cache or freshly made, can always be read back with
    [GET /{id}], which answers with a [completed] generation that has
    the image and the quality score of the response. *)
Theorem cache_entries_repeat_completed_rows
    (request : GenerationRequest) (sched : list nat)
    (batch : BatchGenerationRequest) (w : World) :
  cache_backed w →
  let out := run env (gen_image request) w in
  cache_backed out.2
  ∧ (parallel batch = false →
     cache_backed (batch_images sched batch w).2)
  ∧ cache_backed (clear_cache w).2
  ∧ ∀ response,
      out.1 = inr response →
      ∃ detail,
        get_generation (rd_id (resp_data response)) out.2 = inr detail
        ∧ gd_status detail = "completed"
        ∧ gd_result_url detail = rd_image_url (resp_data response)
        ∧ gd_quality_score detail = rd_quality_score (resp_data response).
Proof.
  intros Hw out.
  pose proof (run_generate_image_cache_backed request w Hw) as Hout.
  fold out in Hout.
  split; [exact Hout|]. split; [|split; [done|]].
  { intros Hseq. unfold batch_generate_images. rewrite Hseq.
    rewrite run_try_catch, run_bind.
    pose proof (run_generate_sequentially_cache_backed batch
                  (enumerate (requests batch)) empty_acc w Hw) as Hbatch.
    by destruct (run env (sequentially batch _ _) w) as [[e|acc] w1]. }
  intros response Hresponse.
  destruct (cache_hit request w) as [d|] eqn:Hhit.
  - subst out. rewrite run_generate_image, Hhit in Hresponse, Hout |- *.
    cbn [fst snd] in *. injection Hresponse as <-. simpl.
    destruct (cache_hit_entry request w d Hhit) as (entry & Hentry & ->).
    destruct (Hw _ _ Hentry) as (Hid & g & Hg & Hstatus & Hurl & Hscore).
    destruct (after_cache_check_frame request w)
      as (tr0 & _ & _ & Hgens0 & _).
    rewrite get_generation_lookup, bool_decide_eq_true_2 by done.
    rewrite Hgens0, Hg. eexists. split; [done|]. by simpl.
  - pose proof (generate_image_miss_row request w Hhit) as Hrow.
    cbn zeta in Hrow. fold out in Hrow.
    destruct Hrow as (gT & Hgens & _ & _ & _ & _ & _ & Hterminal).
    rewrite Hresponse in Hterminal.
    destruct Hterminal as (Hid & _ & Hstatus & Hurl & _ & Hscore & _).
    rewrite get_generation_lookup, Hid.
    rewrite bool_decide_eq_true_2 by (unfold next_id; lia).
    rewrite Hgens.
    replace (row_of_id (next_id w)) with (length (generations w) + 0)%nat
      by (unfold row_of_id, next_id; lia).
    rewrite lookup_app_r, Nat.add_comm, Nat.add_sub by lia. simpl.
    eexists. split; [done|]. by simpl.
Qed.

(** ** Times *)

Lemma clock_reads_after_cache_check request w :
  (clock_reads w < clock_reads (after_cache_check request w))%nat.
Proof.
  unfold after_cache_check, cache_check.
  destruct (use_cache request); [|simpl; lia].
  cbn [generation_cache tick_clock log].
  destruct (generation_cache w !! cache_key request) as [cached|];
    [|simpl; lia].
  cbn zeta. destruct (bool_decide _); simpl; lia.
Qed.

Lemma total_seconds_nonneg (d : Z) : 0 ≤ d → (0 <= total_seconds d)%Q.
Proof.
  intros Hd. unfold total_seconds, Qdiv. apply Qmult_le_0_compat.
  - unfold Qle. simpl. lia.
  - apply Qinv_le_0_compat. unfold Qle. simpl. lia.
Qed.

(** X28. The time a generation took is the time between the first and
    the last reading of the clock.  If the clock never runs backwards, a
    request that is not served from the cache and succeeds reports a
    generation time that is not negative, and its row was created after
    the request started and completed after it was created; the row
    records the same generation time as the response. *)
Theorem generation_time_is_elapsed_time
    (request : GenerationRequest) (w : World) (response : GenerationResponse) :
  (∀ n m, (n ≤ m)%nat → utcnow_at env n ≤ utcnow_at env m) →
  cache_hit request w = None →
  let out := run env (gen_image request) w in
  out.1 = inr response →
  ∃ gT created_at completed_at,
    generations out.2 = generations w ++ [gT]
    ∧ g_created_at gT = Some created_at
    ∧ g_completed_at gT = Some completed_at
    ∧ utcnow_at env (clock_reads w) ≤ created_at ≤ completed_at
    ∧ rd_generation_time (resp_data response)
      = Some (total_seconds (completed_at - utcnow_at env (clock_reads w)))
    ∧ g_generation_time gT = rd_generation_time (resp_data response)
    ∧ (0 <= total_seconds (completed_at - utcnow_at env (clock_reads w)))%Q.
Proof.
  intros Hclock Hmiss out Hresponse. subst out.
  rewrite (run_generate_image_miss request w Hmiss) in Hresponse |- *.
  cbn zeta in Hresponse |- *.
  destruct (after_insert_frame request w)
    as (tr1 & _ & _ & Hgens1 & _ & _ & _ & _).
  destruct (after_resolve_frame request (after_insert request w))
    as (_ & Hgens2 & _ & _).
  fold (at_loop_start request w) in Hgens2.
  assert (Hreads : clock_reads (at_loop_start request w)
                   = S (clock_reads (after_cache_check request w))).
  { unfold at_loop_start, after_resolve, after_insert.
    by destruct (bool_decide _). }
  pose proof (clock_reads_after_cache_check request w) as Hlater.
  match type of Hresponse with
  | context [run env (generate_with_retry ?args ?m ?attempts ?rc) ?w0] =>
      destruct (run_generate_with_retry_frame args m attempts rc w0)
        as (n & tr & Hloop & _);
      destruct (run env (generate_with_retry args m attempts rc) w0)
        as [[e|[[result|] rc']] w1]
  end; cbn [fst snd] in *; [discriminate Hresponse| |discriminate Hresponse].
  injection Hresponse as <-. subst w1.
  cbn [clock_reads after_upstream]. rewrite Hreads.
  assert (Hrows : generations
                    (after_success request (cache_key request) (next_id w)
                       (created_row request w) result rc'
                       (resolve env request (intent_calls w)).2
                       (utcnow_at env (clock_reads w))
                       (after_upstream (at_loop_start request w) n tr))
                  = generations w
                    ++ [completed_row (created_row request w) result
                          (utcnow_at env (clock_reads w))
                          (utcnow_at env
                             (S (clock_reads
                                   (after_cache_check request w))))]).
  { unfold after_success. cbn [clock_reads after_upstream].
    rewrite Hreads.
    assert (Hinsert :
              <[row_of_id (next_id w) :=
                  completed_row (created_row request w) result
                    (utcnow_at env (clock_reads w))
                    (utcnow_at env
                       (S (clock_reads (after_cache_check request w))))]>
                (generations (at_loop_start request w))
              = generations w
                ++ [completed_row (created_row request w) result
                      (utcnow_at env (clock_reads w))
                      (utcnow_at env
                         (S (clock_reads (after_cache_check request w))))]).
    { rewrite Hgens2, Hgens1.
      replace (row_of_id (next_id w))
        with (length (generations w) + 0)%nat
        by (unfold row_of_id, next_id; lia).
      by rewrite insert_app_r. }
    destruct (use_cache request); simpl; exact Hinsert. }
  eexists _, _, _. split; [exact Hrows|].
  split; [reflexivity|]. split; [reflexivity|].
  assert (Hstart : utcnow_at env (clock_reads w)
                   ≤ utcnow_at env (clock_reads (after_cache_check request w)))
    by (apply Hclock; lia).
  assert (Hend : utcnow_at env (clock_reads (after_cache_check request w))
                 ≤ utcnow_at env
                     (S (clock_reads (after_cache_check request w))))
    by (apply Hclock; lia).
  split; [done|]. split; [reflexivity|]. split; [reflexivity|].
  apply total_seconds_nonneg. lia.
Qed.

End Properties.

(** * Properties of the code around the generation handlers *)

(** ** History *)

Section History.

Global Instance created_at_desc_total : Total created_at_desc.
Proof.
  intros p q. unfold created_at_desc.
  destruct (g_created_at p.2), (g_created_at q.2); auto. lia.
Qed.

Global Instance created_at_desc_trans : Transitive created_at_desc.
Proof.
  intros p q r. unfold created_at_desc.
  destruct (g_created_at p.2), (g_created_at q.2), (g_created_at r.2);
    auto; try done. lia.
Qed.

Lemma filter_enumerate_from {A : Type} (P : A → Prop)
    `{!∀ x, Decision (P x)} (l : list A) :
  ∀ start,
    (filter (λ row, P row.2) (enumerate_from start l)).*2 = filter P l.
Proof.
  induction l as [|x l IH]; intros start; [done|].
  cbn [enumerate_from]. destruct (decide (P x)).
  - rewrite !filter_cons_True by done. rewrite fmap_cons. simpl. by rewrite IH.
  - rewrite !filter_cons_False by done. apply IH.
Qed.

Lemma enumerate_from_NoDup {A : Type} (l : list A) :
  ∀ start, NoDup (enumerate_from start l).*1.
Proof.
  induction l as [|x l IH]; intros start; [constructor|].
  cbn [enumerate_from]. rewrite fmap_cons. apply NoDup_cons. split; [|apply IH].
  simpl. intros [[i y] [-> Hin]]%list_elem_of_fmap.
  apply list_elem_of_lookup in Hin as [n Hn].
  rewrite enumerate_from_lookup in Hn.
  destruct (l !! n); [|done]. simpl in Hn. injection Hn as Hi _. lia.
Qed.

Lemma elem_of_query_Generation id g w :
  (id, g) ∈ query_Generation w ↔
  1 ≤ id ∧ generations w !! row_of_id id = Some g.
Proof.
  unfold query_Generation, row_of_id. split.
  - intros [n Hn]%list_elem_of_lookup. rewrite enumerate_from_lookup in Hn.
    destruct (generations w !! n) as [g'|] eqn:Hg; [|done].
    simpl in Hn. injection Hn as <- <-. split; [lia|].
    by replace (Z.to_nat (1 + Z.of_nat n - 1)) with n by lia.
  - intros [Hid Hg]. apply list_elem_of_lookup. exists (Z.to_nat (id - 1)).
    rewrite enumerate_from_lookup, Hg. simpl. do 2 f_equal. lia.
Qed.

Lemma optional_filters {A : Type} (P1 P2 P3 : A → Prop)
    `{!∀ x, Decision (P1 x)} `{!∀ x, Decision (P2 x)}
    `{!∀ x, Decision (P3 x)} (b2 b3 : bool) (l : list A) :
  (let query := filter P1 l in
   let query := if b2 then filter P2 query else query in
   if b3 then filter P3 query else query)
  = filter (λ x, P1 x ∧ (b2 = true → P2 x) ∧ (b3 = true → P3 x)) l.
Proof.
  cbn zeta. destruct b2, b3; rewrite ?list_filter_filter;
    apply list_filter_iff; intros x; intuition (try done).
Qed.

(** The rows a history query selects, before they are ordered. *)
Lemma history_query_filter user_id project_id status w :
  (let query :=
     filter (λ row, g_user_id row.2 = user_id) (query_Generation w) in
   let query :=
     if truthy_int project_id
     then filter (λ row, g_project_id row.2 = project_id) query
     else query in
   if truthy_str status
   then filter (λ row, Some (g_status row.2) = status) query
   else query)
  = filter (λ row, matches user_id project_id status row.2)
           (query_Generation w).
Proof.
  rewrite (optional_filters
             (λ row : Z * Generation, g_user_id row.2 = user_id)
             (λ row, g_project_id row.2 = project_id)
             (λ row, Some (g_status row.2) = status)).
  by apply list_filter_iff.
Qed.

Lemma get_generation_history_eq user_id project_id limit offset status w :
  get_generation_history user_id project_id limit offset status w
  = let query :=
      merge_sort created_at_desc
        (filter (λ row, matches user_id project_id status row.2)
                (query_Generation w)) in
    if bool_decide (0 ≤ Z.min limit 200 ∧ 0 ≤ offset) then
      Some (mkHistoryResponse
              (Z.of_nat (length query)) (Z.min limit 200) offset
              (detail_of <$> take (Z.to_nat (Z.min limit 200))
                                  (drop (Z.to_nat offset) query)))
    else None.
Proof.
  unfold get_generation_history. cbn zeta.
  by rewrite <-(history_query_filter user_id project_id status w).
Qed.


Lemma length_history_query user_id project_id status w :
  length (merge_sort created_at_desc
            (filter (λ row, matches user_id project_id status row.2)
                    (query_Generation w)))
  = length (filter (matches user_id project_id status) (generations w)).
Proof.
  rewrite merge_sort_Permutation.
  rewrite <-(filter_enumerate_from (matches user_id project_id status)
               (generations w) 1).
  by rewrite length_fmap.
Qed.

(** X15. For a limit and an offset that are not negative, [GET /history]
    answers with the limit capped at 200, the offset as given, and as
    [total] the number of rows that pass the filters, whatever the page
    is: the user's rows, of the project if a project is given and is not
    0, of the status if a status is given and is not empty.  The page
    holds [min(limit, 200)] rows, or as many as are left after the
    offset, hence never more than 200. *)
Theorem history_page_is_capped_and_counted
    (user_id : Z) (project_id : option Z) (limit offset : Z)
    (status : option string) (w : World) :
  0 ≤ limit → 0 ≤ offset →
  ∃ h,
    get_generation_history user_id project_id limit offset status w = Some h
    ∧ h_limit h = Z.min limit 200
    ∧ h_offset h = offset
    ∧ h_total h
      = Z.of_nat (length (filter (matches user_id project_id status)
                                 (generations w)))
    ∧ Z.of_nat (length (h_results h))
      = Z.min (h_limit h) (Z.max 0 (h_total h - offset))
    ∧ (length (h_results h) ≤ 200)%nat.
Proof.
  intros Hlimit Hoffset. rewrite get_generation_history_eq. cbn zeta.
  rewrite bool_decide_eq_true_2 by lia.
  eexists. split; [reflexivity|]. cbn [h_limit h_offset h_total h_results].
  rewrite length_history_query, length_fmap, length_take, length_drop.
  rewrite length_history_query.
  repeat split; lia.
Qed.

Lemma history_page_sublist n m user_id project_id status w :
  ∃ query,
    query ≡ₚ filter (λ row, matches user_id project_id status row.2)
                    (query_Generation w)
    ∧ StronglySorted created_at_desc query
    ∧ take n (drop m (merge_sort created_at_desc
                        (filter (λ row, matches user_id project_id status
                                          row.2)
                                (query_Generation w))))
      `sublist_of` query.
Proof.
  exists (merge_sort created_at_desc
            (filter (λ row, matches user_id project_id status row.2)
                    (query_Generation w))).
  split; [apply merge_sort_Permutation|].
  split; [apply StronglySorted_merge_sort; apply _|].
  etransitivity; [apply sublist_take|apply sublist_drop].
Qed.

Lemma StronglySorted_take_drop {A : Type} (R : relation A) n m (l : list A) :
  StronglySorted R l → StronglySorted R (take n (drop m l)).
Proof.
  intros Hl. rewrite <-(take_drop m l) in Hl.
  apply StronglySorted_app_1_r in Hl.
  rewrite <-(take_drop n (drop m l)) in Hl.
  by apply StronglySorted_app_1_l in Hl.
Qed.

(** X16. Every entry of a history page is a row of the table under
    its own id, and passes the filters of the query; no row is listed
    twice; and the entries come latest first. *)
Theorem history_lists_matching_rows_newest_first
    (user_id : Z) (project_id : option Z) (limit offset : Z)
    (status : option string) (w : World) (h : HistoryResponse) :
  get_generation_history user_id project_id limit offset status w = Some h →
  (∀ d, d ∈ h_results h →
        ∃ g, 1 ≤ gd_id d
             ∧ generations w !! row_of_id (gd_id d) = Some g
             ∧ d = detail_of (gd_id d, g)
             ∧ matches user_id project_id status g)
  ∧ NoDup (gd_id <$> h_results h)
  ∧ StronglySorted newer_first (h_results h).
Proof.
  rewrite get_generation_history_eq. cbn zeta.
  destruct (bool_decide _); [|done]. intros [= <-].
  cbn [h_results].
  destruct (history_page_sublist (Z.to_nat (Z.min limit 200))
              (Z.to_nat offset) user_id project_id status w)
    as (query & Hperm & Hsorted & Hsub).
  split; [|split].
  - intros d [[id g] [-> Hrow]]%list_elem_of_fmap.
    eapply elem_of_sublist in Hrow; [|exact Hsub].
    rewrite Hperm in Hrow. apply list_elem_of_filter in Hrow as [Hm Hrow].
    apply elem_of_query_Generation in Hrow as [Hid Hg].
    exists g. simpl in *. split; [done|]. split; [done|]. by split.
  - rewrite <-list_fmap_compose.
    rewrite (list_fmap_ext (gd_id ∘ detail_of) fst) by (by intros ? [] ?).
    eapply sublist_NoDup; [|apply fmap_sublist, Hsub].
    rewrite Hperm.
    eapply sublist_NoDup; [|apply fmap_sublist, sublist_filter].
    apply enumerate_from_NoDup.
  - eapply (StronglySorted_fmap detail_of created_at_desc newer_first);
      [by intros [i1 g1] [i2 g2]|].
    apply StronglySorted_take_drop, StronglySorted_merge_sort; apply _.
Qed.


End History.

(** ** The integration layer *)

Section Enhance.
Variable settings : Settings.

Ltac lookup_inserts :=
  repeat first
    [ rewrite lookup_insert_eq
    | rewrite lookup_insert_ne by (first [discriminate|congruence]) ].

(** The entries of the enhanced dictionary, key by key. *)
Lemma lookup_enhance_parameters params k :
  _enhance_parameters settings params !! k
  = if decide (k = "height") then
      Some (default (PVal (PyInt (DEFAULT_IMAGE_HEIGHT settings)))
                    (params !! "height"))
    else if decide (k = "width") then
      Some (default (PVal (PyInt (DEFAULT_IMAGE_WIDTH settings)))
                    (params !! "width"))
    else if decide (k = "quality") then
      Some (PFloat (DEFAULT_QUALITY settings))
    else if HDR_ENABLED settings then
      if decide (k = "color_space") then
        Some (PVal (PyStr (DEFAULT_COLOR_SPACE settings)))
      else if decide (k = "color_depth") then
        Some (PVal (PyInt (DEFAULT_COLOR_DEPTH settings)))
      else if decide (k = "hdr") then Some (PVal (PyBool true))
      else params !! k
    else params !! k.
Proof.
  unfold _enhance_parameters. cbn zeta.
  set (hdr := if HDR_ENABLED settings then _ else params).
  assert (Hw : hdr !! "width" = params !! "width").
  { subst hdr. destruct (HDR_ENABLED settings); [|done]. by lookup_inserts. }
  assert (Hh : hdr !! "height" = params !! "height").
  { subst hdr. destruct (HDR_ENABLED settings); [|done]. by lookup_inserts. }
  assert (Hk : hdr !! k
               = if HDR_ENABLED settings then
                   if decide (k = "color_space") then
                     Some (PVal (PyStr (DEFAULT_COLOR_SPACE settings)))
                   else if decide (k = "color_depth") then
                     Some (PVal (PyInt (DEFAULT_COLOR_DEPTH settings)))
                   else if decide (k = "hdr") then Some (PVal (PyBool true))
                   else params !! k
                 else params !! k).
  { subst hdr. destruct (HDR_ENABLED settings); [|done].
    repeat (destruct (decide _) as [->|?]; [by lookup_inserts|]).
    by lookup_inserts. }
  rewrite <-Hk. clear Hk.
  assert (Hq : <["quality" := PFloat (DEFAULT_QUALITY settings)]> hdr
               !! "width" = params !! "width") by (by lookup_inserts).
  rewrite Hq.
  destruct (params !! "width") as [width|] eqn:Hwidth.
  - assert (Hq' : <["quality" := PFloat (DEFAULT_QUALITY settings)]> hdr
                  !! "height" = params !! "height") by (by lookup_inserts).
    rewrite Hq'.
    destruct (params !! "height") as [height|] eqn:Hheight.
    + repeat (destruct (decide _) as [->|?]; [by lookup_inserts; rewrite ?Hw, ?Hh|]).
      by lookup_inserts.
    + repeat (destruct (decide _) as [->|?]; [by lookup_inserts; rewrite ?Hw, ?Hh|]).
      by lookup_inserts.
  - assert (Hq' : <["width" := PVal (PyInt (DEFAULT_IMAGE_WIDTH settings))]>
                    (<["quality" := PFloat (DEFAULT_QUALITY settings)]> hdr)
                  !! "height" = params !! "height") by (by lookup_inserts).
    rewrite Hq'.
    destruct (params !! "height") as [height|] eqn:Hheight.
    + repeat (destruct (decide _) as [->|?]; [by lookup_inserts; rewrite ?Hw, ?Hh|]).
      by lookup_inserts.
    + repeat (destruct (decide _) as [->|?]; [by lookup_inserts; rewrite ?Hw, ?Hh|]).
      by lookup_inserts.
Qed.


(** X18. [_enhance_parameters] always sets [quality] to the configured
    value, whatever the caller gave; with HDR enabled it likewise forces
    [hdr], [color_depth] and [color_space], without it it leaves them
    alone; [width] and [height] are the caller's if given, the
    configured defaults if not; every other entry is kept as it is, so
    no key of the caller is lost; and enhancing twice is the same as
    enhancing once. *)
Theorem enhance_parameters_forces_defaults_and_keeps
    (params : gmap string param_value) :
  let enhanced := _enhance_parameters settings params in
  enhanced !! "quality" = Some (PFloat (DEFAULT_QUALITY settings))
  ∧ enhanced !! "width"
    = Some (default (PVal (PyInt (DEFAULT_IMAGE_WIDTH settings)))
                    (params !! "width"))
  ∧ enhanced !! "height"
    = Some (default (PVal (PyInt (DEFAULT_IMAGE_HEIGHT settings)))
                    (params !! "height"))
  ∧ (HDR_ENABLED settings = true →
     enhanced !! "hdr" = Some (PVal (PyBool true))
     ∧ enhanced !! "color_depth"
       = Some (PVal (PyInt (DEFAULT_COLOR_DEPTH settings)))
     ∧ enhanced !! "color_space"
       = Some (PVal (PyStr (DEFAULT_COLOR_SPACE settings))))
  ∧ (∀ k, k ∉ ENHANCED_KEYS → enhanced !! k = params !! k)
  ∧ (HDR_ENABLED settings = false →
     ∀ k, k ∈ ["hdr"; "color_depth"; "color_space"] →
          enhanced !! k = params !! k)
  ∧ (∀ k, is_Some (params !! k) → is_Some (enhanced !! k))
  ∧ _enhance_parameters settings enhanced = enhanced.
Proof.
  intros enhanced. subst enhanced.
  split; [by rewrite lookup_enhance_parameters|].
  split; [by rewrite lookup_enhance_parameters|].
  split; [by rewrite lookup_enhance_parameters|].
  split; [intros Hhdr; rewrite !lookup_enhance_parameters, Hhdr; done|].
  split.
  { intros k Hk. rewrite lookup_enhance_parameters.
    unfold ENHANCED_KEYS in Hk. rewrite !elem_of_cons, elem_of_nil in Hk.
    repeat (destruct (decide _) as [->|?]; [exfalso; apply Hk; tauto|]).
    by destruct (HDR_ENABLED settings). }
  split.
  { intros Hhdr k Hk. rewrite lookup_enhance_parameters, Hhdr.
    rewrite !elem_of_cons, elem_of_nil in Hk.
    destruct Hk as [->|[->|[->|[]]]]; done. }
  split.
  { intros k [v Hv]. rewrite lookup_enhance_parameters.
    repeat (destruct (decide _) as [->|?]; [by eexists|]).
    destruct (HDR_ENABLED settings); [|by eexists].
    repeat (destruct (decide _) as [->|?]; [by eexists|]). by eexists. }
  apply map_eq. intros k. rewrite !lookup_enhance_parameters.
  repeat (destruct (decide _) as [->|?]; [done|]).
  destruct (HDR_ENABLED settings); [|done].
  repeat (destruct (decide _) as [->|?]; [done|]). done.
Qed.

(** X19. The body [refine] posts names the image to refine under
    [image_url], unless the refinement parameters have an [image_url] of
    their own, which then replaces it; [quality] is the configured
    value, and every refinement parameter outside the enhanced keys
    goes out as given. *)
Theorem refinement_parameters_can_replace_the_image
    (image_url : string) (refinement_params : gmap string param_value) :
  let body := refine_params settings image_url refinement_params in
  body !! "image_url"
  = Some (default (PVal (PyStr image_url))
                  (refinement_params !! "image_url"))
  ∧ (∀ other,
       refinement_params !! "image_url" = Some other →
       body !! "image_url" = Some other)
  ∧ (refinement_params !! "image_url" = None →
     body !! "image_url" = Some (PVal (PyStr image_url)))
  ∧ body !! "quality" = Some (PFloat (DEFAULT_QUALITY settings))
  ∧ (∀ k v, k ∉ ENHANCED_KEYS → refinement_params !! k = Some v →
            body !! k = Some v).
Proof.
  intros body. subst body. unfold refine_params. cbn zeta.
  assert (Hurl : _enhance_parameters settings
                   (refinement_params
                    ∪ {["image_url" := PVal (PyStr image_url)]})
                 !! "image_url"
                 = Some (default (PVal (PyStr image_url))
                           (refinement_params !! "image_url"))).
  { rewrite lookup_enhance_parameters.
    repeat (destruct (decide _) as [?|?]; [discriminate|]).
    assert (Hu : (refinement_params
                  ∪ {["image_url" := PVal (PyStr image_url)]})
                 !! "image_url"
                 = Some (default (PVal (PyStr image_url))
                           (refinement_params !! "image_url"))).
    { destruct (refinement_params !! "image_url") as [other|] eqn:Ho.
      - by apply lookup_union_Some_l.
      - rewrite lookup_union_r by done. apply lookup_singleton_eq. }
    destruct (HDR_ENABLED settings); [|done].
    repeat (destruct (decide _) as [?|?]; [discriminate|]). done. }
  split; [exact Hurl|].
  split; [by intros other Ho; rewrite Hurl, Ho|].
  split; [by intros Ho; rewrite Hurl, Ho|].
  split; [by rewrite lookup_enhance_parameters|].
  intros k v Hk Hv. rewrite lookup_enhance_parameters.
  unfold ENHANCED_KEYS in Hk. rewrite !elem_of_cons, elem_of_nil in Hk.
  repeat (destruct (decide _) as [->|?]; [exfalso; apply Hk; tauto|]).
  destruct (HDR_ENABLED settings); by apply lookup_union_Some_l.
Qed.

End Enhance.

Section IntegrationFacts.
Variable str_HTTPException : Z → string → string.
Variable settings : Settings.
Variable env : Env.

Lemma run_batch_generate_loop (requests : list GenerateArgs) :
  ∀ (results : list BatchItem) (w : World),
    run env (batch_generate_loop str_HTTPException requests results) w
    = (inr (results
            ++ imap (λ i, item_of str_HTTPException env (api_calls w + i))
                    requests),
       after_upstream w (length requests) (FiboApi <$> requests)).
Proof.
  induction requests as [|request rest IH]; intros results w.
  - simpl. by rewrite app_nil_r, after_upstream_0.
  - cbn [batch_generate_loop].
    rewrite (run_bind env), (run_try_catch env), (run_bind env),
      (run_fibo_generate env).
    assert (Hnext :
              run env (batch_generate_loop str_HTTPException rest
                         (results
                          ++ [item_of str_HTTPException env (api_calls w)
                                request]))
                  (after_upstream w 1 [FiboApi request])
              = (inr (results
                      ++ imap (λ i, item_of str_HTTPException env
                                      (api_calls w + i))
                              (request :: rest)),
                 after_upstream w (length (request :: rest))
                                (FiboApi <$> request :: rest))).
    { rewrite IH, after_upstream_after, <-app_assoc. simpl.
      rewrite Nat.add_0_r. do 4 f_equal.
      apply imap_ext. intros i x _. simpl. f_equal. lia. }
    unfold item_of in Hnext at 1.
    by destruct (fibo_api_at env (api_calls w) request).
Qed.

(** X20. [fibo_integration.batch_generate] refuses a batch larger than
    [MAX_BATCH_SIZE] with an error, before any upstream call.  Otherwise
    it never raises: it makes exactly one upstream call per request, in
    order and without retry, touches neither rows nor cache, and returns
    one entry per request, in order: the result of the call, or the
    record of its failure with the error text and the request. *)
Theorem integration_batch_calls_once_per_request
    (requests : list GenerateArgs) (w : World) :
  let out := run env (batch_generate str_HTTPException settings requests) w in
  (MAX_BATCH_SIZE settings < Z.of_nat (length requests) →
   out = (inl (PyError ("Batch size exceeds maximum of "
                        +:+ pretty (MAX_BATCH_SIZE settings))), w))
  ∧ (Z.of_nat (length requests) ≤ MAX_BATCH_SIZE settings →
     ∃ results,
       out.1 = inr results
       ∧ length results = length requests
       ∧ (∀ (i : nat) request,
            requests !! i = Some request →
            results !! i
            = Some (item_of str_HTTPException env (api_calls w + i) request))
       ∧ api_calls out.2 = (api_calls w + length requests)%nat
       ∧ trace out.2 = trace w ++ (FiboApi <$> requests)
       ∧ generations out.2 = generations w
       ∧ generation_cache out.2 = generation_cache w).
Proof.
  intros out. subst out. unfold batch_generate. split.
  - intros Hover. by rewrite bool_decide_eq_true_2.
  - intros Hfits. rewrite bool_decide_eq_false_2 by lia.
    rewrite run_batch_generate_loop. eexists. split; [reflexivity|].
    cbn [app fst snd]. split; [by rewrite length_imap|].
    split; [|done].
    intros i request Hi. by rewrite list_lookup_imap, Hi.
Qed.

End IntegrationFacts.

Section Options.

Ltac elem_of_list := rewrite !elem_of_cons; auto 12.

Ltac accepted_is_advertised :=
  let v := fresh "v" in
  let Hv := fresh "Hv" in
  let Hok := fresh "Hok" in
  intros v Hv Hok;
  unfold validate_camera_angle, validate_fov, validate_lighting,
    validate_color_palette, validate_composition, validate_style,
    valid_choice in Hok;
  cbn [truthy_str default from_option id] in Hok;
  rewrite (bool_decide_eq_false_2 (v = "")) in Hok by exact Hv;
  cbn [negb andb] in Hok;
  rewrite negb_involutive in Hok; apply bool_decide_eq_true in Hok;
  rewrite !elem_of_cons, elem_of_nil in Hok;
  repeat (destruct Hok as [->|Hok]; [elem_of_list|]);
  destruct Hok.

(** X21. The modes [GET /parameters] advertises are exactly the modes
    the request validation accepts.  For each of the six optional
    parameters every value validation accepts, the empty string apart,
    is among the advertised options, but not the other way round: each
    parameter has an advertised option that validation rejects. *)
Theorem advertised_options_exceed_accepted_values :
  (∀ v, validate_mode v = true ↔ v ∈ modes get_parameters)
  ∧ ∀ name validate,
      (name, validate) ∈ field_validators →
      ∃ options,
        (name, options) ∈ parameters get_parameters
        ∧ (∀ v, v ≠ "" → validate (Some v) = true → v ∈ options)
        ∧ ∃ v, v ∈ options ∧ validate (Some v) = false.
Proof.
  split.
  - intros v. unfold validate_mode. apply bool_decide_eq_true.
  - intros name validate Hin. unfold field_validators in Hin.
    rewrite !elem_of_cons, elem_of_nil in Hin.
    destruct Hin as [[= -> ->]|[[= -> ->]|[[= -> ->]|[[= -> ->]|[[= -> ->]
                    |[[= -> ->]|[]]]]]]];
      eexists; (split; [unfold get_parameters, get_parameter_options;
                        cbn [parameters]; rewrite !elem_of_cons;
                        eauto 12|]);
      (split; [accepted_is_advertised|]).
    + exists "worm's-eye". split; [elem_of_list|reflexivity].
    + exists "macro". split; [elem_of_list|reflexivity].
    + exists "rim". split; [elem_of_list|reflexivity].
    + exists "earth-tones". split; [elem_of_list|reflexivity].
    + exists "symmetrical". split; [elem_of_list|reflexivity].
    + exists "artistic". split; [elem_of_list|reflexivity].
Qed.

End Options.

(** ** Rate limiting *)

Section RateLimit.



Lemma dispatch_limit self client_ip now :
  rl_limit (dispatch self client_ip now).2 = rl_limit self.
Proof. unfold dispatch. by destruct (bool_decide _). Qed.




Lemma serve_cons self client_ip now rest :
  serve self ((client_ip, now) :: rest)
  = ((dispatch self client_ip now).1
       :: (serve (dispatch self client_ip now).2 rest).1,
     (serve (dispatch self client_ip now).2 rest).2).
Proof.
  cbn [serve]. destruct (dispatch self client_ip now) as [d self'].
  cbn [fst snd]. by destruct (serve self' rest).
Qed.

Lemma serve_limit arrivals :
  ∀ self, rl_limit (serve self arrivals).2 = rl_limit self.
Proof.
  induction arrivals as [|[ip now] rest IH]; intros self; [done|].
  rewrite serve_cons. cbn [snd]. by rewrite IH, dispatch_limit.
Qed.






(** Clients do not affect each other. *)
Lemma dispatch_other self client_ip now ip :
  client_ip ≠ ip →
  rl_requests (dispatch self client_ip now).2 !! ip = rl_requests self !! ip.
Proof.
  intros Hne. unfold dispatch. destruct (bool_decide _); simpl;
    by rewrite !lookup_insert_ne by done.
Qed.

Lemma dispatch_same self self' client_ip now :
  rl_requests self !! client_ip = rl_requests self' !! client_ip →
  rl_limit self = rl_limit self' →
  (dispatch self client_ip now).1 = (dispatch self' client_ip now).1
  ∧ rl_requests (dispatch self client_ip now).2 !! client_ip
    = rl_requests (dispatch self' client_ip now).2 !! client_ip.
Proof.
  intros Hreq Hlim. unfold dispatch. rewrite Hreq. cbn [rl_limit]. rewrite Hlim.
  destruct (bool_decide _); simpl; by rewrite !lookup_insert_eq.
Qed.

Lemma serve_isolated client_ip arrivals :
  ∀ self self',
    rl_requests self !! client_ip = rl_requests self' !! client_ip →
    rl_limit self = rl_limit self' →
    let own := filter (λ a, a.1 = client_ip) arrivals in
    answers_to client_ip arrivals (serve self arrivals).1
    = (serve self' own).1.
Proof.
  induction arrivals as [|[ip now] rest IH]; intros self self' Hreq Hlim;
    [done|].
  cbn zeta. rewrite serve_cons. cbn [fst answers_to].
  destruct (decide (ip = client_ip)) as [->|Hne].
  - rewrite filter_cons_True by done. rewrite serve_cons. cbn [fst].
    rewrite bool_decide_eq_true_2 by done.
    destruct (dispatch_same self self' client_ip now Hreq Hlim) as [-> Hreq'].
    rewrite (IH _ (dispatch self' client_ip now).2 Hreq');
      [done|by rewrite !dispatch_limit].
  - rewrite filter_cons_False by done.
    rewrite bool_decide_eq_false_2 by done.
    apply IH; [|by rewrite dispatch_limit].
    by rewrite dispatch_other.
Qed.

(** X24. The answers a client gets do not depend on the other
    clients: they are the answers it would get if its requests were the
    only ones. *)
Theorem rate_limit_treats_clients_separately
    (self : RateLimitMiddleware) (arrivals : list (string * Q))
    (client_ip : string) :
  answers_to client_ip arrivals (serve self arrivals).1
  = (serve self (filter (λ a, a.1 = client_ip) arrivals)).1.
Proof. by apply serve_isolated. Qed.

End RateLimit.

(** * Worked examples *)

(** Two failures, then a success, with a budget of two retries: three
    upstream calls are made and the response reports two, not three. *)
Lemma C1_counterexample :
  ∃ response w',
    run flaky_env
        (generate_image example_md5 example_json_str example_str_http
           (watch_request 2 false)) fresh_world
    = (inr response, w')
    ∧ api_calls w' = 3%nat
    ∧ rd_retry_count (resp_data response) ≠ 2 + 1.
Proof.
  eexists _, _. split; [vm_compute; reflexivity|]. split; [reflexivity|].
  simpl. lia.
Qed.

(** The same run, through the theorem. *)
Lemma retry_attempts_and_backoff_witness :
  ∃ response w',
    run flaky_env
        (generate_image example_md5 example_json_str example_str_http
           (watch_request 2 false)) fresh_world
    = (inr response, w')
    ∧ rd_retry_count (resp_data response) = 2.
Proof.
  destruct (retry_attempts_and_backoff example_md5 example_json_str
              example_str_http flaky_env (watch_request 2 false)
              fresh_world 2) as [Hsuccess _].
  - reflexivity.
  - intros j Hj. exists (PyError "upstream down").
    destruct j as [|[|j]]; [reflexivity|reflexivity|lia].
  - destruct (Hsuccess (Some "https://img/1.png"))
      as (response & w' & Hrun & _ & Hcount & _).
    + simpl. lia.
    + reflexivity.
    + exists response, w'. split; [exact Hrun|exact Hcount].
Defined.

(** Three requests in sequence, [continue_on_error] unset, the second
    failing: the call returns no response at all. *)
Lemma C2_counterexample :
  ¬ ∃ response w',
      batch_generate_images example_md5 example_json_str example_str_http
        once_env [] (example_batch false false) fresh_world
      = (inr response, w').
Proof.
  intros (response & w' & Hrun). vm_compute in Hrun. discriminate Hrun.
Qed.

(** What it raises instead. *)
Lemma sequential_batch_aborts_on_first_failure_witness :
  (batch_generate_images example_md5 example_json_str example_str_http
     once_env [] (example_batch false false) fresh_world).1
  = inl (HTTPException 500
           "Batch generation failed: 500: Generation 2 failed: 500: Generation failed: upstream down").
Proof.
  rewrite (sequential_batch_aborts_on_first_failure example_md5
             example_json_str example_str_http once_env
             (example_batch false false) [] fresh_world
             [watch_request 0 false] (watch_request 0 false)
             [watch_request 0 false]
             (HTTPException 500 "Generation failed: upstream down")).
  - reflexivity.
  - reflexivity.
  - reflexivity.
  - reflexivity.
  - vm_compute. repeat constructor. eexists. reflexivity.
  - vm_compute. reflexivity.
Defined.

(** A put followed, one second later, by a get of the same key. *)
Lemma cache_put_get_ttl_witness :
  let w1 := (run flaky_env (_cache_result "k" example_payload)
                 fresh_world).2 in
  (run flaky_env (_get_cached_result "k") w1).1 = inr (Some example_payload).
Proof.
  intros w1.
  destruct (cache_put_get_ttl flaky_env "k" example_payload fresh_world)
    as (Hput & Hget & _).
  destruct (Hget w1 Hput) as [Hfresh _].
  destruct Hfresh as (Hout & _).
  - vm_compute. reflexivity.
  - exact Hout.
Defined.



(** Two requests that differ in cache flag and retry budget only, the
    items of the second dumped in reverse order. *)
Lemma cache_key_deterministic_witness :
  cache_key_of_items example_md5 example_json_str
    (reverse (key_data (watch_request 5 false)))
  = _generate_cache_key example_md5 example_json_str (watch_request 0 true)
  ∧ _generate_cache_key example_md5 example_json_str (watch_request 0 true)
    = _generate_cache_key example_md5 example_json_str (watch_request 5 false).
Proof.
  apply cache_key_deterministic; try reflexivity.
  apply reverse_Permutation.
Defined.


(** Scenario C of the design document, run: three requests in parallel,
    one of which succeeds in this schedule. *)
Example parallel_batch_scenario :
  let out := batch_generate_images example_md5 example_json_str
               example_str_http once_env [1; 0; 2; 1]%nat
               (example_batch true true) fresh_world in
  ∃ response,
    out.1 = inr response
    ∧ (total response, successful response, failed response) = (3, 1, 2)
    ∧ errors response
      = [ Some "Generation 1 failed: 500: Generation failed: upstream down";
          None;
          Some "Generation 3 failed: 500: Generation failed: upstream down" ].
Proof. vm_compute. eexists. split; [reflexivity|]. by split. Qed.

(** The empty batch does not pass validation. *)
Lemma C7_counterexample :
  accepts_BatchGenerationRequest (mkBatchGenerationRequest [] true true)
  ≠ true.
Proof. vm_compute. discriminate. Qed.

(** The same, through the theorem. *)
Lemma empty_batch_is_rejected_witness :
  accepts_BatchGenerationRequest (mkBatchGenerationRequest [] true true)
  = false.
Proof.
  destruct (empty_batch_is_rejected example_md5 example_json_str
              example_str_http down_env
              (mkBatchGenerationRequest [] true true))
    as (Hrejected & _).
  apply Hrejected. reflexivity.
Defined.



(** A hit on a cache that holds the request's key, with the upstream
    down. *)
Lemma cache_hit_returns_without_work_witness :
  let out := run down_env
               (generate_image example_md5 example_json_str example_str_http
                  (watch_request 0 true)) cached_world in
  out.1 = inr (mkGenerationResponse example_payload true)
  ∧ generations out.2 = [] ∧ api_calls out.2 = 0%nat.
Proof.
  intros out.
  destruct (cache_hit_returns_without_work example_md5 example_json_str
              example_str_http down_env (watch_request 0 true) cached_world
              (mkCacheEntry example_payload 0))
    as (Hout & Hgens & _ & Hapi & _).
  - reflexivity.
  - apply lookup_singleton_eq.
  - vm_compute. reflexivity.
  - split; [exact Hout|]. split; [exact Hgens|exact Hapi].
Defined.

(** A cached run from the empty cache. *)
Lemma only_completed_generations_are_cached_witness :
  cache_ok
    (run flaky_env
       (generate_image example_md5 example_json_str example_str_http
          (watch_request 2 true)) fresh_world).2.
Proof.
  destruct (only_completed_generations_are_cached example_md5
              example_json_str example_str_http flaky_env) as [Hsingle _].
  destruct (Hsingle (watch_request 2 true) fresh_world) as [Hok _].
  - apply map_Forall_empty.
  - exact Hok.
Defined.

(** ** Further worked examples *)



(** An AI-mode request with the resolver down: it is asked once. *)
Lemma resolver_failure_falls_back_to_defaults_witness :
  intent_calls
    (run flaky_env
       (generate_image example_md5 example_json_str example_str_http
          portrait_request) fresh_world).2 = 1%nat.
Proof.
  destruct (resolver_failure_falls_back_to_defaults example_md5
              example_json_str example_str_http flaky_env portrait_request
              fresh_world (PyError "quota exceeded"))
    as (Hintent & _).
  - reflexivity.
  - simpl. lia.
  - reflexivity.
  - reflexivity.
  - exact Hintent.
Defined.


(** A request with [use_cache] unset, on a cache that holds its key. *)
Lemma use_cache_false_bypasses_the_cache_witness :
  generation_cache
    (run down_env
       (generate_image example_md5 example_json_str example_str_http
          (watch_request 0 false)) cached_world).2
  = generation_cache cached_world.
Proof.
  destruct (use_cache_false_bypasses_the_cache example_md5 example_json_str
              example_str_http down_env) as [Hsingle _].
  destruct (Hsingle (watch_request 0 false) cached_world) as [Hcache _].
  - reflexivity.
  - exact Hcache.
Defined.

(** A cached run does not touch a key that is not its own. *)
Lemma other_cache_keys_are_untouched_witness :
  generation_cache
    (run flaky_env
       (generate_image example_md5 example_json_str example_str_http
          (watch_request 2 true)) fresh_world).2 !! "another key"
  = generation_cache fresh_world !! "another key".
Proof.
  destruct (other_cache_keys_are_untouched example_md5 example_json_str
              example_str_http flaky_env "another key") as [Hsingle _].
  apply Hsingle. vm_compute. discriminate.
Defined.

(** The rows a parallel batch of three leaves behind. *)
Lemma stored_rows_keep_their_shape_witness :
  Forall row_ok
    (generations
       (batch_generate_images example_md5 example_json_str example_str_http
          once_env [1; 0; 2; 1]%nat (example_batch true true)
          fresh_world).2).
Proof.
  destruct (stored_rows_keep_their_shape example_md5 example_json_str
              example_str_http once_env) as (_ & _ & Hbatch).
  destruct (Hbatch [1; 0; 2; 1]%nat (example_batch true true) fresh_world)
    as [Hrows _].
  - constructor.
  - exact Hrows.
Defined.


(** The same batch with [continue_on_error] set: it returns. *)
Lemma sequential_batch_continues_past_failures_witness :
  ∃ response,
    (batch_generate_images example_md5 example_json_str example_str_http
       once_env [] (example_batch false true) fresh_world).1
    = inr response
    ∧ total response = 3
    ∧ successful response + failed response = 3.
Proof.
  destruct (sequential_batch_continues_past_failures example_md5
              example_json_str example_str_http once_env
              (example_batch false true) [] fresh_world)
    as (response & Hrun & Htotal & _ & _ & _ & _ & Hsum).
  - reflexivity.
  - reflexivity.
  - exists response. split; [by rewrite Hrun|].
    split; [exact Htotal|]. rewrite Hsum. exact Htotal.
Defined.

(** Clearing a cache of one entry. *)
Lemma clear_cache_empties_the_cache_witness :
  cleared (clear_cache cached_world).1 = 1
  ∧ ∀ request,
      cache_hit example_md5 example_json_str down_env request
        (clear_cache cached_world).2 = None.
Proof.
  destruct (clear_cache_empties_the_cache example_md5 example_json_str
              example_str_http down_env cached_world)
    as (Hcleared & _ & _ & _ & _ & Hmiss & _).
  split; [|exact Hmiss].
  rewrite Hcleared. vm_compute. reflexivity.
Defined.

(** The statistics of a cache of one entry that is still fresh. *)
Lemma cache_stats_count_what_a_lookup_would_serve_witness :
  let stats := (get_cache_stats flaky_env cached_world).1 in
  valid stats + expired stats = total_cached stats
  ∧ (run flaky_env
         (_get_cached_result
            (_generate_cache_key example_md5 example_json_str
               (watch_request 0 true))) cached_world).1
    = inr (Some example_payload).
Proof.
  destruct (cache_stats_count_what_a_lookup_would_serve flaky_env
              cached_world)
    as (_ & _ & _ & Hsum & _ & _ & _ & _ & _ & Hserved).
  split; [exact Hsum|].
  apply (Hserved _ (mkCacheEntry example_payload 0)).
  - apply lookup_singleton_eq.
  - vm_compute. reflexivity.
Defined.


(** A limit of 500 is cut to 200; user 1 has two rows. *)
Lemma history_page_is_capped_and_counted_witness :
  ∃ h,
    get_generation_history 1 None 500 0 None history_world = Some h
    ∧ h_limit h = 200
    ∧ h_total h = 2.
Proof.
  destruct (history_page_is_capped_and_counted 1 None 500 0 None
              history_world)
    as (h & Hget & Hlimit & _ & Htotal & _).
  - lia.
  - lia.
  - exists h. split; [exact Hget|]. split; [exact Hlimit|].
    rewrite Htotal. vm_compute. reflexivity.
Defined.

(** The history of user 1. *)
Lemma history_lists_matching_rows_newest_first_witness :
  ∃ h,
    get_generation_history 1 None 50 0 None history_world = Some h
    ∧ NoDup (gd_id <$> h_results h)
    ∧ StronglySorted newer_first (h_results h).
Proof.
  eexists. split; [vm_compute; reflexivity|].
  eapply (history_lists_matching_rows_newest_first 1 None 50 0 None
            history_world).
  vm_compute. reflexivity.
Defined.


(** Enhancing a dictionary that names a quality and a width. *)
Lemma enhance_parameters_forces_defaults_and_keeps_witness :
  _enhance_parameters default_settings
    {[ "quality" := PFloat 0.1%Q; "width" := PVal (PyInt 512) ]}
  !! "hdr" = Some (PVal (PyBool true)).
Proof.
  destruct (enhance_parameters_forces_defaults_and_keeps default_settings
              {[ "quality" := PFloat 0.1%Q; "width" := PVal (PyInt 512) ]})
    as (_ & _ & _ & Hhdr & _).
  destruct Hhdr as (Hhdr & _); [reflexivity|exact Hhdr].
Defined.

(** Refinement parameters that carry an [image_url] of their own. *)
Lemma refinement_parameters_can_replace_the_image_witness :
  refine_params default_settings "https://img/1.png"
    {[ "image_url" := PVal (PyStr "https://img/2.png") ]}
  !! "image_url" = Some (PVal (PyStr "https://img/2.png")).
Proof.
  destruct (refinement_parameters_can_replace_the_image default_settings
              "https://img/1.png"
              {[ "image_url" := PVal (PyStr "https://img/2.png") ]})
    as (_ & Hother & _).
  apply Hother. apply lookup_singleton_eq.
Defined.

(** A batch of two in the integration layer. *)
Lemma integration_batch_calls_once_per_request_witness :
  api_calls
    (run once_env
       (batch_generate example_str_http default_settings
          [plain_args "a cat"; plain_args "a dog"]) fresh_world).2
  = 2%nat.
Proof.
  destruct (integration_batch_calls_once_per_request example_str_http
              default_settings once_env
              [plain_args "a cat"; plain_args "a dog"] fresh_world)
    as [_ Hfits].
  destruct Hfits as (results & _ & _ & _ & Hcalls & _).
  - simpl. lia.
  - exact Hcalls.
Defined.

(** The field of view: an advertised option is rejected. *)
Lemma advertised_options_exceed_accepted_values_witness :
  ∃ options,
    ("fov", options) ∈ parameters get_parameters
    ∧ ∃ v, v ∈ options ∧ validate_fov (Some v) = false.
Proof.
  destruct advertised_options_exceed_accepted_values as [_ Hfields].
  destruct (Hfields "fov" validate_fov)
    as (options & Hin & _ & Hrejected).
  - unfold field_validators. rewrite !elem_of_cons. auto.
  - exists options. split; [exact Hin|exact Hrejected].
Defined.



(** Refining a generation that does not exist. *)
Lemma refinement_adds_a_row_or_changes_nothing_witness :
  refine_generation example_str_http flaky_env example_optimize
    example_refine 9 "warmer light" history_world
  = (inl (HTTPException 404 "Generation not found"), history_world).
Proof.
  destruct (refinement_adds_a_row_or_changes_nothing example_str_http
              flaky_env example_optimize example_refine 9 "warmer light"
              history_world) as (Hmissing & _).
  apply Hmissing. vm_compute. reflexivity.
Defined.
Lemma batch_upstream_calls_are_bounded_witness :
  accepts_BatchGenerationRequest (example_batch true true) = true
  ∧ (api_calls
       (batch_generate_images example_md5 example_json_str example_str_http
          once_env [1; 0; 2; 1]%nat (example_batch true true)
          fresh_world).2
     ≤ api_calls fresh_world + 300)%nat.
Proof.
  assert (Haccepted :
            accepts_BatchGenerationRequest (example_batch true true) = true)
    by (vm_compute; reflexivity).
  split; [exact Haccepted|].
  destruct (batch_upstream_calls_are_bounded example_md5 example_json_str
              example_str_http once_env [1; 0; 2; 1]%nat
              (example_batch true true) fresh_world) as [_ Hbatch].
  destruct (Hbatch Haccepted) as [_ Hcalls]. exact Hcalls.
Defined.

(** Two portraits, one of them with explicit parameters. *)
Lemma ai_mode_ignores_the_request_parameters_witness :
  run once_env
      (generate_image example_md5 example_json_str example_str_http
         portrait_request) fresh_world
  = run once_env
        (generate_image example_md5 example_json_str example_str_http
           styled_portrait_request) fresh_world.
Proof.
  apply ai_mode_ignores_the_request_parameters.
  - unfold same_but_parameters. simpl. repeat split; reflexivity.
  - reflexivity.
  - reflexivity.
Defined.

(** The first request of a fresh service, with the cache in use. *)
Lemma cache_entries_repeat_completed_rows_witness :
  cache_backed fresh_world
  ∧ cache_backed
      (run once_env
         (generate_image example_md5 example_json_str example_str_http
            (watch_request 0 true)) fresh_world).2.
Proof.
  assert (Hfresh : cache_backed fresh_world).
  { intros key entry Hentry. simpl in Hentry.
    rewrite lookup_empty in Hentry. discriminate Hentry. }
  split; [exact Hfresh|].
  destruct (cache_entries_repeat_completed_rows example_md5 example_json_str
              example_str_http once_env (watch_request 0 true) []
              (example_batch false true) fresh_world Hfresh)
    as [Hafter _].
  exact Hafter.
Defined.

(** A clock that advances one second per reading. *)
Lemma generation_time_is_elapsed_time_witness :
  match
    run once_env
        (generate_image example_md5 example_json_str example_str_http
           (watch_request 0 false)) fresh_world
  with
  | (inr response, _) =>
      ∃ completed_at,
        rd_generation_time (resp_data response)
        = Some (total_seconds (completed_at - utcnow_at once_env 0))
        ∧ (0 <= total_seconds (completed_at - utcnow_at once_env 0))%Q
  | (inl _, _) => True
  end.
Proof.
  pose proof (generation_time_is_elapsed_time example_md5 example_json_str
                example_str_http once_env (watch_request 0 false)
                fresh_world) as Helapsed.
  cbn zeta in Helapsed.
  destruct (run once_env _ fresh_world) as [[e|response] w'];
    [exact I|].
  destruct (Helapsed response) as (gT & created_at & completed_at & _ & _
                                   & _ & _ & Htime & _ & Hnonneg).
  - intros n m Hnm. simpl. lia.
  - reflexivity.
  - reflexivity.
  - exists completed_at. split; [exact Htime|exact Hnonneg].
Defined.
